(** * filecache: a pin-based file cache (file_cache.h, file_cache_impl.h,
      file_cache_impl.cc)

    A shallow embedding of [FileCacheImpl]: the cache table
    ([std::map<std::string, CacheEntry>]), the storage system calls it
    issues ([open], [lseek], [read], [write], [close]), the condition
    variable [cv_], and the four public operations together with the
    private helpers [evict_cache_entries], [add_cache_entry],
    [fill_up_cache] and the destructor [~CacheEntry].

    Every public operation runs under the mutex [m_]; the only place where
    the lock is given up inside an operation is [cv_.wait] in [PinFiles].
    An operation is therefore modelled as a function on the whole world,
    and a [PinFiles] call that reaches [cv_.wait] returns [PinWait] with
    its pending set so that it can be resumed later. *)

From Stdlib Require Import ZArith List String Ascii Bool Lia.
From Stdlib Require Import Init.Byte.
From Stdlib Require Import Sorting.Sorted Structures.OrderedTypeEx.
Import ListNotations.
Open Scope string_scope.
Open Scope list_scope.
Open Scope Z_scope.

Set Implicit Arguments.

(* ===================================================================== *)
(** ** Machine integers *)
(* ===================================================================== *)

Module MachineInt.

Definition INT_MAX : Z := 2147483647.

(** Conversion to [uint32_t]. *)
Definition to_uint32 (x : Z) : Z := x mod 2 ^ 32.

(** Conversion to [size_t] (64 bits). *)
Definition to_size_t (x : Z) : Z := x mod 2 ^ 64.

(** Conversion to [int] (32 bits, two's complement). *)
Definition to_int (x : Z) : Z := (x + 2 ^ 31) mod 2 ^ 32 - 2 ^ 31.

(** [a - b] where [a] is an [int] and [b] a [size_t], stored in an [int]:
    the subtraction is done in [size_t]. *)
Definition int_minus_size (a b : Z) : Z := to_int (to_size_t (to_size_t a - b)).

(** [s > a] where [s] is a [size_t] and [a] an [int]. *)
Definition size_gt_int (s a : Z) : bool := to_size_t a <? s.

End MachineInt.
Import MachineInt.

(* ===================================================================== *)
(** ** Data model *)
(* ===================================================================== *)

(** [#define FILE_SIZE 10240] *)
Definition FILE_SIZE : Z := 10240.
Arguments FILE_SIZE : simpl never.

(** [struct CacheEntry].  [file_buf_] is the [FILE_SIZE]-byte buffer,
    [pin_count_] a [uint32_t], [fd_] the descriptor of the backing file. *)
Record CacheEntry := mkCacheEntry {
  file_buf_ : list byte;
  pin_count_ : Z;
  dirty_ : bool;
  fd_ : Z
}.

(** The constructor [CacheEntry(file_buf, pin_count, fd)]: [dirty_(false)]. *)
Definition CacheEntry_ctor (file_buf : list byte) (pin_count fd : Z) : CacheEntry :=
  mkCacheEntry file_buf pin_count false fd.

Definition set_pin_count (p : Z) (ce : CacheEntry) : CacheEntry :=
  mkCacheEntry (file_buf_ ce) p (dirty_ ce) (fd_ ce).

Definition set_dirty (d : bool) (ce : CacheEntry) : CacheEntry :=
  mkCacheEntry (file_buf_ ce) (pin_count_ ce) d (fd_ ce).

(** [pin_count_++] and [pin_count_--] on a [uint32_t]. *)
Definition pin_incr (ce : CacheEntry) : CacheEntry :=
  set_pin_count (to_uint32 (pin_count_ ce + 1)) ce.

Definition pin_decr (ce : CacheEntry) : CacheEntry :=
  set_pin_count (to_uint32 (pin_count_ ce - 1)) ce.

(** *** [std::map<std::string, CacheEntry>] and [std::set<std::string>]

    Both containers iterate in key order, and the eviction and fill loops
    walk them with an iterator, so they are kept as lists ordered by
    [String.compare]. *)
Module StdMap.

Definition t := list (string * CacheEntry).

(** [find]; [None] is [end()]. *)
Fixpoint find (k : string) (m : t) : option CacheEntry :=
  match m with
  | [] => None
  | (k', v) :: m' => if String.eqb k k' then Some v else find k m'
  end.

(** [insert(std::make_pair(k, v))]: an existing key keeps its value. *)
Fixpoint insert (k : string) (v : CacheEntry) (m : t) : t :=
  match m with
  | [] => [(k, v)]
  | (k', v') :: m' =>
      match String.compare k k' with
      | Eq => m
      | Lt => (k, v) :: m
      | Gt => (k', v') :: insert k v m'
      end
  end.

(** Assignment through the iterator that [find] returned. *)
Fixpoint update (k : string) (f : CacheEntry -> CacheEntry) (m : t) : t :=
  match m with
  | [] => []
  | (k', v) :: m' =>
      if String.eqb k k' then (k', f v) :: m' else (k', v) :: update k f m'
  end.

Definition size (m : t) : Z := Z.of_nat (List.length m).

End StdMap.

Module StdSet.

Definition t := list string.

(** [insert]: no duplicates, ascending order. *)
Fixpoint insert (k : string) (s : t) : t :=
  match s with
  | [] => [k]
  | k' :: s' =>
      match String.compare k k' with
      | Eq => s
      | Lt => k :: s
      | Gt => k' :: insert k s'
      end
  end.

Definition size (s : t) : Z := Z.of_nat (List.length s).

Definition empty (s : t) : bool :=
  match s with [] => true | _ => false end.

End StdSet.

(* ===================================================================== *)
(** ** The world: cache object, storage, standard error *)
(* ===================================================================== *)

(** What the cache does to its environment: the system calls it issues,
    with their results, and the broadcasts on [cv_]. *)
Inductive Event :=
| SysOpen (name : string) (ret : Z)
| SysLseek (fd : Z)
| SysRead (fd : Z) (ret : Z)
| SysWrite (fd : Z) (buf : list byte) (ret : Z)
| SysClose (fd : Z)
| CvNotifyAll.

(** Which storage calls fail, per file name, and the text [strerror(errno)]
    gives for the failure. *)
Record Faults := mkFaults {
  open_fails : string -> bool;
  read_fails : string -> bool;
  write_fails : string -> bool;
  strerror_errno : string
}.

Record World := mkWorld {
  (* FileCache / FileCacheImpl members *)
  max_cache_entries_ : Z;
  file_cache_ : StdMap.t;
  (* cv_: the PinFiles calls suspended in cv_.wait, each with its
     files_not_pinned, and the ones notify_all has released *)
  cv_waiting : list StdSet.t;
  cv_woken : list StdSet.t;
  (* storage *)
  disk : list (string * list byte);
  open_fds : list (Z * string);
  faults : Faults;
  (* output *)
  stderr_ : list string;
  trace : list Event
}.

Definition set_file_cache (m : StdMap.t) (w : World) : World :=
  mkWorld (max_cache_entries_ w) m (cv_waiting w) (cv_woken w)
          (disk w) (open_fds w) (faults w) (stderr_ w) (trace w).

Definition set_cv (waiting woken : list StdSet.t) (w : World) : World :=
  mkWorld (max_cache_entries_ w) (file_cache_ w) waiting woken
          (disk w) (open_fds w) (faults w) (stderr_ w) (trace w).

Definition set_disk (d : list (string * list byte)) (w : World) : World :=
  mkWorld (max_cache_entries_ w) (file_cache_ w) (cv_waiting w) (cv_woken w)
          d (open_fds w) (faults w) (stderr_ w) (trace w).

Definition set_open_fds (fds : list (Z * string)) (w : World) : World :=
  mkWorld (max_cache_entries_ w) (file_cache_ w) (cv_waiting w) (cv_woken w)
          (disk w) fds (faults w) (stderr_ w) (trace w).

Definition set_faults (f : Faults) (w : World) : World :=
  mkWorld (max_cache_entries_ w) (file_cache_ w) (cv_waiting w) (cv_woken w)
          (disk w) (open_fds w) f (stderr_ w) (trace w).

Definition add_stderr (line : string) (w : World) : World :=
  mkWorld (max_cache_entries_ w) (file_cache_ w) (cv_waiting w) (cv_woken w)
          (disk w) (open_fds w) (faults w) (stderr_ w ++ [line]) (trace w).

Definition add_event (c : Event) (w : World) : World :=
  mkWorld (max_cache_entries_ w) (file_cache_ w) (cv_waiting w) (cv_woken w)
          (disk w) (open_fds w) (faults w) (stderr_ w) (trace w ++ [c]).

(** *** A state monad over the world *)

Definition M (A : Type) : Type := World -> A * World.

Definition ret {A : Type} (a : A) : M A := fun w => (a, w).

Definition bind {A B : Type} (m : M A) (f : A -> M B) : M B :=
  fun w => let (a, w') := m w in f a w'.

Definition modify (f : World -> World) : M unit := fun w => (tt, f w).

Definition gets {A : Type} (f : World -> A) : M A := fun w => (f w, w).

Declare Scope cache_scope.
Delimit Scope cache_scope with cache.
Notation "x <- c1 ;; c2" := (bind c1 (fun x => c2))
  (at level 61, c1 at next level, right associativity) : cache_scope.
Notation "c1 ;; c2" := (bind c1 (fun _ => c2))
  (at level 61, right associativity) : cache_scope.
Open Scope cache_scope.

Definition exec {A : Type} (m : M A) (w : World) : World := snd (m w).
Definition eval {A : Type} (m : M A) (w : World) : A := fst (m w).

(* ===================================================================== *)
(** ** Storage system calls *)
(* ===================================================================== *)

Module Sys.

Fixpoint lookup {A : Type} (k : string) (l : list (string * A)) : option A :=
  match l with
  | [] => None
  | (k', v) :: l' => if String.eqb k k' then Some v else lookup k l'
  end.

Fixpoint store {A : Type} (k : string) (v : A) (l : list (string * A))
  : list (string * A) :=
  match l with
  | [] => [(k, v)]
  | (k', v') :: l' =>
      if String.eqb k k' then (k, v) :: l' else (k', v') :: store k v l'
  end.

Fixpoint fd_name (fd : Z) (fds : list (Z * string)) : option string :=
  match fds with
  | [] => None
  | (fd', n) :: fds' => if fd =? fd' then Some n else fd_name fd fds'
  end.

Fixpoint fd_remove (fd : Z) (fds : list (Z * string)) : list (Z * string) :=
  match fds with
  | [] => []
  | (fd', n) :: fds' =>
      if fd =? fd' then fds' else (fd', n) :: fd_remove fd fds'
  end.

(** The lowest descriptor not in use, counting up from [from]. *)
Fixpoint lowest_free (fuel : nat) (from : Z) (fds : list (Z * string)) : Z :=
  match fuel with
  | O => from
  | S fuel' =>
      match fd_name from fds with
      | None => from
      | Some _ => lowest_free fuel' (from + 1) fds
      end
  end.

(** [::open(name, O_RDWR | O_CREAT, 0777)]: a missing file is created
    empty. Returns the descriptor, or -1. *)
Definition open (name : string) : M Z := fun w =>
  if open_fails (faults w) name then
    (-1, add_event (SysOpen name (-1)) w)
  else
    let d := match lookup name (disk w) with
             | Some _ => disk w
             | None => store name [] (disk w)
             end in
    let fd := lowest_free (List.length (open_fds w)) 3 (open_fds w) in
    (fd, add_event (SysOpen name fd)
           (set_open_fds ((fd, name) :: open_fds w) (set_disk d w))).

(** [::lseek(fd, 0, SEEK_SET)]; the result is not used by the cache. *)
Definition lseek (fd : Z) : M unit := modify (add_event (SysLseek fd)).

(** [::read(fd, buf, FILE_SIZE)] at offset 0: the bytes of the file, at
    most [FILE_SIZE] of them, overwrite the start of [buf]. Returns the
    number of bytes read, or -1, and the buffer. *)
Definition read (fd : Z) (buf : list byte) : M (Z * list byte) := fun w =>
  match fd_name fd (open_fds w) with
  | None => ((-1, buf), add_event (SysRead fd (-1)) w)
  | Some name =>
      if read_fails (faults w) name then
        ((-1, buf), add_event (SysRead fd (-1)) w)
      else
        let data := match lookup name (disk w) with
                    | Some d => d
                    | None => []
                    end in
        let got := firstn (Z.to_nat FILE_SIZE) data in
        let n := Z.of_nat (List.length got) in
        ((n, got ++ skipn (List.length got) buf), add_event (SysRead fd n) w)
  end.

(** [::write(fd, buf, FILE_SIZE)] at offset 0. Returns [FILE_SIZE], or -1. *)
Definition write (fd : Z) (buf : list byte) : M Z := fun w =>
  match fd_name fd (open_fds w) with
  | None => (-1, add_event (SysWrite fd buf (-1)) w)
  | Some name =>
      if write_fails (faults w) name then
        (-1, add_event (SysWrite fd buf (-1)) w)
      else
        let old := match lookup name (disk w) with
                   | Some d => d
                   | None => []
                   end in
        let out := firstn (Z.to_nat FILE_SIZE) buf in
        (FILE_SIZE,
         add_event (SysWrite fd buf FILE_SIZE)
           (set_disk (store name (out ++ skipn (List.length out) old) (disk w)) w))
  end.

(** [::close(fd)] *)
Definition close (fd : Z) : M unit := fun w =>
  (tt, add_event (SysClose fd) (set_open_fds (fd_remove fd (open_fds w)) w)).

(** [fprintf(stderr, "%s\n", ...)] *)
Definition eprint (line : string) : M unit := modify (add_stderr line).

(** [strerror(errno)] *)
Definition strerror : M string := gets (fun w => strerror_errno (faults w)).

End Sys.

(* ===================================================================== *)
(** ** The cache: private helpers *)
(* ===================================================================== *)

(** What [err_str << ... << ...] builds. *)
Definition message (parts : list string) : string := String.concat "" parts.

(** [new char[n]()] and [memset(buf, c, n)]. *)
Definition new_char_array (n : Z) : list byte := repeat x00 (Z.to_nat n).

Definition memset (buf : list byte) (c : byte) (n : Z) : list byte :=
  repeat c (Z.to_nat n) ++ skipn (Z.to_nat n) buf.

(** The character ['0']. *)
Definition char_0 : byte := x30.

(** [CacheEntry::~CacheEntry] *)
Definition CacheEntry_dtor (ce : CacheEntry) : M unit :=
  if pin_count_ ce =? 0 then
    (if dirty_ ce then
       Sys.lseek (fd_ ce) ;;
       nbytes <- Sys.write (fd_ ce) (file_buf_ ce) ;;
       if nbytes <? 0 then
         err <- Sys.strerror ;;
         Sys.eprint (message ["Error writing file "; " : "; err])
       else ret tt
     else ret tt) ;;
    Sys.close (fd_ ce)
  else ret tt.

(** The flush in the body of the eviction loop (lines 78-89). *)
Definition evict_flush (name : string) (ce : CacheEntry) : M unit :=
  if dirty_ ce then
    Sys.lseek (fd_ ce) ;;
    nbytes <- Sys.write (fd_ ce) (file_buf_ ce) ;;
    if nbytes <? 0 then
      err <- Sys.strerror ;;
      Sys.eprint (message ["Error writing file "; name; " : "; err])
    else ret tt
  else ret tt.

(** The loop of [evict_cache_entries] from the iterator position
    [entries] on. It returns the entries that stay in the map from that
    position on, and the counter. [file_cache_.erase(fitr++)] destroys the
    entry, which runs [~CacheEntry]. The counter is an [int]; it counts
    erased entries, so it stays far below [INT_MAX]. *)
Fixpoint evict_loop (entries : StdMap.t)
         (cache_entries_evicted num_cache_entries : Z) : M (StdMap.t * Z) :=
  match entries with
  | [] => ret ([], cache_entries_evicted)
  | (name, ce) :: rest =>
      if pin_count_ ce =? 0 then
        evict_flush name ce ;;
        CacheEntry_dtor ce ;;
        let evicted := cache_entries_evicted + 1 in
        if evicted =? num_cache_entries then ret (rest, evicted)
        else evict_loop rest evicted num_cache_entries
      else
        r <- evict_loop rest cache_entries_evicted num_cache_entries ;;
        ret ((name, ce) :: fst r, snd r)
  end.

(** [FileCacheImpl::evict_cache_entries] *)
Definition evict_cache_entries (num_cache_entries : Z) : M Z :=
  entries <- gets file_cache_ ;;
  r <- evict_loop entries 0 num_cache_entries ;;
  modify (set_file_cache (fst r)) ;;
  ret (to_uint32 (snd r)).

(** [FileCacheImpl::add_cache_entry]. The temporaries built for
    [insert(std::make_pair(file_name, CacheEntry(buf, 1, fd)))] are
    destroyed at the end of the statement. *)
Definition add_cache_entry (file_name : string) : M unit :=
  fd <- Sys.open file_name ;;
  if fd <? 0 then
    err <- Sys.strerror ;;
    Sys.eprint (message ["Error opening file "; file_name; " : "; err])
  else
    let buf := memset (new_char_array FILE_SIZE) char_0 FILE_SIZE in
    Sys.lseek fd ;;
    r <- Sys.read fd buf ;;
    if fst r <? 0 then
      err <- Sys.strerror ;;
      Sys.eprint (message ["Error reading file "; file_name; " : "; err]) ;;
      Sys.close fd
    else
      let tmp := CacheEntry_ctor (snd r) 1 fd in
      modify (fun w => set_file_cache (StdMap.insert file_name tmp (file_cache_ w)) w) ;;
      CacheEntry_dtor tmp ;;
      CacheEntry_dtor tmp.

(** The loop of [fill_up_cache]. *)
Fixpoint fill_loop (files_not_pinned : StdSet.t) (empty_cache_entries : Z)
  : M StdSet.t :=
  match files_not_pinned with
  | [] => ret []
  | name :: rest =>
      if 0 <? empty_cache_entries then
        add_cache_entry name ;;
        match rest with
        | [] => ret []
        | _ => fill_loop rest (empty_cache_entries - 1)
        end
      else ret files_not_pinned
  end.

(** [FileCacheImpl::fill_up_cache]; the set is passed by reference, here it
    is returned. *)
Definition fill_up_cache (files_not_pinned : StdSet.t) : M StdSet.t :=
  cap <- gets max_cache_entries_ ;;
  m <- gets file_cache_ ;;
  fill_loop files_not_pinned (int_minus_size cap (StdMap.size m)).

(** [FileCacheImpl::cache_entries_evictable] *)
Definition cache_entries_evictable : M bool :=
  gets (fun w => existsb (fun kv => pin_count_ (snd kv) =? 0) (file_cache_ w)).

(** [cv_.wait(lock)]: the call is parked with its pending set. *)
Definition cv_wait (files_not_pinned : StdSet.t) : M unit :=
  modify (fun w => set_cv (cv_waiting w ++ [files_not_pinned]) (cv_woken w) w).

(** [cv_.notify_all()] *)
Definition cv_notify_all : M unit :=
  modify (fun w => add_event CvNotifyAll
                     (set_cv [] (cv_woken w ++ cv_waiting w) w)).

(* ===================================================================== *)
(** ** The cache: public operations *)
(* ===================================================================== *)

(** A member of the entry [find] returned is assigned. *)
Definition update_entry (name : string) (f : CacheEntry -> CacheEntry) : M unit :=
  modify (fun w => set_file_cache (StdMap.update name f (file_cache_ w)) w).

(** [FileCacheImpl::FileData]; [None] is [nullptr], otherwise the bytes
    the returned pointer designates. *)
Definition FileData (file_name : string) : M (option (list byte)) :=
  m <- gets file_cache_ ;;
  match StdMap.find file_name m with
  | None => ret None
  | Some ce => ret (Some (file_buf_ ce))
  end.

(** [FileCacheImpl::MutableFileData] *)
Definition MutableFileData (file_name : string) : M (option (list byte)) :=
  m <- gets file_cache_ ;;
  match StdMap.find file_name m with
  | None => ret None
  | Some ce =>
      update_entry file_name (set_dirty true) ;;
      ret (Some (file_buf_ ce))
  end.

(** How a [PinFiles] call leaves the mutex: it returns, it throws, it
    waits on [cv_] with names still pending, or [assert] aborts the
    program. [PinOutOfFuel] belongs to the model only: [pin_loop] below is
    given fuel, and [pin_loop_total] shows that it never runs out. *)
Inductive PinResult :=
| PinReturn
| PinThrow (what : string)
| PinWait (files_not_pinned : StdSet.t)
| PinAssertFailed
| PinOutOfFuel.

(** Lines 176-183: pin what is resident, gather the rest. *)
Fixpoint pin_resident (file_vec : list string) (files_not_pinned : StdSet.t)
  : M StdSet.t :=
  match file_vec with
  | [] => ret files_not_pinned
  | file_name :: rest =>
      m <- gets file_cache_ ;;
      match StdMap.find file_name m with
      | Some _ =>
          update_entry file_name pin_incr ;;
          pin_resident rest files_not_pinned
      | None => pin_resident rest (StdSet.insert file_name files_not_pinned)
      end
  end.

(** Lines 198-207: after a wait, pin what became resident meanwhile. *)
Fixpoint claim_resident (files_not_pinned : StdSet.t) : M StdSet.t :=
  match files_not_pinned with
  | [] => ret []
  | name :: rest =>
      m <- gets file_cache_ ;;
      match StdMap.find name m with
      | Some _ =>
          update_entry name pin_incr ;;
          claim_resident rest
      | None =>
          r <- claim_resident rest ;;
          ret (name :: r)
      end
  end.

(** The loop at line 193, entered with the mutex held. When no entry is
    evictable the call waits on [cv_]; on wake-up it is back at the test
    of the inner [while], which is where [pin_loop] starts. *)
Fixpoint pin_loop (fuel : nat) (files_not_pinned : StdSet.t) : M PinResult :=
  match fuel with
  | O => ret PinOutOfFuel
  | S fuel' =>
      match files_not_pinned with
      | [] => ret PinReturn
      | _ =>
          evictable <- cache_entries_evictable ;;
          if negb evictable then
            cv_wait files_not_pinned ;;
            ret (PinWait files_not_pinned)
          else
            fnp <- claim_resident files_not_pinned ;;
            match fnp with
            | [] => ret PinReturn
            | _ =>
                cache_entries_evicted <-
                  evict_cache_entries (to_int (StdSet.size fnp)) ;;
                if cache_entries_evicted <=? StdSet.size fnp then
                  fnp' <- fill_up_cache fnp ;;
                  pin_loop fuel' fnp'
                else ret PinAssertFailed
            end
      end
  end.

(** Every turn of the loop erases an entry or resolves a name. *)
Definition pin_fuel (files_not_pinned : StdSet.t) (w : World) : nat :=
  S (List.length files_not_pinned + List.length (file_cache_ w)).

Definition pin_loop_run (files_not_pinned : StdSet.t) : M PinResult :=
  fun w => pin_loop (pin_fuel files_not_pinned w) files_not_pinned w.

(** [FileCacheImpl::PinFiles], up to its return, its throw, or its first
    [cv_.wait]. *)
Definition PinFiles (file_vec : list string) : M PinResult :=
  cap <- gets max_cache_entries_ ;;
  if size_gt_int (Z.of_nat (List.length file_vec)) cap then
    ret (PinThrow "Number of files being pinned exceed cache size")
  else
    fnp <- pin_resident file_vec [] ;;
    fnp' <- fill_up_cache fnp ;;
    if StdSet.empty fnp' then ret PinReturn
    else pin_loop_run fnp'.

(** The loop of [UnpinFiles]. *)
Fixpoint unpin_loop (file_vec : list string) (cache_entry_evictable : bool)
  : M bool :=
  match file_vec with
  | [] => ret cache_entry_evictable
  | file_name :: rest =>
      m <- gets file_cache_ ;;
      match StdMap.find file_name m with
      | Some ce =>
          update_entry file_name pin_decr ;;
          unpin_loop rest (if pin_count_ (pin_decr ce) =? 0 then true
                           else cache_entry_evictable)
      | None => unpin_loop rest cache_entry_evictable
      end
  end.

(** [FileCacheImpl::UnpinFiles] *)
Definition UnpinFiles (file_vec : list string) : M unit :=
  cache_entry_evictable <- unpin_loop file_vec false ;;
  if cache_entry_evictable then cv_notify_all else ret tt.

(** [~FileCacheImpl]: the map is destroyed, and with it every entry. The
    tree of [std::map] frees the right subtree of a node, then the node,
    then its left subtree: the entries are destroyed from the last key to
    the first. *)
Fixpoint destroy_entries (entries : StdMap.t) : M unit :=
  match entries with
  | [] => ret tt
  | (_, ce) :: rest => destroy_entries rest ;; CacheEntry_dtor ce
  end.

Definition FileCacheImpl_dtor : M unit :=
  entries <- gets file_cache_ ;;
  destroy_entries entries ;;
  modify (set_file_cache []).

(** [FileCacheImpl(max_cache_entries)] over a given storage. *)
Definition FileCacheImpl_ctor (max_cache_entries : Z)
           (d : list (string * list byte)) (f : Faults) : World :=
  mkWorld max_cache_entries [] [] [] d [] f [] [].

(* ===================================================================== *)
(** ** Threads: the operations as they interleave *)
(* ===================================================================== *)

(** Between two operations the mutex is free. A client thread calls one
    of the four public functions; a [PinFiles] call parked on [cv_] is
    released by [notify_all] or spuriously, and then goes on from where it
    waited; a client holding a pointer from [MutableFileData] stores bytes
    through it; the storage may start or stop failing. *)
Inductive Op :=
| CallPinFiles (file_vec : list string)
| CallUnpinFiles (file_vec : list string)
| CallFileData (file_name : string)
| CallMutableFileData (file_name : string)
| SpuriousWake (i : nat)
| Resume (i : nat)
| StoreThroughPointer (file_name : string) (data : list byte)
| SetFaults (f : Faults).

(** The list without its [i]-th element. *)
Fixpoint remove_nth {A : Type} (i : nat) (l : list A) : list A :=
  match l, i with
  | [], _ => []
  | _ :: l', O => l'
  | x :: l', S i' => x :: remove_nth i' l'
  end.

(** [cv_.wait] may return without [notify_all]. *)
Definition spurious_wake (i : nat) : M unit := fun w =>
  match nth_error (cv_waiting w) i with
  | None => (tt, w)
  | Some fnp =>
      (tt, set_cv (remove_nth i (cv_waiting w)) (cv_woken w ++ [fnp]) w)
  end.

(** A released call takes the mutex again and goes on with its loop. *)
Definition resume (i : nat) : M PinResult := fun w =>
  match nth_error (cv_woken w) i with
  | None => (PinReturn, w)
  | Some fnp =>
      pin_loop_run fnp (set_cv (cv_waiting w) (remove_nth i (cv_woken w)) w)
  end.

(** [data] written at the start of a buffer, as [strncpy] in main.cc. *)
Definition store_bytes (data buf : list byte) : list byte :=
  firstn (List.length buf) (data ++ skipn (List.length data) buf).

Definition step (o : Op) : M unit :=
  match o with
  | CallPinFiles file_vec => PinFiles file_vec ;; ret tt
  | CallUnpinFiles file_vec => UnpinFiles file_vec
  | CallFileData file_name => FileData file_name ;; ret tt
  | CallMutableFileData file_name => MutableFileData file_name ;; ret tt
  | SpuriousWake i => spurious_wake i
  | Resume i => resume i ;; ret tt
  | StoreThroughPointer file_name data =>
      update_entry file_name
        (fun ce => mkCacheEntry (store_bytes data (file_buf_ ce))
                                (pin_count_ ce) (dirty_ ce) (fd_ ce))
  | SetFaults f => modify (set_faults f)
  end.

Fixpoint run (ops : list Op) (w : World) : World :=
  match ops with
  | [] => w
  | o :: ops' => run ops' (exec (step o) w)
  end.

(** No storage call fails. *)
Definition no_faults : Faults :=
  mkFaults (fun _ => false) (fun _ => false) (fun _ => false) "".

(** The names in the table, and their pin counts. *)
Definition keys (m : StdMap.t) : list string := map fst m.

Definition pins (m : StdMap.t) : list (string * Z) :=
  map (fun kv => (fst kv, pin_count_ (snd kv))) m.

(* ===================================================================== *)
(** ** Vocabulary of the statements *)
(* ===================================================================== *)

(** A world holding a given table, over an empty storage that never
    fails. *)
Definition world_of (max_cache_entries : Z) (table : StdMap.t) : World :=
  mkWorld max_cache_entries table [] [] [] [] no_faults [] [].

(** An entry with a short buffer, for examples. *)
Definition entry (pin_count : Z) (dirty : bool) (fd : Z) : CacheEntry :=
  mkCacheEntry (repeat char_0 4) pin_count dirty fd.

(** The capacity is an [int] and is not negative. *)
Definition cap_ok (w : World) : Prop := 0 <= max_cache_entries_ w <= INT_MAX.

(** [file_cache_.size() <= max_cache_entries_] *)
Definition within_capacity (w : World) : Prop :=
  StdMap.size (file_cache_ w) <= max_cache_entries_ w.

(** The outcomes of a [PinFiles] call that leave the object usable. *)
Definition pin_outcome_ok (files_not_pinned : StdSet.t) (r : PinResult) : Prop :=
  r = PinReturn \/
  exists fnp, r = PinWait fnp /\ fnp <> [] /\
              StdSet.size fnp <= StdSet.size files_not_pinned.

(** The descriptor [open] hands out when it succeeds. *)
Definition next_fd (w : World) : Z :=
  Sys.lowest_free (List.length (open_fds w)) 3 (open_fds w).

(** The bytes of a file on storage; a missing file has none. *)
Definition file_bytes (name : string) (w : World) : list byte :=
  match Sys.lookup name (disk w) with
  | Some d => d
  | None => []
  end.

(** The buffer [add_cache_entry] builds for a file with given contents:
    what [read] delivers, then what [memset] had put there. *)
Definition loaded_buffer (data : list byte) : list byte :=
  let got := firstn (Z.to_nat FILE_SIZE) data in
  got ++ skipn (List.length got)
               (memset (new_char_array FILE_SIZE) char_0 FILE_SIZE).

(** Entries the eviction loop erases, and entries it steps over. *)
Definition unpinned (kv : string * CacheEntry) : bool := pin_count_ (snd kv) =? 0.

Definition pinned (kv : string * CacheEntry) : bool := negb (unpinned kv).

Definition count_unpinned (entries : StdMap.t) : Z :=
  Z.of_nat (List.length (filter unpinned entries)).

(** What the eviction path can do to the world besides the table: the
    faults stay, descriptors are only closed, output is only appended. *)
Definition storage_moves_on (w w' : World) : Prop :=
  faults w' = faults w /\
  incl (open_fds w') (open_fds w) /\
  (exists l, stderr_ w' = stderr_ w ++ l) /\
  (exists t, trace w' = trace w ++ t).

(** The storage calls, the log and the destructor use the cache object
    only through the entry they are given: the table, the capacity and the
    waiters on [cv_] stay as they are. *)
Definition same_cache (w w' : World) : Prop :=
  file_cache_ w' = file_cache_ w /\
  max_cache_entries_ w' = max_cache_entries_ w /\
  cv_waiting w' = cv_waiting w /\
  cv_woken w' = cv_woken w /\
  faults w' = faults w.

(** Every write fails. *)
Definition writes_fail : Faults :=
  mkFaults (fun _ => false) (fun _ => false) (fun _ => true) "Input/output error".

(** ["a"] is pinned, ["b"] is dirty and unpinned. *)
Definition world_unflushable : World :=
  mkWorld 2 [("a", entry 1 true 3); ("b", entry 0 true 4)] [] []
          [("a", []); ("b", [])] [(4, "b"); (3, "a")] writes_fail [] [].

(** The same table over a storage that works. *)
Definition world_dirty : World :=
  mkWorld 2 [("a", entry 1 true 3); ("b", entry 0 true 4)] [] []
          [("a", []); ("b", [])] [(4, "b"); (3, "a")] no_faults [] [].

(** Some decrement of the batch brings a pin count to zero: a position in
    [file_vec] holds a resident name whose count, decremented once for
    every earlier occurrence and once for this one, is zero. *)
Definition reaches_zero (file_vec : list string) (table : StdMap.t) : Prop :=
  exists l1 name l2 ce,
    file_vec = l1 ++ name :: l2 /\
    StdMap.find name table = Some ce /\
    pin_count_ (Nat.iter (S (count_occ string_dec l1 name)) pin_decr ce) = 0.

(** [add_cache_entry] for each name of a list, in order. *)
Fixpoint create_each (names : list string) : M unit :=
  match names with
  | [] => ret tt
  | name :: rest => add_cache_entry name ;; create_each rest
  end.

(** The number of names the fill loop attempts. *)
Definition fill_attempts (files_not_pinned : StdSet.t) (budget : Z) : nat :=
  Z.to_nat (Z.min (StdSet.size files_not_pinned) budget).

(** Two PinFiles calls are parked on [cv_]. *)
Definition world_two_parked : World :=
  mkWorld 3 [("a", entry 2 false 3); ("b", entry 1 true 4)]
          [["c"]; ["d"; "e"]] [] [] [(4, "b"); (3, "a")] no_faults [] [].

(** The file ["a"] cannot be opened. *)
Definition a_unopenable : Faults :=
  mkFaults (String.eqb "a") (fun _ => false) (fun _ => false) "Permission denied".

(** One entry resident and pinned, one slot free. *)
Definition world_one_free_slot : World :=
  mkWorld 2 [("c", entry 1 false 3)] [] [] [("c", [])] [(3, "c")]
          a_unopenable [] [].

(** What an entry holds besides its pin count. *)
Definition payload (m : StdMap.t) : list (string * list byte * bool * Z) :=
  map (fun kv => (fst kv, file_buf_ (snd kv), dirty_ (snd kv), fd_ (snd kv))) m.

(** The name is resident, pinned once and clean: an entry as
    [add_cache_entry] makes it. *)
Definition freshly_pinned (m : StdMap.t) (name : string) : Prop :=
  exists ce, StdMap.find name m = Some ce /\ pin_count_ ce = 1 /\ dirty_ ce = false.

(** [open] and [read] work for these names. *)
Definition storage_works (names : list string) (w : World) : Prop :=
  forall name, In name names ->
    open_fails (faults w) name = false /\ read_fails (faults w) name = false.

(** The name is resident, pinned once and clean, and its buffer holds
    the given bytes. *)
Definition loaded_entry (m : StdMap.t) (name : string) (buf : list byte) : Prop :=
  exists ce, StdMap.find name m = Some ce /\ pin_count_ ce = 1 /\
             dirty_ ce = false /\ file_buf_ ce = buf.

(** The first [FILE_SIZE] bytes of a file, a shorter file being filled
    up with the character ['0']. *)
Definition padded (data : list byte) : list byte :=
  let got := firstn (Z.to_nat FILE_SIZE) data in
  got ++ repeat char_0 (Z.to_nat FILE_SIZE - List.length got).

(** [open] or [read] fails for the name. *)
Definition load_fails (name : string) (w : World) : bool :=
  open_fails (faults w) name || read_fails (faults w) name.

(** The line [add_cache_entry] prints when it fails. *)
Definition load_error (name : string) (w : World) : string :=
  if open_fails (faults w) name
  then message ["Error opening file "; name; " : "; strerror_errno (faults w)]
  else message ["Error reading file "; name; " : "; strerror_errno (faults w)].

(** One entry resident, three slots free, a short file on storage. *)
Definition world_free_slots : World :=
  mkWorld 4 [("c", entry 1 false 3)] [] [] [("c", []); ("f", [x61; x62])]
          [(3, "c")] no_faults [] [].

(** A call has been released with ["a"] and ["b"] pending; both are
    resident by now, and ["b"] is unpinned. *)
Definition world_released : World :=
  mkWorld 2 [("a", entry 1 true 3); ("b", entry 0 true 4)] [] [["a"; "b"]]
          [("a", []); ("b", [])] [(4, "b"); (3, "a")] no_faults [] [].

(** The same, with every entry pinned. *)
Definition world_released_pinned : World :=
  mkWorld 2 [("a", entry 1 true 3); ("b", entry 2 true 4)] [] [["a"; "b"]]
          [("a", []); ("b", [])] [(4, "b"); (3, "a")] no_faults [] [].

(** The smallest [int]. *)
Definition INT_MIN : Z := -2147483648.

(** A full buffer of the letter [a]. *)
Definition buffer_of_a : list byte := repeat x61 (Z.to_nat FILE_SIZE).

(** ["b"] was written to and unpinned; its file is still empty. *)
Definition world_written : World :=
  mkWorld 2 [("a", entry 1 false 3); ("b", mkCacheEntry buffer_of_a 0 true 4)]
          [] [] [("a", []); ("b", [])] [(4, "b"); (3, "a")] no_faults [] [].

(** The keys of the table go up strictly, as an iteration over a
    [std::map] sees them. *)
Definition key_lt (a b : string * CacheEntry) : Prop :=
  String.compare (fst a) (fst b) = Lt.

Definition sorted_table (m : StdMap.t) : Prop := StronglySorted key_lt m.

(** The writes among the events. *)
Definition is_write (e : Event) : bool :=
  match e with
  | SysWrite _ _ _ => true
  | _ => false
  end.

(** The largest [uint32_t]. *)
Definition UINT32_MAX : Z := 4294967295.

(* ===================================================================== *)
(** ** Reasoning about monadic code *)
(* ===================================================================== *)

Lemma exec_bind {A B : Type} (m : M A) (f : A -> M B) (w : World) :
  exec (bind m f) w = exec (f (eval m w)) (exec m w).
Proof. unfold exec, eval, bind. destruct (m w); reflexivity. Qed.

Lemma eval_bind {A B : Type} (m : M A) (f : A -> M B) (w : World) :
  eval (bind m f) w = eval (f (eval m w)) (exec m w).
Proof. unfold exec, eval, bind. destruct (m w); reflexivity. Qed.

Lemma exec_ret {A : Type} (a : A) (w : World) : exec (ret a) w = w.
Proof. reflexivity. Qed.

Lemma eval_ret {A : Type} (a : A) (w : World) : eval (ret a) w = a.
Proof. reflexivity. Qed.

Lemma exec_gets {A : Type} (f : World -> A) (w : World) : exec (gets f) w = w.
Proof. reflexivity. Qed.

Lemma eval_gets {A : Type} (f : World -> A) (w : World) : eval (gets f) w = f w.
Proof. reflexivity. Qed.

Lemma exec_modify (f : World -> World) (w : World) : exec (modify f) w = f w.
Proof. reflexivity. Qed.

Create Rewrite HintDb monad.
#[local] Hint Rewrite @exec_bind @eval_bind @exec_ret @eval_ret @exec_gets
  @eval_gets exec_modify : monad.

Lemma run_pair {A : Type} (m : M A) (w : World) : m w = (eval m w, exec m w).
Proof. unfold exec, eval. destruct (m w); reflexivity. Qed.

(** Split the next monadic step of the goal into its value and world. *)
Ltac mstep :=
  match goal with
  | |- context [let (_, _) := ?m ?w in _] =>
      let a := fresh "a" in
      let w' := fresh "w" in
      let E := fresh "E" in
      destruct (m w) as [a w'] eqn:E
  end.

Lemma same_cache_refl w : same_cache w w.
Proof. repeat split. Qed.

Lemma same_cache_trans w1 w2 w3 :
  same_cache w1 w2 -> same_cache w2 w3 -> same_cache w1 w3.
Proof.
  unfold same_cache. intros (A1 & A2 & A3 & A4 & A5) (B1 & B2 & B3 & B4 & B5).
  repeat split; congruence.
Qed.

Create HintDb cache_frame.
#[local] Hint Resolve same_cache_refl : cache_frame.

Lemma open_same_cache name w : same_cache w (exec (Sys.open name) w).
Proof.
  unfold exec, Sys.open. destruct (open_fails (faults w) name); repeat split.
Qed.

Lemma lseek_same_cache fd w : same_cache w (exec (Sys.lseek fd) w).
Proof. repeat split. Qed.

Lemma read_same_cache fd buf w : same_cache w (exec (Sys.read fd buf) w).
Proof.
  unfold exec, Sys.read. destruct (Sys.fd_name fd (open_fds w)); [|repeat split].
  destruct (read_fails (faults w) s); repeat split.
Qed.

Lemma write_same_cache fd buf w : same_cache w (exec (Sys.write fd buf) w).
Proof.
  unfold exec, Sys.write. destruct (Sys.fd_name fd (open_fds w)); [|repeat split].
  destruct (write_fails (faults w) s); repeat split.
Qed.

Lemma close_same_cache fd w : same_cache w (exec (Sys.close fd) w).
Proof. repeat split. Qed.

Lemma eprint_same_cache line w : same_cache w (exec (Sys.eprint line) w).
Proof. repeat split. Qed.

Lemma strerror_same_cache w : same_cache w (exec Sys.strerror w).
Proof. repeat split. Qed.

#[local] Hint Resolve open_same_cache lseek_same_cache read_same_cache
  write_same_cache close_same_cache eprint_same_cache strerror_same_cache
  : cache_frame.

Lemma bind_same_cache {A B : Type} (m : M A) (f : A -> M B) w :
  same_cache w (exec m w) ->
  (forall a w1, same_cache w1 (exec (f a) w1)) ->
  same_cache w (exec (bind m f) w).
Proof.
  intros H1 H2. rewrite exec_bind. eapply same_cache_trans; [exact H1|apply H2].
Qed.

(** Chains of calls that each leave the cache object alone. *)
Ltac frame :=
  repeat first
    [ apply bind_same_cache; [|intros]
    | match goal with |- same_cache _ (exec (if ?b then _ else _) _) => destruct b end
    | solve [auto with cache_frame] ].

Lemma evict_flush_same_cache name ce w :
  same_cache w (exec (evict_flush name ce) w).
Proof. unfold evict_flush. frame. Qed.

Lemma CacheEntry_dtor_same_cache ce w :
  same_cache w (exec (CacheEntry_dtor ce) w).
Proof. unfold CacheEntry_dtor. frame. Qed.

#[local] Hint Resolve evict_flush_same_cache CacheEntry_dtor_same_cache
  : cache_frame.

(* ===================================================================== *)
(** ** Integer conversions in range *)
(* ===================================================================== *)

Lemma int_minus_size_small (a s : Z) :
  0 <= s <= a -> a <= INT_MAX -> int_minus_size a s = a - s.
Proof.
  unfold int_minus_size, to_int, to_size_t, INT_MAX. intros H1 H2.
  rewrite (Z.mod_small a) by lia.
  rewrite (Z.mod_small (a - s)) by lia.
  rewrite Z.mod_small by lia. lia.
Qed.

Lemma to_int_small (x : Z) : 0 <= x <= INT_MAX -> to_int x = x.
Proof.
  unfold to_int, INT_MAX. intros H. rewrite Z.mod_small by lia. lia.
Qed.

Lemma to_uint32_le (x : Z) : 0 <= x -> 0 <= to_uint32 x <= x.
Proof.
  unfold to_uint32. intros H.
  pose proof (Z.mod_le x (2 ^ 32) H ltac:(lia)).
  pose proof (Z.mod_pos_bound x (2 ^ 32) ltac:(lia)). lia.
Qed.

(* ===================================================================== *)
(** ** Eviction *)
(* ===================================================================== *)

Section Eviction.

Variable num_cache_entries : Z.

(** What the loop keeps and what it counts, from any iterator position. *)
Lemma evict_loop_spec (entries : StdMap.t) :
  forall (evicted : Z) (w : World),
    let r := eval (evict_loop entries evicted num_cache_entries) w in
    (forall kv, In kv entries -> pin_count_ (snd kv) <> 0 -> In kv (fst r)) /\
    (forall kv, In kv (fst r) -> In kv entries) /\
    StdMap.size (fst r) + (snd r - evicted) = StdMap.size entries /\
    evicted <= snd r /\
    (evicted < num_cache_entries -> snd r <= num_cache_entries).
Proof.
  unfold StdMap.size.
  induction entries as [|[name ce] rest IH]; intros evicted w; cbn zeta.
  - cbn. repeat split; auto; lia.
  - cbn [evict_loop]. destruct (pin_count_ ce =? 0) eqn:Hpin.
    + rewrite !eval_bind.
      set (w2 := exec (CacheEntry_dtor ce) (exec (evict_flush name ce) w)).
      destruct (evicted + 1 =? num_cache_entries) eqn:Hn.
      * cbn [eval ret fst snd List.length].
        apply Z.eqb_eq in Hn, Hpin. repeat split.
        -- intros kv [<-|Hin] Hp; [cbn in Hp; congruence|exact Hin].
        -- intros kv Hin; right; exact Hin.
        -- rewrite Nat2Z.inj_succ; lia.
        -- lia.
        -- lia.
      * specialize (IH (evicted + 1) w2). cbn zeta in IH.
        destruct IH as (K1 & K2 & K3 & K4 & K5).
        apply Z.eqb_neq in Hn. apply Z.eqb_eq in Hpin. repeat split.
        -- intros kv [<-|Hin] Hp; [cbn in Hp; congruence|auto].
        -- intros kv Hin; right; auto.
        -- cbn [List.length]. rewrite Nat2Z.inj_succ; lia.
        -- lia.
        -- intros; apply K5; lia.
    + rewrite eval_bind. cbn [eval ret fst snd].
      specialize (IH evicted w). cbn zeta in IH.
      destruct IH as (K1 & K2 & K3 & K4 & K5).
      repeat split.
      * intros kv [<-|Hin] Hp; [left; reflexivity|right; auto].
      * intros kv [<-|Hin]; [left; reflexivity|right; auto].
      * cbn [List.length]. rewrite !Nat2Z.inj_succ; lia.
      * lia.
      * exact K5.
Qed.

Lemma evict_loop_same_cache (entries : StdMap.t) :
  forall (evicted : Z) (w : World),
    same_cache w (exec (evict_loop entries evicted num_cache_entries) w).
Proof.
  induction entries as [|[name ce] rest IH]; intros evicted w.
  - apply same_cache_refl.
  - cbn [evict_loop]. destruct (pin_count_ ce =? 0).
    + apply bind_same_cache; [auto with cache_frame|intros].
      apply bind_same_cache; [auto with cache_frame|intros].
      destruct (evicted + 1 =? num_cache_entries);
        [apply same_cache_refl|apply IH].
    + apply bind_same_cache; [apply IH|intros; apply same_cache_refl].
Qed.

(** The table after [evict_cache_entries] is what the loop kept. *)
Lemma evict_cache_entries_table (w : World) :
  file_cache_ (exec (evict_cache_entries num_cache_entries) w) =
  fst (eval (evict_loop (file_cache_ w) 0 num_cache_entries) w).
Proof.
  unfold evict_cache_entries. rewrite !exec_bind. reflexivity.
Qed.

Lemma evict_cache_entries_result (w : World) :
  eval (evict_cache_entries num_cache_entries) w =
  to_uint32 (snd (eval (evict_loop (file_cache_ w) 0 num_cache_entries) w)).
Proof.
  unfold evict_cache_entries. rewrite !eval_bind. reflexivity.
Qed.

End Eviction.

(** What PinFiles asks of [evict_cache_entries] at line 210: the size of
    its pending set, which is not empty there. *)
Lemma eviction_request_positive (files_not_pinned : StdSet.t) :
  files_not_pinned <> [] ->
  StdSet.size files_not_pinned <= INT_MAX ->
  1 <= to_int (StdSet.size files_not_pinned).
Proof.
  intros Hne Hs. unfold StdSet.size in *.
  rewrite to_int_small by lia.
  destruct files_not_pinned; [congruence|cbn [List.length]; lia].
Qed.

(** C1. An eviction step never removes a pinned entry. For every world,
    and every request [num_cache_entries >= 1] (PinFiles asks for the size
    of its non-empty pending set): each entry with [pin_count_ > 0] is
    still in the table afterwards, unchanged; an entry that left the table
    had [pin_count_ = 0]; nothing is added; and the number of entries
    removed, as well as the value returned, is at most the number
    requested. *)
Theorem evict_cache_entries_spares_pinned :
  forall (w : World) (num_cache_entries : Z),
    1 <= num_cache_entries ->
    let w' := exec (evict_cache_entries num_cache_entries) w in
    (forall name ce, In (name, ce) (file_cache_ w) -> 0 < pin_count_ ce ->
                     In (name, ce) (file_cache_ w')) /\
    (forall name ce, In (name, ce) (file_cache_ w) ->
                     ~ In (name, ce) (file_cache_ w') -> pin_count_ ce = 0) /\
    (forall kv, In kv (file_cache_ w') -> In kv (file_cache_ w)) /\
    0 <= StdMap.size (file_cache_ w) - StdMap.size (file_cache_ w')
      <= num_cache_entries /\
    eval (evict_cache_entries num_cache_entries) w <= num_cache_entries.
Proof.
  intros w n Hn w'. subst w'.
  rewrite evict_cache_entries_table, evict_cache_entries_result.
  destruct (evict_loop_spec n (file_cache_ w) 0 w) as (K1 & K2 & K3 & K4 & K5).
  assert (K6 := K5 ltac:(lia)).
  split; [|split; [|split; [|split]]].
  - intros name ce Hin Hp. apply (K1 (name, ce) Hin). cbn. lia.
  - intros name ce Hin Hout.
    destruct (Z.eq_dec (pin_count_ ce) 0) as [E|E]; [exact E|].
    exfalso. apply Hout. exact (K1 (name, ce) Hin E).
  - exact K2.
  - lia.
  - unfold to_uint32.
    pose proof (Z.mod_le _ (2 ^ 32) K4 ltac:(lia)). lia.
Qed.

Lemma evict_cache_entries_spares_pinned_witness :
  let w := world_of 3 [("a", entry 1 true 3); ("b", entry 0 true 4);
                       ("c", entry 0 false 5)] in
  let w' := exec (evict_cache_entries 1) w in
  (forall name ce, In (name, ce) (file_cache_ w) -> 0 < pin_count_ ce ->
                   In (name, ce) (file_cache_ w')) /\
  (forall name ce, In (name, ce) (file_cache_ w) ->
                   ~ In (name, ce) (file_cache_ w') -> pin_count_ ce = 0) /\
  (forall kv, In kv (file_cache_ w') -> In kv (file_cache_ w)) /\
  0 <= StdMap.size (file_cache_ w) - StdMap.size (file_cache_ w') <= 1 /\
  eval (evict_cache_entries 1) w <= 1.
Proof.
  intros w.
  apply (evict_cache_entries_spares_pinned w (num_cache_entries := 1)). lia.
Defined.

(** The bound on the number of entries removed rests on the request being
    positive: the loop stops when its counter equals the request, which a
    request of zero never lets happen. *)
Example evict_request_zero :
  keys (file_cache_ (exec (evict_cache_entries 0)
                          (world_of 3 [("a", entry 1 true 3); ("b", entry 0 true 4);
                                       ("c", entry 0 false 5)])))
  = ["a"].
Proof. reflexivity. Qed.

(** The same step at work: with one entry requested, the first unpinned
    entry goes and the pinned one stays. *)
Example evict_one_of_three :
  keys (file_cache_ (exec (evict_cache_entries 1)
                          (world_of 3 [("a", entry 1 true 3); ("b", entry 0 true 4);
                                       ("c", entry 0 false 5)])))
  = ["a"; "c"].
Proof. reflexivity. Qed.

(* ===================================================================== *)
(** ** Capacity *)
(* ===================================================================== *)

Lemma update_length k f (m : StdMap.t) :
  List.length (StdMap.update k f m) = List.length m.
Proof.
  induction m as [|[k' v] m IH]; cbn; [reflexivity|].
  destruct (String.eqb k k'); cbn; congruence.
Qed.

Lemma insert_length k v (m : StdMap.t) :
  (List.length m <= List.length (StdMap.insert k v m) <= S (List.length m))%nat.
Proof.
  induction m as [|[k' v'] m IH]; cbn; [lia|].
  destruct (String.compare k k'); cbn; lia.
Qed.

Lemma update_size k f (m : StdMap.t) :
  StdMap.size (StdMap.update k f m) = StdMap.size m.
Proof. unfold StdMap.size. now rewrite update_length. Qed.

Lemma insert_size k v (m : StdMap.t) :
  StdMap.size m <= StdMap.size (StdMap.insert k v m) <= StdMap.size m + 1.
Proof. unfold StdMap.size. pose proof (insert_length k v m). lia. Qed.

(** What [add_cache_entry] does to the cache object: nothing, or one
    [insert] of an entry pinned once and clean. *)
Lemma add_cache_entry_table (file_name : string) (w : World) :
  let w' := exec (add_cache_entry file_name) w in
  max_cache_entries_ w' = max_cache_entries_ w /\
  cv_waiting w' = cv_waiting w /\ cv_woken w' = cv_woken w /\
  faults w' = faults w /\
  (file_cache_ w' = file_cache_ w \/
   exists buf fd,
     file_cache_ w' =
     StdMap.insert file_name (CacheEntry_ctor buf 1 fd) (file_cache_ w)).
Proof.
  cbn zeta. unfold add_cache_entry. rewrite exec_bind.
  pose proof (open_same_cache file_name w) as H1.
  set (w1 := exec (Sys.open file_name) w) in *.
  set (fd := eval (Sys.open file_name) w).
  destruct (fd <? 0).
  - assert (H2 : same_cache w1
                   (exec (err <- Sys.strerror ;;
                          Sys.eprint (message ["Error opening file "; file_name;
                                               " : "; err])) w1)) by frame.
    destruct (same_cache_trans H1 H2) as (A & B & C & D & E).
    repeat split; auto.
  - cbn zeta. rewrite exec_bind.
    set (buf := memset (new_char_array FILE_SIZE) char_0 FILE_SIZE).
    rewrite exec_bind.
    pose proof (read_same_cache fd buf (exec (Sys.lseek fd) w1)) as H3.
    set (w3 := exec (Sys.read fd buf) (exec (Sys.lseek fd) w1)) in *.
    set (r := eval (Sys.read fd buf) (exec (Sys.lseek fd) w1)).
    assert (H13 : same_cache w w3).
    { eapply same_cache_trans; [exact H1|].
      eapply same_cache_trans; [apply lseek_same_cache|exact H3]. }
    destruct (fst r <? 0).
    + assert (H4 : same_cache w3
                     (exec (err <- Sys.strerror ;;
                            Sys.eprint (message ["Error reading file "; file_name;
                                                 " : "; err]) ;;
                            Sys.close fd) w3)) by frame.
      destruct (same_cache_trans H13 H4) as (A & B & C & D & E).
      repeat split; auto.
    + destruct H13 as (A & B & C & D & E).
      cbn. repeat split; auto.
      right. exists (snd r), fd. rewrite A. reflexivity.
Qed.

Lemma add_cache_entry_size (file_name : string) (w : World) :
  let w' := exec (add_cache_entry file_name) w in
  max_cache_entries_ w' = max_cache_entries_ w /\
  StdMap.size (file_cache_ w) <= StdMap.size (file_cache_ w')
    <= StdMap.size (file_cache_ w) + 1.
Proof.
  destruct (add_cache_entry_table file_name w) as (A & _ & _ & _ & [E|(buf & fd & E)]).
  - cbn zeta. rewrite A, E. lia.
  - cbn zeta. rewrite A, E. split; [reflexivity|apply insert_size].
Qed.

(** The fill loop attempts one name per unit of [empty_cache_entries]. *)
Lemma fill_loop_size (files_not_pinned : StdSet.t) :
  forall (empty_cache_entries : Z) (w : World),
    let w' := exec (fill_loop files_not_pinned empty_cache_entries) w in
    let fnp' := eval (fill_loop files_not_pinned empty_cache_entries) w in
    max_cache_entries_ w' = max_cache_entries_ w /\
    StdMap.size (file_cache_ w) <= StdMap.size (file_cache_ w') /\
    StdMap.size (file_cache_ w')
      <= StdMap.size (file_cache_ w) + Z.max 0 empty_cache_entries /\
    StdMap.size (file_cache_ w') + StdSet.size fnp'
      <= StdMap.size (file_cache_ w) + StdSet.size files_not_pinned /\
    (0 < empty_cache_entries -> files_not_pinned <> [] ->
     StdSet.size fnp' < StdSet.size files_not_pinned).
Proof.
  unfold StdSet.size.
  induction files_not_pinned as [|name rest IH]; intros empty w; cbn zeta.
  - cbn [fill_loop exec eval ret fst snd List.length].
    repeat split; try lia. intros _ H; congruence.
  - cbn [fill_loop]. destruct (0 <? empty) eqn:He.
    + apply Z.ltb_lt in He. rewrite exec_bind, eval_bind.
      destruct (add_cache_entry_size name w) as (A & B).
      set (w1 := exec (add_cache_entry name) w) in *.
      destruct rest as [|name' rest'].
      * cbn [exec eval ret fst snd List.length]. repeat split; try lia.
      * specialize (IH (empty - 1) w1). cbn zeta in IH.
        destruct IH as (K1 & K2 & K3 & K4 & K5).
        cbn [List.length] in *. rewrite !Nat2Z.inj_succ in *.
        repeat split; try lia.
    + apply Z.ltb_ge in He. cbn [exec eval ret fst snd].
      repeat split; try lia.
Qed.

Lemma fill_up_cache_size (files_not_pinned : StdSet.t) (w : World) :
  cap_ok w -> within_capacity w ->
  let w' := exec (fill_up_cache files_not_pinned) w in
  let fnp' := eval (fill_up_cache files_not_pinned) w in
  max_cache_entries_ w' = max_cache_entries_ w /\
  within_capacity w' /\
  StdMap.size (file_cache_ w') + StdSet.size fnp'
    <= StdMap.size (file_cache_ w) + StdSet.size files_not_pinned /\
  (StdMap.size (file_cache_ w) < max_cache_entries_ w ->
   files_not_pinned <> [] ->
   StdSet.size fnp' < StdSet.size files_not_pinned).
Proof.
  unfold cap_ok, within_capacity. intros Hc Hi. cbn zeta.
  unfold fill_up_cache. rewrite !exec_bind, !eval_bind.
  cbn [exec eval gets fst snd].
  assert (Hs : 0 <= StdMap.size (file_cache_ w))
    by (unfold StdMap.size; lia).
  rewrite int_minus_size_small by lia.
  destruct (fill_loop_size files_not_pinned
              (max_cache_entries_ w - StdMap.size (file_cache_ w)) w)
    as (K1 & K2 & K3 & K4 & K5).
  repeat split; try lia. intros; apply K5; auto; lia.
Qed.

Lemma evict_cache_entries_size (n : Z) (w : World) :
  let w' := exec (evict_cache_entries n) w in
  max_cache_entries_ w' = max_cache_entries_ w /\
  StdMap.size (file_cache_ w') <= StdMap.size (file_cache_ w).
Proof.
  cbn zeta. split.
  - unfold evict_cache_entries. rewrite !exec_bind.
    cbn [exec eval gets modify fst snd set_file_cache max_cache_entries_].
    apply (evict_loop_same_cache n (file_cache_ w) 0 w).
  - rewrite evict_cache_entries_table.
    destruct (evict_loop_spec n (file_cache_ w) 0 w) as (_ & _ & K3 & K4 & _).
    lia.
Qed.

(** Where some entry is unpinned, the loop erases at least one. *)
Lemma evict_loop_progress (n : Z) (entries : StdMap.t) :
  forall (evicted : Z) (w : World),
    existsb (fun kv => pin_count_ (snd kv) =? 0) entries = true ->
    evicted < snd (eval (evict_loop entries evicted n) w).
Proof.
  induction entries as [|[name ce] rest IH]; intros evicted w H.
  - discriminate.
  - cbn [existsb snd] in H. cbn [evict_loop].
    destruct (pin_count_ ce =? 0) eqn:Hp.
    + rewrite !eval_bind.
      set (w2 := exec (CacheEntry_dtor ce) (exec (evict_flush name ce) w)).
      destruct (evicted + 1 =? n).
      * cbn [eval ret fst snd]. lia.
      * destruct (evict_loop_spec n rest (evicted + 1) w2) as (_ & _ & _ & K & _).
        lia.
    + cbn [orb] in H. rewrite eval_bind. cbn [eval ret fst snd].
      apply IH. exact H.
Qed.

Lemma update_entry_size name f (w : World) :
  let w' := exec (update_entry name f) w in
  max_cache_entries_ w' = max_cache_entries_ w /\
  StdMap.size (file_cache_ w') = StdMap.size (file_cache_ w).
Proof. cbn. split; [reflexivity|apply update_size]. Qed.

Lemma insert_set_length k (s : StdSet.t) :
  (List.length (StdSet.insert k s) <= S (List.length s))%nat.
Proof.
  induction s as [|k' s IH]; cbn; [lia|].
  destruct (String.compare k k'); cbn; lia.
Qed.

Lemma pin_resident_size (file_vec : list string) :
  forall (acc : StdSet.t) (w : World),
    let w' := exec (pin_resident file_vec acc) w in
    let fnp := eval (pin_resident file_vec acc) w in
    max_cache_entries_ w' = max_cache_entries_ w /\
    StdMap.size (file_cache_ w') = StdMap.size (file_cache_ w) /\
    (List.length fnp <= List.length acc + List.length file_vec)%nat.
Proof.
  induction file_vec as [|name rest IH]; intros acc w; cbn zeta.
  - cbn. repeat split; lia.
  - cbn [pin_resident]. rewrite exec_bind, eval_bind.
    cbn [exec eval gets fst snd].
    destruct (StdMap.find name (file_cache_ w)).
    + rewrite exec_bind, eval_bind.
      destruct (update_entry_size name pin_incr w) as (A & B).
      destruct (IH acc (exec (update_entry name pin_incr) w)) as (K1 & K2 & K3).
      cbn [List.length]. repeat split; try lia; congruence.
    + destruct (IH (StdSet.insert name acc) w) as (K1 & K2 & K3).
      pose proof (insert_set_length name acc).
      cbn [List.length]. repeat split; try lia; congruence.
Qed.

(** Claiming changes neither the size of the table nor what is in the
    pending set beyond removing names; when it removes none, the table is
    untouched. *)
Lemma claim_resident_size (files_not_pinned : StdSet.t) :
  forall (w : World),
    let w' := exec (claim_resident files_not_pinned) w in
    let fnp := eval (claim_resident files_not_pinned) w in
    max_cache_entries_ w' = max_cache_entries_ w /\
    StdMap.size (file_cache_ w') = StdMap.size (file_cache_ w) /\
    ((List.length fnp < List.length files_not_pinned)%nat \/
     (fnp = files_not_pinned /\ file_cache_ w' = file_cache_ w)).
Proof.
  induction files_not_pinned as [|name rest IH]; intros w; cbn zeta.
  - cbn. repeat split; auto.
  - cbn [claim_resident]. rewrite exec_bind, eval_bind.
    cbn [exec eval gets fst snd].
    destruct (StdMap.find name (file_cache_ w)).
    + rewrite exec_bind, eval_bind.
      destruct (update_entry_size name pin_incr w) as (A & B).
      destruct (IH (exec (update_entry name pin_incr) w)) as (K1 & K2 & K3).
      cbn [List.length]. repeat split; try congruence.
      left. destruct K3 as [K3|[K3 _]]; [lia|rewrite K3; lia].
    + rewrite exec_bind, eval_bind. cbn [exec eval ret fst snd].
      destruct (IH w) as (K1 & K2 & K3).
      cbn [List.length]. repeat split; try congruence.
      destruct K3 as [K3|[K3 K4]]; [left; lia|right; split; congruence].
Qed.

Lemma fill_up_cache_measure (files_not_pinned : StdSet.t) (w : World) :
  let w' := exec (fill_up_cache files_not_pinned) w in
  let fnp' := eval (fill_up_cache files_not_pinned) w in
  StdMap.size (file_cache_ w') + StdSet.size fnp'
    <= StdMap.size (file_cache_ w) + StdSet.size files_not_pinned /\
  StdSet.size fnp' <= StdSet.size files_not_pinned.
Proof.
  cbn zeta. unfold fill_up_cache. rewrite !exec_bind, !eval_bind.
  cbn [exec eval gets fst snd].
  destruct (fill_loop_size files_not_pinned
              (int_minus_size (max_cache_entries_ w)
                              (StdMap.size (file_cache_ w))) w)
    as (K1 & K2 & K3 & K4 & K5).
  split; lia.
Qed.

(** [pin_loop] keeps the table within the capacity. *)
Lemma pin_loop_capacity (fuel : nat) :
  forall (files_not_pinned : StdSet.t) (w : World),
    cap_ok w -> within_capacity w ->
    let w' := exec (pin_loop fuel files_not_pinned) w in
    max_cache_entries_ w' = max_cache_entries_ w /\ within_capacity w'.
Proof.
  induction fuel as [|fuel IH]; intros fnp w Hc Hi; cbn zeta.
  - cbn. auto.
  - cbn [pin_loop]. destruct fnp as [|x xs]; [cbn; auto|].
    rewrite exec_bind. cbn [exec eval cache_entries_evictable gets fst snd].
    destruct (existsb _ (file_cache_ w)); cbn [negb].
    + rewrite exec_bind.
      destruct (claim_resident_size (x :: xs) w) as (A1 & A2 & _).
      set (w1 := exec (claim_resident (x :: xs)) w) in *.
      destruct (eval (claim_resident (x :: xs)) w) as [|y ys].
      * cbn [exec ret snd]. unfold within_capacity in *. split; [auto|lia].
      * rewrite exec_bind.
        destruct (evict_cache_entries_size (to_int (StdSet.size (y :: ys))) w1)
          as (B1 & B2).
        set (w2 := exec (evict_cache_entries _) w1) in *.
        destruct (_ <=? _).
        -- rewrite exec_bind.
           assert (Hc2 : cap_ok w2) by (unfold cap_ok in *; lia).
           assert (Hi2 : within_capacity w2)
             by (unfold within_capacity in *; lia).
           destruct (fill_up_cache_size (y :: ys) Hc2 Hi2) as (C1 & C2 & _).
           set (w3 := exec (fill_up_cache (y :: ys)) w2) in *.
           assert (Hc3 : cap_ok w3) by (unfold cap_ok in *; lia).
           destruct (IH (eval (fill_up_cache (y :: ys)) w2) w3 Hc3 C2) as (D1 & D2).
           split; [lia|exact D2].
        -- cbn [exec ret snd]. unfold within_capacity in *. split; lia.
    + cbn. auto.
Qed.

(** [pin_loop] ends within its fuel, and the assertion at line 211 holds. *)
Lemma pin_loop_total (fuel : nat) :
  forall (files_not_pinned : StdSet.t) (w : World),
    StdSet.size files_not_pinned <= INT_MAX ->
    (List.length files_not_pinned + List.length (file_cache_ w) < fuel)%nat ->
    pin_outcome_ok files_not_pinned (eval (pin_loop fuel files_not_pinned) w).
Proof.
  unfold pin_outcome_ok.
  induction fuel as [|fuel IH]; intros fnp w Hs Hf; [lia|].
  cbn [pin_loop]. destruct fnp as [|x xs]; [left; reflexivity|].
  rewrite eval_bind. cbn [exec eval cache_entries_evictable gets fst snd].
  destruct (existsb _ (file_cache_ w)) eqn:Hev; cbn [negb].
  - rewrite eval_bind.
    destruct (claim_resident_size (x :: xs) w) as (A1 & A2 & A3).
    set (w1 := exec (claim_resident (x :: xs)) w) in *.
    destruct (eval (claim_resident (x :: xs)) w) as [|y ys] eqn:Hcl;
      [left; reflexivity|].
    rewrite eval_bind.
    assert (Hlen : StdSet.size (y :: ys) <= StdSet.size (x :: xs)).
    { unfold StdSet.size. destruct A3 as [A3|[A3 _]]; [lia|rewrite A3; lia]. }
    assert (Hn : to_int (StdSet.size (y :: ys)) = StdSet.size (y :: ys)).
    { apply to_int_small. unfold StdSet.size in *. cbn [List.length] in *. lia. }
    rewrite Hn.
    set (n := StdSet.size (y :: ys)) in *.
    assert (Hn1 : 1 <= n)
      by (unfold n, StdSet.size; cbn [List.length]; lia).
    pose proof (evict_cache_entries_result n w1) as R.
    pose proof (evict_cache_entries_table n w1) as T.
    destruct (evict_loop_spec n (file_cache_ w1) 0 w1) as (_ & _ & K3 & K4 & K5).
    set (w2 := exec (evict_cache_entries n) w1) in *.
    assert (Hle : eval (evict_cache_entries n) w1 <= n).
    { rewrite R. pose proof (to_uint32_le K4). lia. }
    apply Z.leb_le in Hle. rewrite Hle.
    rewrite eval_bind.
    destruct (fill_up_cache_measure (y :: ys) w2) as (F1 & F2).
    set (w3 := exec (fill_up_cache (y :: ys)) w2) in *.
    set (fnp3 := eval (fill_up_cache (y :: ys)) w2) in *.
    assert (Hm : (List.length fnp3 + List.length (file_cache_ w3) < fuel)%nat).
    { fold n in F1. unfold StdSet.size, StdMap.size in *.
      rewrite T in F1.
      destruct A3 as [A3|[A3 A4]].
      - lia.
      - rewrite <- A4 in Hev.
        pose proof (evict_loop_progress n (file_cache_ w1) 0 w1 Hev).
        rewrite A3 in *. cbn [List.length] in *. lia. }
    destruct (IH fnp3 w3 ltac:(lia) Hm) as [E|(f & E & Hne & Hsz)].
    + left; exact E.
    + right. exists f. repeat split; auto. lia.
  - right. exists (x :: xs). cbn. repeat split; [congruence|lia].
Qed.

Lemma unpin_loop_size (file_vec : list string) :
  forall (flag : bool) (w : World),
    let w' := exec (unpin_loop file_vec flag) w in
    max_cache_entries_ w' = max_cache_entries_ w /\
    StdMap.size (file_cache_ w') = StdMap.size (file_cache_ w).
Proof.
  induction file_vec as [|name rest IH]; intros flag w; cbn zeta.
  - cbn. auto.
  - cbn [unpin_loop]. rewrite exec_bind. cbn [exec eval gets fst snd].
    destruct (StdMap.find name (file_cache_ w)) as [ce|].
    + rewrite exec_bind.
      destruct (update_entry_size name pin_decr w) as (A & B).
      destruct (IH (if pin_count_ (pin_decr ce) =? 0 then true else flag)
                   (exec (update_entry name pin_decr) w)) as (K1 & K2).
      split; congruence.
    + apply IH.
Qed.

Lemma PinFiles_capacity (file_vec : list string) (w : World) :
  cap_ok w -> within_capacity w ->
  let w' := exec (PinFiles file_vec) w in
  max_cache_entries_ w' = max_cache_entries_ w /\ within_capacity w'.
Proof.
  intros Hc Hi. cbn zeta. unfold PinFiles. rewrite exec_bind.
  cbn [exec eval gets fst snd].
  destruct (size_gt_int _ _); [cbn; auto|].
  rewrite exec_bind.
  destruct (pin_resident_size file_vec [] w) as (A1 & A2 & _).
  set (w1 := exec (pin_resident file_vec []) w) in *.
  assert (Hc1 : cap_ok w1) by (unfold cap_ok in *; lia).
  assert (Hi1 : within_capacity w1) by (unfold within_capacity in *; lia).
  rewrite exec_bind.
  destruct (fill_up_cache_size (eval (pin_resident file_vec []) w) Hc1 Hi1)
    as (B1 & B2 & _).
  set (w2 := exec (fill_up_cache _) w1) in *.
  destruct (StdSet.empty _).
  - cbn [exec ret snd]. split; [lia|exact B2].
  - assert (Hc2 : cap_ok w2) by (unfold cap_ok in *; lia).
    unfold pin_loop_run.
    destruct (pin_loop_capacity
                (pin_fuel (eval (fill_up_cache (eval (pin_resident file_vec []) w)) w1) w2)
                (eval (fill_up_cache (eval (pin_resident file_vec []) w)) w1)
                Hc2 B2) as (D1 & D2).
    split; [unfold exec in *; lia|exact D2].
Qed.

(** A [PinFiles] call ends in one of three ways: it throws, it returns,
    or it parks on [cv_] with names still pending. The loop never runs
    out of its fuel and never trips the assertion at line 211. *)
Lemma PinFiles_outcome (file_vec : list string) (w : World) :
  cap_ok w -> within_capacity w ->
  let r := eval (PinFiles file_vec) w in
  (exists what, r = PinThrow what) \/
  r = PinReturn \/
  (exists fnp, r = PinWait fnp /\ fnp <> []).
Proof.
  intros Hc Hi. cbn zeta. unfold PinFiles. rewrite eval_bind, exec_gets, eval_gets.
  unfold size_gt_int.
  destruct (to_size_t (max_cache_entries_ w) <? Z.of_nat (List.length file_vec))
    eqn:Hlen; [left; eexists; reflexivity|].
  right. apply Z.ltb_ge in Hlen. unfold to_size_t in Hlen.
  assert (Hcap : Z.of_nat (List.length file_vec) <= INT_MAX).
  { unfold cap_ok, INT_MAX in *. rewrite Z.mod_small in Hlen by lia. lia. }
  rewrite eval_bind.
  destruct (pin_resident_size file_vec [] w) as (A1 & A2 & A3).
  set (w1 := exec (pin_resident file_vec []) w) in *.
  set (fnp1 := eval (pin_resident file_vec []) w) in *.
  rewrite eval_bind.
  destruct (fill_up_cache_measure fnp1 w1) as (_ & B).
  set (w2 := exec (fill_up_cache fnp1) w1) in *.
  set (fnp2 := eval (fill_up_cache fnp1) w1) in *.
  destruct (StdSet.empty fnp2); [left; reflexivity|].
  unfold pin_loop_run.
  assert (Hs : StdSet.size fnp2 <= INT_MAX).
  { unfold StdSet.size in *. cbn [List.length] in A3. lia. }
  destruct (@pin_loop_total (pin_fuel fnp2 w2) fnp2 w2 Hs) as [E|(f & E & Hne & _)].
  - unfold pin_fuel. lia.
  - left. exact E.
  - right. exists f. split; assumption.
Qed.

(** The same for a parked call that goes on after a wake-up. *)
Lemma resume_outcome (i : nat) (fnp : StdSet.t) (w : World) :
  nth_error (cv_woken w) i = Some fnp ->
  StdSet.size fnp <= INT_MAX ->
  pin_outcome_ok fnp (eval (resume i) w).
Proof.
  intros Hn Hs. unfold resume, eval. rewrite Hn. unfold pin_loop_run.
  apply (@pin_loop_total _ fnp _ Hs). unfold pin_fuel. lia.
Qed.

Lemma step_capacity (o : Op) (w : World) :
  cap_ok w -> within_capacity w ->
  let w' := exec (step o) w in
  max_cache_entries_ w' = max_cache_entries_ w /\ within_capacity w'.
Proof.
  intros Hc Hi. cbn zeta. destruct o as [fv|fv|n|n|i|i|n data|f]; cbn [step].
  - rewrite exec_bind. cbn [exec ret snd].
    apply (PinFiles_capacity fv Hc Hi).
  - unfold UnpinFiles. rewrite exec_bind.
    destruct (unpin_loop_size fv false w) as (A & B).
    unfold within_capacity in *.
    destruct (eval (unpin_loop fv false) w);
      cbn [exec cv_notify_all modify ret snd add_event set_cv
           file_cache_ max_cache_entries_]; split; lia.
  - unfold FileData. autorewrite with monad.
    destruct (StdMap.find n (file_cache_ w)); autorewrite with monad; auto.
  - unfold MutableFileData. autorewrite with monad.
    destruct (StdMap.find n (file_cache_ w)); autorewrite with monad; auto.
    destruct (update_entry_size n (set_dirty true) w) as (A & B).
    unfold within_capacity in *. split; lia.
  - unfold spurious_wake, exec.
    destruct (nth_error (cv_waiting w) i); cbn; auto.
  - rewrite exec_bind. cbn [exec ret snd]. unfold resume, exec.
    destruct (nth_error (cv_woken w) i) as [fnp|]; [|cbn; auto].
    unfold pin_loop_run.
    set (w0 := set_cv (cv_waiting w) (remove_nth i (cv_woken w)) w).
    apply (@pin_loop_capacity (pin_fuel fnp w0) fnp w0); assumption.
  - destruct (update_entry_size n
                (fun ce => mkCacheEntry (store_bytes data (file_buf_ ce))
                             (pin_count_ ce) (dirty_ ce) (fd_ ce)) w) as (A & B).
    unfold within_capacity in *. split; lia.
  - cbn. auto.
Qed.

(** C2. The table never holds more than [max_cache_entries_] entries
    between operations. The capacity is an [int] that is not negative.
    Starting from the freshly constructed (empty) cache, after any
    sequence of PinFiles, UnpinFiles, FileData and MutableFileData calls,
    interleaved in any way with wake-ups of waiting PinFiles calls, with
    stores through the returned pointers and with storage starting or
    ceasing to fail, the table is within the capacity; and every single
    operation keeps a table that is within the capacity within it. *)
Theorem table_within_capacity :
  forall (max_cache_entries : Z),
    0 <= max_cache_entries <= INT_MAX ->
    (forall (ops : list Op) (d : list (string * list byte)) (f : Faults),
        StdMap.size (file_cache_ (run ops (FileCacheImpl_ctor max_cache_entries d f)))
        <= max_cache_entries) /\
    (forall (o : Op) (w : World),
        max_cache_entries_ w = max_cache_entries ->
        StdMap.size (file_cache_ w) <= max_cache_entries ->
        StdMap.size (file_cache_ (exec (step o) w)) <= max_cache_entries).
Proof.
  intros cap Hcap.
  assert (Hstep : forall o w, max_cache_entries_ w = cap ->
                    StdMap.size (file_cache_ w) <= cap ->
                    max_cache_entries_ (exec (step o) w) = cap /\
                    StdMap.size (file_cache_ (exec (step o) w)) <= cap).
  { intros o w E Hs.
    assert (Hc : cap_ok w) by (unfold cap_ok; lia).
    assert (Hi : within_capacity w) by (unfold within_capacity; lia).
    destruct (step_capacity o Hc Hi) as (A & B).
    unfold within_capacity in B. split; lia. }
  split.
  - intros ops d f.
    assert (G : forall w, max_cache_entries_ w = cap ->
                  StdMap.size (file_cache_ w) <= cap ->
                  StdMap.size (file_cache_ (run ops w)) <= cap).
    { induction ops as [|o ops IH]; intros w E Hs; cbn [run]; [exact Hs|].
      destruct (Hstep o w E Hs) as (A & B). apply IH; assumption. }
    apply G; [reflexivity|]. cbn. lia.
  - intros o w E Hs. apply (Hstep o w E Hs).
Qed.

Lemma table_within_capacity_witness :
  (forall (ops : list Op) (d : list (string * list byte)) (f : Faults),
      StdMap.size (file_cache_ (run ops (FileCacheImpl_ctor 2 d f))) <= 2) /\
  (forall (o : Op) (w : World),
      max_cache_entries_ w = 2 ->
      StdMap.size (file_cache_ w) <= 2 ->
      StdMap.size (file_cache_ (exec (step o) w)) <= 2).
Proof.
  apply (@table_within_capacity 2). unfold INT_MAX. lia.
Defined.

(* ===================================================================== *)
(** ** Creating an entry *)
(* ===================================================================== *)

Lemma lowest_free_ge (fuel : nat) :
  forall (from : Z) (fds : list (Z * string)),
    from <= Sys.lowest_free fuel from fds.
Proof.
  induction fuel as [|fuel IH]; intros from fds; cbn; [lia|].
  destruct (Sys.fd_name from fds); [|lia].
  specialize (IH (from + 1) fds). lia.
Qed.

Lemma lookup_store_same {A : Type} k (v : A) l :
  Sys.lookup k (Sys.store k v l) = Some v.
Proof.
  induction l as [|[k' v'] l IH]; cbn.
  - now rewrite String.eqb_refl.
  - destruct (String.eqb k k') eqn:E; cbn.
    + now rewrite String.eqb_refl.
    + now rewrite E.
Qed.

(** [open] fails: one line on standard error, nothing else changes but
    the trace. *)
Lemma add_cache_entry_open_fails (file_name : string) (w : World) :
  open_fails (faults w) file_name = true ->
  add_cache_entry file_name w =
  (tt, add_stderr (message ["Error opening file "; file_name; " : ";
                            strerror_errno (faults w)])
         (add_event (SysOpen file_name (-1)) w)).
Proof.
  intros H. unfold add_cache_entry, bind, Sys.open. rewrite H. reflexivity.
Qed.

(** [read] fails: the descriptor is closed again, one line on standard
    error, and the table is as before. *)
Lemma add_cache_entry_read_fails (file_name : string) (w : World) :
  open_fails (faults w) file_name = false ->
  read_fails (faults w) file_name = true ->
  let w' := exec (add_cache_entry file_name) w in
  file_cache_ w' = file_cache_ w /\
  stderr_ w' = stderr_ w ++ [message ["Error reading file "; file_name; " : ";
                                      strerror_errno (faults w)]] /\
  open_fds w' = open_fds w /\
  trace w' = trace w ++ [SysOpen file_name (next_fd w); SysLseek (next_fd w);
                         SysRead (next_fd w) (-1); SysClose (next_fd w)].
Proof.
  intros Ho Hr. cbn zeta.
  unfold add_cache_entry, exec, bind, Sys.open. rewrite Ho.
  fold (next_fd w). pose proof (lowest_free_ge (List.length (open_fds w)) 3 (open_fds w)) as Hfd.
  fold (next_fd w) in Hfd.
  destruct (next_fd w <? 0) eqn:E; [apply Z.ltb_lt in E; lia|].
  cbn [Sys.lseek modify]. unfold Sys.read.
  cbn [open_fds add_event set_open_fds Sys.fd_name].
  rewrite Z.eqb_refl. cbn [faults add_event set_open_fds set_disk].
  rewrite Hr. cbn [fst]. cbn [Z.ltb Z.compare].
  cbn [Sys.strerror gets Sys.eprint modify Sys.close snd].
  cbn [file_cache_ stderr_ open_fds trace add_event add_stderr set_open_fds
       set_disk faults Sys.fd_remove].
  rewrite Z.eqb_refl. repeat split.
  rewrite <- !app_assoc. reflexivity.
Qed.

(** Neither fails: the entry is inserted, pinned once and clean, with the
    bytes of the file over the [memset] pattern. A short file is not an
    error. *)
Lemma add_cache_entry_ok (file_name : string) (w : World) :
  open_fails (faults w) file_name = false ->
  read_fails (faults w) file_name = false ->
  let w' := exec (add_cache_entry file_name) w in
  file_cache_ w' =
    StdMap.insert file_name
      (CacheEntry_ctor (loaded_buffer (file_bytes file_name w)) 1 (next_fd w))
      (file_cache_ w) /\
  stderr_ w' = stderr_ w /\
  open_fds w' = (next_fd w, file_name) :: open_fds w /\
  Sys.lookup file_name (disk w') = Some (file_bytes file_name w) /\
  trace w' = trace w ++
             [SysOpen file_name (next_fd w); SysLseek (next_fd w);
              SysRead (next_fd w)
                (Z.of_nat (List.length (firstn (Z.to_nat FILE_SIZE)
                                               (file_bytes file_name w))))].
Proof.
  intros Ho Hr. cbn zeta.
  unfold add_cache_entry, exec, bind, Sys.open. rewrite Ho.
  fold (next_fd w). pose proof (lowest_free_ge (List.length (open_fds w)) 3 (open_fds w)) as Hfd.
  fold (next_fd w) in Hfd.
  destruct (next_fd w <? 0) eqn:E; [apply Z.ltb_lt in E; lia|].
  cbn [Sys.lseek modify]. unfold Sys.read.
  cbn [open_fds add_event set_open_fds Sys.fd_name].
  rewrite Z.eqb_refl. cbn [faults add_event set_open_fds set_disk].
  rewrite Hr. cbn [disk add_event set_open_fds set_disk].
  assert (Hd : match Sys.lookup file_name
                       match Sys.lookup file_name (disk w) with
                       | Some _ => disk w
                       | None => Sys.store file_name [] (disk w)
                       end with
               | Some d => d
               | None => []
               end = file_bytes file_name w).
  { unfold file_bytes. destruct (Sys.lookup file_name (disk w)) eqn:L.
    - now rewrite L.
    - now rewrite lookup_store_same. }
  rewrite Hd. cbn [fst snd].
  destruct (Z.of_nat _ <? 0) eqn:E2; [apply Z.ltb_lt in E2; lia|].
  unfold CacheEntry_dtor, CacheEntry_ctor. cbn [pin_count_ Z.eqb ret modify snd].
  cbn [file_cache_ stderr_ open_fds trace disk add_event add_stderr
       set_open_fds set_disk set_file_cache].
  repeat split.
  - unfold file_bytes. destruct (Sys.lookup file_name (disk w)) eqn:L.
    + exact L.
    + apply lookup_store_same.
  - rewrite <- !app_assoc. reflexivity.
Qed.

Lemma loaded_buffer_empty_file :
  loaded_buffer [] = repeat char_0 (Z.to_nat FILE_SIZE).
Proof. vm_compute. reflexivity. Qed.

(** A file that is not on storage, on a storage that does not fail: it is
    created with no bytes, and the buffer holds ['0'] characters. *)
Lemma add_cache_entry_absent_file (file_name : string) (w : World) :
  open_fails (faults w) file_name = false ->
  read_fails (faults w) file_name = false ->
  Sys.lookup file_name (disk w) = None ->
  let w' := exec (add_cache_entry file_name) w in
  Sys.lookup file_name (disk w') = Some [] /\
  file_cache_ w' =
    StdMap.insert file_name
      (CacheEntry_ctor (repeat char_0 (Z.to_nat FILE_SIZE)) 1 (next_fd w))
      (file_cache_ w).
Proof.
  intros Ho Hr Hd.
  destruct (add_cache_entry_ok file_name w Ho Hr) as (A & _ & _ & B & _).
  cbn zeta. unfold file_bytes in *. rewrite Hd in *.
  rewrite loaded_buffer_empty_file in A. split; assumption.
Qed.

(** C3 (the code departs from the claim). Pinning a name that is not on
    storage, on a fresh cache: [open] creates the file with no bytes at
    all and nothing is written to it, and the buffer of the new entry
    holds 10240 bytes 0x30 (the character ['0']), not zero bytes. *)
Theorem add_cache_entry_new_file_not_zeroed :
  let w := exec (PinFiles ["new"]) (FileCacheImpl_ctor 1 [] no_faults) in
  eval (PinFiles ["new"]) (FileCacheImpl_ctor 1 [] no_faults) = PinReturn /\
  Sys.lookup "new" (disk w) = Some [] /\
  trace w = [SysOpen "new" 3; SysLseek 3; SysRead 3 0] /\
  option_map file_buf_ (StdMap.find "new" (file_cache_ w))
    = Some (repeat x30 (Z.to_nat FILE_SIZE)) /\
  repeat x30 (Z.to_nat FILE_SIZE) <> repeat x00 (Z.to_nat FILE_SIZE).
Proof.
  cbn zeta. repeat split; try (vm_compute; reflexivity).
  intros H. apply (f_equal (hd x01)) in H. vm_compute in H. discriminate.
Qed.

(** C5 (as amended). [add_cache_entry] fails when [open] fails or when
    [read] returns a negative result, and only then: the table is left as
    it was, no descriptor stays open, and one line goes to standard error.
    Otherwise the entry is inserted with the bytes read laid over the
    initial fill of the buffer, however few bytes the file has. *)
Theorem add_cache_entry_outcomes :
  forall (file_name : string) (w : World),
    let w' := exec (add_cache_entry file_name) w in
    let err := strerror_errno (faults w) in
    file_cache_ w' =
      (if open_fails (faults w) file_name then file_cache_ w
       else if read_fails (faults w) file_name then file_cache_ w
       else StdMap.insert file_name
              (CacheEntry_ctor (loaded_buffer (file_bytes file_name w)) 1 (next_fd w))
              (file_cache_ w)) /\
    open_fds w' =
      (if open_fails (faults w) file_name then open_fds w
       else if read_fails (faults w) file_name then open_fds w
       else (next_fd w, file_name) :: open_fds w) /\
    stderr_ w' =
      stderr_ w ++
      (if open_fails (faults w) file_name
       then [message ["Error opening file "; file_name; " : "; err]]
       else if read_fails (faults w) file_name
       then [message ["Error reading file "; file_name; " : "; err]]
       else []).
Proof.
  intros name w. cbn zeta.
  destruct (open_fails (faults w) name) eqn:Ho.
  - unfold exec. rewrite (add_cache_entry_open_fails name w Ho). cbn. auto.
  - destruct (read_fails (faults w) name) eqn:Hr.
    + destruct (add_cache_entry_read_fails name w Ho Hr) as (A & B & C & _).
      auto.
    + destruct (add_cache_entry_ok name w Ho Hr) as (A & B & C & _).
      rewrite app_nil_r. auto.
Qed.

(** C5 (as stated) fails on a short file: [read] returns 3, fewer than
    [FILE_SIZE], and the entry is inserted all the same. *)
Lemma add_cache_entry_short_read_inserts :
  let w := FileCacheImpl_ctor 1 [("f", [x61; x62; x63])] no_faults in
  let w' := exec (add_cache_entry "f") w in
  trace w' = [SysOpen "f" 3; SysLseek 3; SysRead 3 3] /\
  3 < FILE_SIZE /\
  file_cache_ w = [] /\
  keys (file_cache_ w') = ["f"] /\
  option_map (fun ce => firstn 5 (file_buf_ ce)) (StdMap.find "f" (file_cache_ w'))
    = Some [x61; x62; x63; x30; x30] /\
  stderr_ w' = [].
Proof. cbn zeta. repeat split; vm_compute; reflexivity. Qed.

(* ===================================================================== *)
(** ** PinFiles: the size check *)
(* ===================================================================== *)

(** C8. A PinFiles call with more names than [max_cache_entries_] (an
    [int] that is not negative) throws, at once, and the world is exactly
    as it was: table, pin counts, waiters, storage, output. *)
Theorem PinFiles_too_many_files :
  forall (file_vec : list string) (w : World),
    0 <= max_cache_entries_ w <= INT_MAX ->
    max_cache_entries_ w < Z.of_nat (List.length file_vec) ->
    PinFiles file_vec w =
    (PinThrow "Number of files being pinned exceed cache size", w).
Proof.
  intros fv w Hc Hl. unfold PinFiles, bind, gets, size_gt_int, to_size_t.
  rewrite Z.mod_small by (unfold INT_MAX in Hc; lia).
  apply Z.ltb_lt in Hl. rewrite Hl. reflexivity.
Qed.

Lemma PinFiles_too_many_files_witness :
  let w := world_of 1 [("a", entry 1 false 3)] in
  PinFiles ["b"; "c"] w =
  (PinThrow "Number of files being pinned exceed cache size", w).
Proof.
  intros w. apply (@PinFiles_too_many_files ["b"; "c"] w).
  - cbn. unfold INT_MAX. lia.
  - cbn. lia.
Defined.

(* ===================================================================== *)
(** ** Eviction and the storage *)
(* ===================================================================== *)

Lemma storage_moves_on_refl w : storage_moves_on w w.
Proof.
  repeat split; try apply incl_refl; exists []; now rewrite app_nil_r.
Qed.

Lemma storage_moves_on_trans w1 w2 w3 :
  storage_moves_on w1 w2 -> storage_moves_on w2 w3 -> storage_moves_on w1 w3.
Proof.
  intros (A1 & A2 & (l1 & A3) & (t1 & A4)) (B1 & B2 & (l2 & B3) & (t2 & B4)).
  repeat split.
  - congruence.
  - eapply incl_tran; eassumption.
  - exists (l1 ++ l2). rewrite B3, A3, app_assoc. reflexivity.
  - exists (t1 ++ t2). rewrite B4, A4, app_assoc. reflexivity.
Qed.

Lemma fd_remove_incl fd fds : incl (Sys.fd_remove fd fds) fds.
Proof.
  induction fds as [|[fd' n] fds IH]; cbn; [apply incl_refl|].
  destruct (fd =? fd').
  - apply incl_tl, incl_refl.
  - intros x [<-|H]; [left; reflexivity|right; apply IH; exact H].
Qed.

Lemma fd_name_In fd fds nm : Sys.fd_name fd fds = Some nm -> In (fd, nm) fds.
Proof.
  induction fds as [|[fd' n] fds IH]; cbn; [discriminate|].
  destruct (fd =? fd') eqn:E.
  - intros [= <-]. apply Z.eqb_eq in E. subst. left; reflexivity.
  - intros H. right. apply IH. exact H.
Qed.

(** One [write]: its trace, and that it changes nothing else the
    eviction path looks at. *)
Lemma write_effect fd buf w :
  let w' := exec (Sys.write fd buf) w in
  let r := eval (Sys.write fd buf) w in
  trace w' = trace w ++ [SysWrite fd buf r] /\
  stderr_ w' = stderr_ w /\ open_fds w' = open_fds w /\ faults w' = faults w /\
  file_cache_ w' = file_cache_ w.
Proof.
  cbn zeta. unfold exec, eval, Sys.write.
  destruct (Sys.fd_name fd (open_fds w)) as [nm|]; [|cbn; auto 6].
  destruct (write_fails (faults w) nm); cbn; auto 6.
Qed.

Lemma write_after_lseek fd fd' buf w :
  eval (Sys.write fd buf) (exec (Sys.lseek fd') w) = eval (Sys.write fd buf) w.
Proof.
  unfold eval, exec, Sys.write, Sys.lseek, modify.
  cbn [snd open_fds faults disk add_event].
  destruct (Sys.fd_name fd (open_fds w)) as [nm|]; [|reflexivity].
  destruct (write_fails (faults w) nm); reflexivity.
Qed.

(** A [write] on a descriptor all of whose files fail returns -1. *)
Lemma write_fails_result fd buf w :
  (forall nm, In (fd, nm) (open_fds w) -> write_fails (faults w) nm = true) ->
  eval (Sys.write fd buf) w = -1.
Proof.
  intros H. unfold eval, Sys.write.
  destruct (Sys.fd_name fd (open_fds w)) as [nm|] eqn:E; [|reflexivity].
  rewrite (H nm (fd_name_In _ _ E)). reflexivity.
Qed.

(** The body of the eviction loop on an unpinned dirty entry: flush,
    then the destructor flushes again and closes. *)
Lemma evict_dirty_entry_effect (name : string) (ce : CacheEntry) (w : World) :
  pin_count_ ce = 0 -> dirty_ ce = true ->
  let w' := exec (evict_flush name ce ;; CacheEntry_dtor ce) w in
  let err := strerror_errno (faults w) in
  exists r1 r2,
    r1 = eval (Sys.write (fd_ ce) (file_buf_ ce)) w /\
    trace w' = trace w ++ [SysLseek (fd_ ce); SysWrite (fd_ ce) (file_buf_ ce) r1;
                           SysLseek (fd_ ce); SysWrite (fd_ ce) (file_buf_ ce) r2;
                           SysClose (fd_ ce)] /\
    (r1 < 0 -> exists l,
        stderr_ w' = stderr_ w ++
                     message ["Error writing file "; name; " : "; err] :: l) /\
    storage_moves_on w w'.
Proof.
  intros Hp Hd. cbn zeta.
  unfold evict_flush, CacheEntry_dtor. rewrite Hp, Hd. cbn [Z.eqb].
  set (fd := fd_ ce). set (buf := file_buf_ ce).
  set (w1 := exec (Sys.lseek fd) w).
  destruct (write_effect fd buf w1) as (T1 & S1 & O1 & F1 & _).
  set (r1 := eval (Sys.write fd buf) w1) in *.
  set (w2 := exec (Sys.write fd buf) w1) in *.
  set (log1 := if r1 <? 0
               then [message ["Error writing file "; name; " : ";
                              strerror_errno (faults w)]]
               else []).
  set (w3 := exec (if r1 <? 0
                   then err <- Sys.strerror ;;
                        Sys.eprint (message ["Error writing file "; name; " : "; err])
                   else ret tt) w2).
  assert (H3 : trace w3 = trace w2 /\ stderr_ w3 = stderr_ w2 ++ log1 /\
               open_fds w3 = open_fds w2 /\ faults w3 = faults w2).
  { unfold w3, log1. destruct (r1 <? 0).
    - autorewrite with monad. unfold Sys.eprint, Sys.strerror.
      autorewrite with monad. cbn [trace stderr_ open_fds faults add_stderr].
      rewrite F1. repeat split.
    - autorewrite with monad. rewrite app_nil_r. repeat split. }
  destruct H3 as (T3 & S3 & O3 & F3).
  set (w4 := exec (Sys.lseek fd) w3).
  destruct (write_effect fd buf w4) as (T5 & S5 & O5 & F5 & _).
  set (r2 := eval (Sys.write fd buf) w4) in *.
  set (w5 := exec (Sys.write fd buf) w4) in *.
  set (log2 := if r2 <? 0
               then [message ["Error writing file "; " : ";
                              strerror_errno (faults w)]]
               else []).
  set (w6 := exec (if r2 <? 0
                   then err <- Sys.strerror ;;
                        Sys.eprint (message ["Error writing file "; " : "; err])
                   else ret tt) w5).
  assert (H6 : trace w6 = trace w5 /\ stderr_ w6 = stderr_ w5 ++ log2 /\
               open_fds w6 = open_fds w5 /\ faults w6 = faults w5).
  { unfold w6, log2. destruct (r2 <? 0).
    - autorewrite with monad. unfold Sys.eprint, Sys.strerror.
      autorewrite with monad. cbn [trace stderr_ open_fds faults add_stderr].
      rewrite F5. cbn [faults add_event w4 exec Sys.lseek modify snd].
      rewrite F3, F1. repeat split.
    - autorewrite with monad. rewrite app_nil_r. repeat split. }
  destruct H6 as (T6 & S6 & O6 & F6).
  assert (E : exec ((Sys.lseek fd ;;
                     nbytes <- Sys.write fd buf ;;
                     (if nbytes <? 0
                      then err <- Sys.strerror ;;
                           Sys.eprint (message ["Error writing file "; name; " : "; err])
                      else ret tt)) ;;
                    (Sys.lseek fd ;;
                     nbytes <- Sys.write fd buf ;;
                     (if nbytes <? 0
                      then err <- Sys.strerror ;;
                           Sys.eprint (message ["Error writing file "; " : "; err])
                      else ret tt)) ;;
                    Sys.close fd) w
              = exec (Sys.close fd) w6).
  { rewrite !exec_bind. reflexivity. }
  rewrite E. clear E.
  assert (Tw : trace w6 = trace w ++ [SysLseek fd; SysWrite fd buf r1;
                                      SysLseek fd; SysWrite fd buf r2]).
  { rewrite T6, T5. change (trace w4) with (trace w3 ++ [SysLseek fd]).
    rewrite T3, T1. change (trace w1) with (trace w ++ [SysLseek fd]).
    rewrite <- !app_assoc. reflexivity. }
  assert (Sw : stderr_ w6 = stderr_ w ++ log1 ++ log2).
  { rewrite S6, S5. change (stderr_ w4) with (stderr_ w3).
    rewrite S3, S1. change (stderr_ w1) with (stderr_ w).
    rewrite <- app_assoc. reflexivity. }
  assert (Ow : open_fds w6 = open_fds w).
  { rewrite O6, O5. change (open_fds w4) with (open_fds w3).
    rewrite O3, O1. reflexivity. }
  assert (Fw : faults w6 = faults w).
  { rewrite F6, F5. change (faults w4) with (faults w3).
    rewrite F3, F1. reflexivity. }
  exists r1, r2. split; [apply write_after_lseek|].
  cbn [exec Sys.close snd]. unfold storage_moves_on.
  cbn [trace stderr_ faults open_fds add_event set_open_fds].
  rewrite Tw, Sw, Ow, Fw.
  split; [rewrite <- !app_assoc; reflexivity|]. split.
  - intros Hr. apply Z.ltb_lt in Hr. unfold log1. rewrite Hr.
    exists log2. reflexivity.
  - repeat split.
    + apply fd_remove_incl.
    + exists (log1 ++ log2). reflexivity.
    + eexists. rewrite <- app_assoc. reflexivity.
Qed.

Create HintDb storage_frame.
#[local] Hint Resolve storage_moves_on_refl : storage_frame.

Lemma lseek_moves_on fd w : storage_moves_on w (exec (Sys.lseek fd) w).
Proof.
  repeat split; try apply incl_refl.
  - exists []. cbn. now rewrite app_nil_r.
  - eexists. reflexivity.
Qed.

Lemma write_moves_on fd buf w : storage_moves_on w (exec (Sys.write fd buf) w).
Proof.
  destruct (write_effect fd buf w) as (T & S & O & F & _).
  repeat split.
  - exact F.
  - rewrite O. apply incl_refl.
  - exists []. rewrite S. now rewrite app_nil_r.
  - eexists. exact T.
Qed.

Lemma close_moves_on fd w : storage_moves_on w (exec (Sys.close fd) w).
Proof.
  repeat split.
  - apply fd_remove_incl.
  - exists []. cbn. now rewrite app_nil_r.
  - eexists. reflexivity.
Qed.

Lemma eprint_moves_on line w : storage_moves_on w (exec (Sys.eprint line) w).
Proof.
  repeat split; try apply incl_refl.
  - eexists. reflexivity.
  - exists []. cbn. now rewrite app_nil_r.
Qed.

Lemma strerror_moves_on w : storage_moves_on w (exec Sys.strerror w).
Proof. apply storage_moves_on_refl. Qed.

#[local] Hint Resolve lseek_moves_on write_moves_on close_moves_on
  eprint_moves_on strerror_moves_on : storage_frame.

Lemma bind_moves_on {A B : Type} (m : M A) (f : A -> M B) w :
  storage_moves_on w (exec m w) ->
  (forall a w1, storage_moves_on w1 (exec (f a) w1)) ->
  storage_moves_on w (exec (bind m f) w).
Proof.
  intros H1 H2. rewrite exec_bind.
  eapply storage_moves_on_trans; [exact H1|apply H2].
Qed.

Ltac storage_frame :=
  repeat first
    [ apply bind_moves_on; [|intros]
    | match goal with
      | |- storage_moves_on _ (exec (if ?b then _ else _) _) => destruct b
      end
    | solve [auto with storage_frame] ].

Lemma evict_flush_moves_on name ce w :
  storage_moves_on w (exec (evict_flush name ce) w).
Proof. unfold evict_flush. storage_frame. Qed.

Lemma CacheEntry_dtor_moves_on ce w :
  storage_moves_on w (exec (CacheEntry_dtor ce) w).
Proof. unfold CacheEntry_dtor. storage_frame. Qed.

#[local] Hint Resolve evict_flush_moves_on CacheEntry_dtor_moves_on
  : storage_frame.

Lemma evict_loop_moves_on (n : Z) (entries : StdMap.t) :
  forall (evicted : Z) (w : World),
    storage_moves_on w (exec (evict_loop entries evicted n) w).
Proof.
  induction entries as [|[name ce] rest IH]; intros evicted w.
  - apply storage_moves_on_refl.
  - cbn [evict_loop]. destruct (pin_count_ ce =? 0).
    + apply bind_moves_on; [auto with storage_frame|intros].
      apply bind_moves_on; [auto with storage_frame|intros].
      destruct (evicted + 1 =? n); [apply storage_moves_on_refl|apply IH].
    + apply bind_moves_on; [apply IH|intros; apply storage_moves_on_refl].
Qed.

(** The loop, from a position where fewer unpinned entries than requested
    lie before a given entry, gets to that entry: the pinned entries
    before it are kept, the unpinned ones are counted. *)
Lemma evict_loop_reach (n : Z) (x : string * CacheEntry) (after : StdMap.t) :
  forall (before : StdMap.t) (evicted : Z) (w : World),
    evicted + count_unpinned before < n ->
    exists wk,
      storage_moves_on w wk /\
      eval (evict_loop (before ++ x :: after) evicted n) w =
        (filter pinned before ++
           fst (eval (evict_loop (x :: after)
                                 (evicted + count_unpinned before) n) wk),
         snd (eval (evict_loop (x :: after)
                               (evicted + count_unpinned before) n) wk)) /\
      exec (evict_loop (before ++ x :: after) evicted n) w =
        exec (evict_loop (x :: after) (evicted + count_unpinned before) n) wk.
Proof.
  unfold count_unpinned.
  induction before as [|[name ce] before IH]; intros evicted w Hn.
  - exists w. cbn [filter List.length app]. rewrite Z.add_0_r.
    split; [apply storage_moves_on_refl|].
    split; [|reflexivity].
    destruct (eval (evict_loop (x :: after) evicted n) w) as [kept c].
    reflexivity.
  - cbn [app]. cbn [evict_loop]. cbn [filter] in *.
    unfold pinned, unpinned in *. cbn [snd] in *.
    destruct (pin_count_ ce =? 0) eqn:Hp; cbn [negb].
    + cbn [List.length] in Hn. rewrite Nat2Z.inj_succ in Hn.
      rewrite !exec_bind, !eval_bind.
      set (w2 := exec (CacheEntry_dtor ce) (exec (evict_flush name ce) w)).
      assert (Hw2 : storage_moves_on w w2).
      { eapply storage_moves_on_trans;
          [apply evict_flush_moves_on|apply CacheEntry_dtor_moves_on]. }
      destruct (evicted + 1 =? n) eqn:E; [apply Z.eqb_eq in E; lia|].
      destruct (IH (evicted + 1) w2 ltac:(lia)) as (wk & M1 & M2 & M3).
      exists wk. cbn [List.length]. rewrite Nat2Z.inj_succ.
      replace (evicted + Z.succ (Z.of_nat (List.length
                 (filter (fun kv => pin_count_ (snd kv) =? 0) before))))
        with (evicted + 1 + Z.of_nat (List.length
                 (filter (fun kv => pin_count_ (snd kv) =? 0) before))) by lia.
      split; [eapply storage_moves_on_trans; eassumption|].
      split; assumption.
    + rewrite !exec_bind, !eval_bind. rewrite exec_ret, eval_ret.
      destruct (IH evicted w Hn) as (wk & M1 & M2 & M3).
      exists wk. split; [exact M1|]. split; [|exact M3].
      rewrite M2. reflexivity.
Qed.

(** The whole of [evict_cache_entries] seen from one unpinned entry that
    the loop gets to: the world [wk] in which its turn starts, the world
    [we] after its flush and its destruction, and the final world. *)
Lemma evict_cache_entries_at (w : World) (n : Z) (before after : StdMap.t)
      (name : string) (ce : CacheEntry) :
  file_cache_ w = before ++ (name, ce) :: after ->
  count_unpinned before < n ->
  pin_count_ ce = 0 ->
  let w' := exec (evict_cache_entries n) w in
  exists wk after',
    storage_moves_on w wk /\
    storage_moves_on (exec (evict_flush name ce ;; CacheEntry_dtor ce) wk) w' /\
    file_cache_ w' = filter pinned before ++ after' /\
    (forall kv, In kv after' -> In kv after) /\
    StdMap.size after' <= StdMap.size after.
Proof.
  intros Ht Hn Hp. cbn zeta.
  destruct (@evict_loop_reach n (name, ce) after before 0 w ltac:(lia))
    as (wk & M1 & M2 & M3).
  cbn [Z.add] in M2, M3.
  set (c := count_unpinned before) in *.
  assert (Hhead :
    let we := exec (evict_flush name ce ;; CacheEntry_dtor ce) wk in
    storage_moves_on we (exec (evict_loop ((name, ce) :: after) c n) wk) /\
    (forall kv, In kv (fst (eval (evict_loop ((name, ce) :: after) c n) wk)) ->
                In kv after) /\
    StdMap.size (fst (eval (evict_loop ((name, ce) :: after) c n) wk))
      <= StdMap.size after).
  { cbn zeta. cbn [evict_loop]. apply Z.eqb_eq in Hp. rewrite Hp.
    rewrite !exec_bind, !eval_bind.
    set (we := exec (CacheEntry_dtor ce) (exec (evict_flush name ce) wk)).
    destruct (c + 1 =? n).
    - rewrite exec_ret, eval_ret. cbn [fst].
      split; [apply storage_moves_on_refl|]. split; [auto|lia].
    - split; [apply evict_loop_moves_on|].
      destruct (evict_loop_spec n after (c + 1) we) as (_ & K2 & K3 & K4 & _).
      split; [exact K2|lia]. }
  cbn zeta in Hhead. destruct Hhead as (H1 & H2 & H3).
  exists wk, (fst (eval (evict_loop ((name, ce) :: after) c n) wk)).
  split; [exact M1|].
  assert (Hfinal : exec (evict_cache_entries n) w =
                   set_file_cache
                     (fst (eval (evict_loop (file_cache_ w) 0 n) w))
                     (exec (evict_loop (file_cache_ w) 0 n) w)).
  { unfold evict_cache_entries. rewrite !exec_bind. reflexivity. }
  rewrite Hfinal, Ht, M2, M3. cbn [fst].
  split; [|split; [reflexivity|split; assumption]].
  destruct H1 as (A & B & C & D). repeat split; assumption.
Qed.

Lemma find_not_in_keys k (m : StdMap.t) :
  ~ In k (keys m) -> StdMap.find k m = None.
Proof.
  induction m as [|[k' v] m IH]; cbn; [reflexivity|].
  intros H. destruct (String.eqb_spec k k') as [->|_].
  - exfalso. apply H. left; reflexivity.
  - apply IH. intros Hi. apply H. right; exact Hi.
Qed.

Lemma filter_length_bound {A : Type} (f : A -> bool) (l : list A) :
  (List.length (filter f l) <= List.length l)%nat.
Proof.
  induction l as [|a l IH]; cbn; [lia|]. destruct (f a); cbn; lia.
Qed.

(** C9. A dirty, unpinned entry that the eviction loop gets to (fewer
    unpinned entries than requested come before it) and whose write fails
    (every file its descriptor may designate fails on write): the line
    "Error writing file <name> : <strerror>" is on standard error, and the
    entry is erased all the same: the table is the pinned entries before
    it followed by entries from after it, it is strictly smaller, and in a
    table with distinct keys the name is no longer found. *)
Theorem evict_cache_entries_write_failure :
  forall (w : World) (n : Z) (before after : StdMap.t)
         (name : string) (ce : CacheEntry),
    file_cache_ w = before ++ (name, ce) :: after ->
    count_unpinned before < n ->
    pin_count_ ce = 0 ->
    dirty_ ce = true ->
    (forall nm, In (fd_ ce, nm) (open_fds w) -> write_fails (faults w) nm = true) ->
    let w' := exec (evict_cache_entries n) w in
    In (message ["Error writing file "; name; " : "; strerror_errno (faults w)])
       (stderr_ w') /\
    (exists after',
        file_cache_ w' = filter pinned before ++ after' /\
        forall kv, In kv after' -> In kv after) /\
    StdMap.size (file_cache_ w') < StdMap.size (file_cache_ w) /\
    (NoDup (keys (file_cache_ w)) -> StdMap.find name (file_cache_ w') = None).
Proof.
  intros w n before after name ce Ht Hn Hp Hd Hf. cbn zeta.
  destruct (@evict_cache_entries_at w n before after name ce Ht Hn Hp)
    as (wk & after' & M1 & M2 & M3 & M4 & M5).
  destruct M1 as (F1 & O1 & _ & _).
  destruct (@evict_dirty_entry_effect name ce wk Hp Hd) as (r1 & r2 & R1 & _ & S & _).
  assert (Hr : r1 = -1).
  { rewrite R1. apply write_fails_result. intros nm Hin.
    rewrite F1. apply Hf. apply O1. exact Hin. }
  destruct (S ltac:(lia)) as (l & Sl).
  destruct M2 as (_ & _ & (l' & S') & _).
  split; [|split; [|split]].
  - rewrite S', Sl, F1. apply in_or_app. left. apply in_or_app. right.
    left. reflexivity.
  - exists after'. split; assumption.
  - rewrite M3, Ht. unfold StdMap.size in *. rewrite !length_app.
    cbn [List.length]. pose proof (filter_length_bound pinned before). lia.
  - intros Hnd. apply find_not_in_keys. rewrite M3. unfold keys in *.
    rewrite Ht in Hnd. rewrite map_app in *. cbn [map fst] in Hnd.
    apply NoDup_remove_2 in Hnd. intros Hi. apply Hnd.
    apply in_app_or in Hi. apply in_or_app. destruct Hi as [Hi|Hi].
    + left. apply in_map_iff in Hi. destruct Hi as (kv & E & Hi).
      apply filter_In in Hi. apply in_map_iff. exists kv. tauto.
    + right. apply in_map_iff in Hi. destruct Hi as (kv & E & Hi).
      apply in_map_iff. exists kv. split; [exact E|apply M4; exact Hi].
Qed.

Lemma evict_cache_entries_write_failure_witness :
  let w' := exec (evict_cache_entries 1) world_unflushable in
  In (message ["Error writing file "; "b"; " : "; "Input/output error"])
     (stderr_ w') /\
  (exists after',
      file_cache_ w' = filter pinned [("a", entry 1 true 3)] ++ after' /\
      forall kv, In kv after' -> In kv []) /\
  StdMap.size (file_cache_ w') < StdMap.size (file_cache_ world_unflushable) /\
  (NoDup (keys (file_cache_ world_unflushable)) ->
   StdMap.find "b" (file_cache_ w') = None).
Proof.
  apply (@evict_cache_entries_write_failure world_unflushable 1
           [("a", entry 1 true 3)] [] "b" (entry 0 true 4)).
  - reflexivity.
  - vm_compute. reflexivity.
  - reflexivity.
  - reflexivity.
  - intros nm _. reflexivity.
Defined.

(** What that eviction leaves behind. *)
Example evict_unflushable_run :
  let w' := exec (evict_cache_entries 1) world_unflushable in
  keys (file_cache_ w') = ["a"] /\
  stderr_ w' = ["Error writing file b : Input/output error";
                "Error writing file  : Input/output error"] /\
  disk w' = [("a", []); ("b", [])].
Proof. cbn zeta. repeat split. Qed.

(** C10. A dirty, unpinned entry that the eviction loop gets to has its
    buffer written twice: the trace of [evict_cache_entries] holds, in a
    row, the seek and the write of the loop, the seek and the write of
    the destructor that [erase] runs (the loop left [dirty_] set), and the
    close of the descriptor. *)
Theorem evict_cache_entries_writes_twice :
  forall (w : World) (n : Z) (before after : StdMap.t)
         (name : string) (ce : CacheEntry),
    file_cache_ w = before ++ (name, ce) :: after ->
    count_unpinned before < n ->
    pin_count_ ce = 0 ->
    dirty_ ce = true ->
    let w' := exec (evict_cache_entries n) w in
    exists pre post r1 r2,
      trace w' =
      trace w ++ pre ++
      [SysLseek (fd_ ce); SysWrite (fd_ ce) (file_buf_ ce) r1;
       SysLseek (fd_ ce); SysWrite (fd_ ce) (file_buf_ ce) r2;
       SysClose (fd_ ce)] ++ post.
Proof.
  intros w n before after name ce Ht Hn Hp Hd. cbn zeta.
  destruct (@evict_cache_entries_at w n before after name ce Ht Hn Hp)
    as (wk & after' & M1 & M2 & _).
  destruct M1 as (_ & _ & _ & (pre & T1)).
  destruct (@evict_dirty_entry_effect name ce wk Hp Hd) as (r1 & r2 & _ & T & _).
  destruct M2 as (_ & _ & _ & (post & T2)).
  exists pre, post, r1, r2. rewrite T2, T, T1. rewrite <- !app_assoc.
  reflexivity.
Qed.

Lemma evict_cache_entries_writes_twice_witness :
  let w' := exec (evict_cache_entries 1) world_dirty in
  exists pre post r1 r2,
    trace w' =
    trace world_dirty ++ pre ++
    [SysLseek 4; SysWrite 4 (repeat char_0 4) r1;
     SysLseek 4; SysWrite 4 (repeat char_0 4) r2;
     SysClose 4] ++ post.
Proof.
  apply (@evict_cache_entries_writes_twice world_dirty 1
           [("a", entry 1 true 3)] [] "b" (entry 0 true 4)).
  - reflexivity.
  - vm_compute. reflexivity.
  - reflexivity.
  - reflexivity.
Defined.

(** The trace of that eviction, in full. *)
Example evict_dirty_run :
  trace (exec (evict_cache_entries 1) world_dirty) =
  [SysLseek 4; SysWrite 4 (repeat char_0 4) FILE_SIZE;
   SysLseek 4; SysWrite 4 (repeat char_0 4) FILE_SIZE; SysClose 4].
Proof. reflexivity. Qed.

(* ===================================================================== *)
(** ** UnpinFiles *)
(* ===================================================================== *)

Lemma find_update_same k f (m : StdMap.t) :
  StdMap.find k (StdMap.update k f m) = option_map f (StdMap.find k m).
Proof.
  induction m as [|[k' v] m IH]; cbn; [reflexivity|].
  destruct (String.eqb k k') eqn:E; cbn; rewrite E; auto.
Qed.

Lemma find_update_other k k' f (m : StdMap.t) :
  k <> k' -> StdMap.find k (StdMap.update k' f m) = StdMap.find k m.
Proof.
  intros Hne. induction m as [|[k0 v] m IH]; cbn; [reflexivity|].
  destruct (String.eqb k' k0) eqn:E; cbn.
  - apply String.eqb_eq in E. subst k0.
    destruct (String.eqb_spec k k'); [contradiction|reflexivity].
  - destruct (String.eqb k k0); auto.
Qed.

(** The loop touches nothing but the table. *)
Lemma unpin_loop_frame (file_vec : list string) :
  forall (flag : bool) (w : World),
    exec (unpin_loop file_vec flag) w =
    set_file_cache (file_cache_ (exec (unpin_loop file_vec flag) w)) w.
Proof.
  induction file_vec as [|name rest IH]; intros flag w.
  - destruct w; reflexivity.
  - cbn [unpin_loop]. rewrite exec_bind, exec_gets, eval_gets.
    destruct (StdMap.find name (file_cache_ w)) as [ce|].
    + rewrite exec_bind. rewrite IH at 1. reflexivity.
    + apply IH.
Qed.

(** Every resident name is decremented once per occurrence. *)
Lemma unpin_loop_table (file_vec : list string) :
  forall (flag : bool) (w : World) (k : string),
    StdMap.find k (file_cache_ (exec (unpin_loop file_vec flag) w)) =
    option_map (Nat.iter (count_occ string_dec file_vec k) pin_decr)
               (StdMap.find k (file_cache_ w)).
Proof.
  induction file_vec as [|name rest IH]; intros flag w k.
  - cbn. destruct (StdMap.find k (file_cache_ w)); reflexivity.
  - cbn [unpin_loop count_occ]. rewrite exec_bind, exec_gets, eval_gets.
    destruct (StdMap.find name (file_cache_ w)) as [ce|] eqn:F.
    + rewrite exec_bind, IH.
      change (file_cache_ (exec (update_entry name pin_decr) w))
        with (StdMap.update name pin_decr (file_cache_ w)).
      destruct (string_dec name k) as [->|Hne].
      * rewrite find_update_same.
        destruct (StdMap.find k (file_cache_ w)); [|reflexivity].
        cbn [option_map]. now rewrite Nat.iter_succ_r.
      * rewrite find_update_other by congruence. reflexivity.
    + rewrite IH. destruct (string_dec name k) as [->|Hne]; [|reflexivity].
      rewrite F. reflexivity.
Qed.

(** The flag the loop returns. *)
Lemma unpin_loop_flag (file_vec : list string) :
  forall (flag : bool) (w : World),
    eval (unpin_loop file_vec flag) w = true <->
    flag = true \/ reaches_zero file_vec (file_cache_ w).
Proof.
  unfold reaches_zero.
  induction file_vec as [|name rest IH]; intros flag w.
  - cbn. split; [auto|]. intros [H|(l1 & nm & l2 & ce & E & _)]; [exact H|].
    destruct l1; discriminate.
  - cbn [unpin_loop]. rewrite eval_bind, exec_gets, eval_gets.
    destruct (StdMap.find name (file_cache_ w)) as [ce|] eqn:F.
    + rewrite eval_bind, IH.
      change (file_cache_ (exec (update_entry name pin_decr) w))
        with (StdMap.update name pin_decr (file_cache_ w)).
      split.
      * intros [H|(l1 & nm & l2 & ce1 & E & F1 & P)].
        -- destruct (pin_count_ (pin_decr ce) =? 0) eqn:Z0; [|auto].
           right. exists [], name, rest, ce. cbn. apply Z.eqb_eq in Z0. auto.
        -- right. exists (name :: l1), nm, l2.
           destruct (string_dec name nm) as [->|Hne].
           ++ rewrite find_update_same, F in F1. cbn in F1.
              injection F1 as <-. exists ce. split; [now rewrite E|].
              split; [exact F|]. cbn [count_occ].
              destruct (string_dec nm nm); [|contradiction].
              rewrite Nat.iter_succ_r. exact P.
           ++ rewrite find_update_other in F1 by congruence.
              exists ce1. split; [now rewrite E|]. split; [exact F1|].
              cbn [count_occ]. destruct (string_dec name nm); [contradiction|].
              exact P.
      * intros [H|(l1 & nm & l2 & ce1 & E & F1 & P)].
        -- left. rewrite H. destruct (_ =? _); reflexivity.
        -- destruct l1 as [|x l1].
           ++ cbn in E. injection E as <- <-. rewrite F in F1.
              injection F1 as <-.
              change (pin_count_ (pin_decr ce) = 0) in P. left.
              apply Z.eqb_eq in P. rewrite P. reflexivity.
           ++ cbn in E. injection E as <- ->. right.
              exists l1, nm, l2.
              destruct (string_dec name nm) as [->|Hne].
              ** rewrite F in F1. injection F1 as <-.
                 exists (pin_decr ce). split; [reflexivity|].
                 rewrite find_update_same, F. split; [reflexivity|].
                 cbn [count_occ] in P.
                 destruct (string_dec nm nm); [|contradiction].
                 rewrite Nat.iter_succ_r in P. exact P.
              ** exists ce1. split; [reflexivity|].
                 rewrite find_update_other by congruence.
                 split; [exact F1|]. cbn [count_occ] in P.
                 destruct (string_dec name nm); [contradiction|]. exact P.
    + rewrite IH. split.
      * intros [H|(l1 & nm & l2 & ce1 & E & F1 & P)]; [auto|].
        right. exists (name :: l1), nm, l2, ce1.
        split; [now rewrite E|]. split; [exact F1|].
        cbn [count_occ]. destruct (string_dec name nm) as [->|_]; [congruence|].
        exact P.
      * intros [H|(l1 & nm & l2 & ce1 & E & F1 & P)]; [auto|].
        destruct l1 as [|x l1].
        -- cbn in E. injection E as <- <-. congruence.
        -- cbn in E. injection E as <- ->. right.
           exists l1, nm, l2, ce1. split; [reflexivity|]. split; [exact F1|].
           cbn [count_occ] in P.
           destruct (string_dec name nm) as [->|_]; [congruence|]. exact P.
Qed.

(** Without wrap-around, [c] decrements take [c] off the count. *)
Lemma pin_decr_iter (c : nat) (ce : CacheEntry) :
  Z.of_nat c <= pin_count_ ce < 2 ^ 32 ->
  Nat.iter c pin_decr ce = set_pin_count (pin_count_ ce - Z.of_nat c) ce.
Proof.
  induction c as [|c IH]; intros H.
  - destruct ce. cbn. unfold set_pin_count. cbn. f_equal. lia.
  - rewrite Nat.iter_succ, IH by lia.
    unfold pin_decr, set_pin_count, to_uint32. cbn [pin_count_ file_buf_ dirty_ fd_].
    f_equal. rewrite Nat2Z.inj_succ. rewrite Z.mod_small by lia. lia.
Qed.

(** C7. UnpinFiles takes one pin off every resident name for each of its
    occurrences in the argument (exactly so when the caller does not unpin
    below zero, counts being [uint32_t]), leaves other names absent, and,
    once the whole batch is done, broadcasts on [cv_] if and only if some
    decrement brought a count to zero: then every call parked on [cv_] is
    released; otherwise nothing is signalled and the waiters stay. *)
Theorem UnpinFiles_decrements_and_broadcasts :
  forall (file_vec : list string) (w : World),
    let w' := exec (UnpinFiles file_vec) w in
    (forall name ce,
        StdMap.find name (file_cache_ w) = Some ce ->
        Z.of_nat (count_occ string_dec file_vec name) <= pin_count_ ce < 2 ^ 32 ->
        StdMap.find name (file_cache_ w') =
        Some (set_pin_count
                (pin_count_ ce - Z.of_nat (count_occ string_dec file_vec name)) ce)) /\
    (forall name,
        StdMap.find name (file_cache_ w) = None ->
        StdMap.find name (file_cache_ w') = None) /\
    (reaches_zero file_vec (file_cache_ w) ->
     trace w' = trace w ++ [CvNotifyAll] /\
     cv_waiting w' = [] /\
     cv_woken w' = cv_woken w ++ cv_waiting w) /\
    (~ reaches_zero file_vec (file_cache_ w) ->
     trace w' = trace w /\
     cv_waiting w' = cv_waiting w /\
     cv_woken w' = cv_woken w).
Proof.
  intros fv w. cbn zeta. unfold UnpinFiles. rewrite exec_bind.
  pose proof (unpin_loop_frame fv false w) as Fr.
  pose proof (unpin_loop_table fv false w) as Tb.
  pose proof (unpin_loop_flag fv false w) as Fl.
  set (w1 := exec (unpin_loop fv false) w) in *.
  assert (Tw : file_cache_
                 (exec (if eval (unpin_loop fv false) w then cv_notify_all
                        else ret tt) w1) = file_cache_ w1).
  { destruct (eval (unpin_loop fv false) w); reflexivity. }
  split; [|split; [|split]].
  - intros name ce F Hc. rewrite Tw, Tb, F. cbn [option_map].
    now rewrite pin_decr_iter.
  - intros name F. rewrite Tw, Tb, F. reflexivity.
  - intros Hz. destruct Fl as [_ Fl]. rewrite (Fl (or_intror Hz)).
    rewrite Fr. repeat split.
  - intros Hz. destruct (eval (unpin_loop fv false) w) eqn:E.
    + exfalso. destruct Fl as [Fl _]. destruct (Fl eq_refl) as [H|H];
        [discriminate|exact (Hz H)].
    + rewrite exec_ret, Fr. repeat split.
Qed.

Lemma UnpinFiles_decrements_and_broadcasts_witness :
  let w := world_two_parked in
  let w' := exec (UnpinFiles ["a"; "b"; "zz"]) w in
  StdMap.find "a" (file_cache_ w') = Some (set_pin_count (2 - 1) (entry 2 false 3)) /\
  (trace w' = trace w ++ [CvNotifyAll] /\
   cv_waiting w' = [] /\
   cv_woken w' = cv_woken w ++ cv_waiting w).
Proof.
  intros w w'.
  destruct (UnpinFiles_decrements_and_broadcasts ["a"; "b"; "zz"] w)
    as (A & _ & C & _).
  split.
  - apply (A "a" (entry 2 false 3)); [reflexivity|vm_compute; split; congruence].
  - apply C. exists ["a"], "b", ["zz"], (entry 1 true 4).
    repeat split.
Defined.

(** One call: ["b"] reaches zero, so the two parked calls are released. *)
Example UnpinFiles_run :
  let w := world_two_parked in
  let w' := exec (UnpinFiles ["a"; "b"; "zz"]) w in
  pins (file_cache_ w') = [("a", 1); ("b", 0)] /\
  trace w' = [CvNotifyAll] /\
  cv_waiting w' = [] /\ cv_woken w' = [["c"]; ["d"; "e"]].
Proof. cbn zeta. repeat split. Qed.

(** No count reaches zero: no broadcast. *)
Example UnpinFiles_quiet_run :
  let w := mkWorld 3 [("a", entry 2 false 3); ("b", entry 1 true 4)]
                   [["c"]] [] [] [(4, "b"); (3, "a")] no_faults [] [] in
  let w' := exec (UnpinFiles ["a"]) w in
  pins (file_cache_ w') = [("a", 1); ("b", 1)] /\
  trace w' = [] /\ cv_waiting w' = [["c"]].
Proof. cbn zeta. repeat split. Qed.

(* ===================================================================== *)
(** ** The fill phase *)
(* ===================================================================== *)

Lemma fill_loop_budget (files_not_pinned : StdSet.t) :
  forall (empty_cache_entries : Z) (w : World),
    let k := fill_attempts files_not_pinned empty_cache_entries in
    fill_loop files_not_pinned empty_cache_entries w =
    (skipn k files_not_pinned, exec (create_each (firstn k files_not_pinned)) w).
Proof.
  unfold fill_attempts, StdSet.size.
  induction files_not_pinned as [|name rest IH]; intros empty w; cbn zeta.
  - rewrite skipn_nil, firstn_nil. reflexivity.
  - cbn [fill_loop]. destruct (0 <? empty) eqn:He.
    + apply Z.ltb_lt in He.
      replace (Z.to_nat (Z.min (Z.of_nat (List.length (name :: rest))) empty))
        with (S (Z.to_nat (Z.min (Z.of_nat (List.length rest)) (empty - 1))))
        by (cbn [List.length]; lia).
      cbn [skipn firstn create_each]. rewrite exec_bind.
      unfold bind at 1. rewrite (run_pair (add_cache_entry name) w).
      destruct rest as [|name' rest'].
      * rewrite skipn_nil, firstn_nil. reflexivity.
      * apply IH.
    + apply Z.ltb_ge in He.
      replace (Z.to_nat (Z.min (Z.of_nat (List.length (name :: rest))) empty))
        with O by lia.
      reflexivity.
Qed.

(** What [fill_up_cache] does, failures included. The local
    [empty_cache_entries] is read once, on entry, and counts attempts, not
    entries created: [add_cache_entry] is called for that many names of the
    pending set at most, in order; each attempted name leaves the set,
    whether its entry was created or not, and the others stay in it. A
    name whose [open] or [read] fails leaves the table as it was and puts
    one line on standard error. *)
Lemma fill_up_cache_budget :
  forall (files_not_pinned : StdSet.t) (w : World),
    0 <= max_cache_entries_ w <= INT_MAX ->
    StdMap.size (file_cache_ w) <= max_cache_entries_ w ->
    let k := fill_attempts files_not_pinned
               (max_cache_entries_ w - StdMap.size (file_cache_ w)) in
    fill_up_cache files_not_pinned w =
      (skipn k files_not_pinned,
       exec (create_each (firstn k files_not_pinned)) w) /\
    (forall name w0,
        open_fails (faults w0) name = true \/ read_fails (faults w0) name = true ->
        file_cache_ (exec (add_cache_entry name) w0) = file_cache_ w0 /\
        exists line, stderr_ (exec (add_cache_entry name) w0) = stderr_ w0 ++ [line]).
Proof.
  intros fnp w Hc Hi. cbn zeta. split.
  - unfold fill_up_cache, bind, gets.
    rewrite int_minus_size_small;
      [apply fill_loop_budget|unfold StdMap.size in *; lia|lia].
  - intros name w0 Hf.
    destruct (open_fails (faults w0) name) eqn:Ho.
    + unfold exec. rewrite (add_cache_entry_open_fails name w0 Ho).
      cbn. split; [reflexivity|eexists; reflexivity].
    + destruct Hf as [Hf|Hr]; [discriminate|].
      destruct (add_cache_entry_read_fails name w0 Ho Hr) as (A & B & _).
      split; [exact A|eexists; exact B].
Qed.

Lemma fill_up_cache_budget_witness :
  fill_up_cache ["a"; "b"] world_one_free_slot =
    (skipn 1 ["a"; "b"],
     exec (create_each (firstn 1 ["a"; "b"])) world_one_free_slot) /\
  (forall name w0,
      open_fails (faults w0) name = true \/ read_fails (faults w0) name = true ->
      file_cache_ (exec (add_cache_entry name) w0) = file_cache_ w0 /\
      exists line, stderr_ (exec (add_cache_entry name) w0) = stderr_ w0 ++ [line]).
Proof.
  apply (@fill_up_cache_budget ["a"; "b"] world_one_free_slot).
  - cbn. unfold INT_MAX. lia.
  - cbn. lia.
Defined.

(** C6 (the code departs from the claim). One entry is resident and
    pinned, one slot is free, and two names are pending, of which the
    first cannot be opened. [fill_up_cache] counts the failed attempt
    against the free slots ([empty_cache_entries--] runs whether or not
    [add_cache_entry] inserted an entry): the loop stops after it, the
    second name is never attempted although the table still has a free
    slot, and the error is on standard error only. The [PinFiles] call
    then goes to wait on [cv_] for an eviction that no free slot needs,
    while the same healthy name, pinned on its own, is loaded at once. *)
Theorem fill_up_cache_stops_with_free_slot :
  let w := world_one_free_slot in
  let w' := exec (fill_up_cache ["a"; "b"]) w in
  eval (fill_up_cache ["a"; "b"]) w = ["b"] /\
  keys (file_cache_ w') = ["c"] /\
  0 < max_cache_entries_ w' - StdMap.size (file_cache_ w') /\
  stderr_ w' = ["Error opening file a : Permission denied"] /\
  eval (PinFiles ["a"; "b"]) w = PinWait ["b"] /\
  trace (exec (PinFiles ["a"; "b"]) w) = [SysOpen "a" (-1)] /\
  eval (PinFiles ["b"]) w = PinReturn /\
  pins (file_cache_ (exec (PinFiles ["b"]) w)) = [("b", 1); ("c", 1)].
Proof. cbn zeta. repeat split. Qed.

(** The same from the constructed cache: [FileCacheImpl(2)], then
    [PinFiles({"c"})], then [PinFiles({"a", "b"})] with ["a"] unopenable.
    The second call parks with ["b"] pending and one slot free; with every
    resident entry pinned, only an [UnpinFiles] of another thread can
    release it. *)
Example PinFiles_parks_healthy_name_run :
  let w := run [CallPinFiles ["c"]] (FileCacheImpl_ctor 2 [] a_unopenable) in
  let w' := exec (PinFiles ["a"; "b"]) w in
  pins (file_cache_ w) = [("c", 1)] /\
  eval (PinFiles ["a"; "b"]) w = PinWait ["b"] /\
  pins (file_cache_ w') = [("c", 1)] /\
  StdMap.size (file_cache_ w') < max_cache_entries_ w' /\
  cv_waiting w' = [["b"]] /\
  stderr_ w' = ["Error opening file a : Permission denied"] /\
  Sys.lookup "b" (disk w') = None.
Proof. cbn zeta. repeat split; vm_compute; reflexivity. Qed.

(* ===================================================================== *)
(** ** Destruction *)
(* ===================================================================== *)

(** The destructor of a pinned entry does nothing. *)
Lemma CacheEntry_dtor_pinned (ce : CacheEntry) (w : World) :
  pin_count_ ce <> 0 -> CacheEntry_dtor ce w = (tt, w).
Proof.
  intros H. unfold CacheEntry_dtor. apply Z.eqb_neq in H. rewrite H. reflexivity.
Qed.

(** Destroying a cache whose entries are all pinned writes nothing and
    closes nothing. *)
Lemma FileCacheImpl_dtor_all_pinned (w : World) :
  Forall (fun kv => pin_count_ (snd kv) <> 0) (file_cache_ w) ->
  exec FileCacheImpl_dtor w = set_file_cache [] w.
Proof.
  intros H. unfold FileCacheImpl_dtor. rewrite !exec_bind, exec_gets, eval_gets.
  rewrite exec_modify. f_equal.
  induction H as [|[name ce] rest Hp _ IH]; [reflexivity|].
  cbn [destroy_entries]. rewrite exec_bind, IH. unfold exec.
  rewrite (@CacheEntry_dtor_pinned ce w Hp). reflexivity.
Qed.

(** C4 (the code departs from the claim). A file is pinned, obtained for
    writing and written to, and the cache is destroyed while the pin is
    still held: the entry is dirty, and the destructor issues no write and
    no close; the file on storage keeps its old (empty) contents. *)
Theorem FileCacheImpl_dtor_skips_pinned_dirty :
  let w := run [CallPinFiles ["a"]; CallMutableFileData "a";
                StoreThroughPointer "a" [x61; x62]]
               (FileCacheImpl_ctor 1 [] no_faults) in
  let w' := exec FileCacheImpl_dtor w in
  map (fun kv => (fst kv, pin_count_ (snd kv), dirty_ (snd kv),
                  firstn 3 (file_buf_ (snd kv)))) (file_cache_ w)
    = [("a", 1, true, [x61; x62; x30])] /\
  trace w = [SysOpen "a" 3; SysLseek 3; SysRead 3 0] /\
  trace w' = trace w /\
  disk w' = [("a", [])] /\
  open_fds w' = [(3, "a")] /\
  file_cache_ w' = [].
Proof. cbn zeta. repeat split; vm_compute; reflexivity. Qed.

(** With the pin released first, the same destruction does flush. *)
Example FileCacheImpl_dtor_flushes_unpinned :
  let w := run [CallPinFiles ["a"]; CallMutableFileData "a";
                StoreThroughPointer "a" [x61; x62]; CallUnpinFiles ["a"]]
               (FileCacheImpl_ctor 1 [] no_faults) in
  let w' := exec FileCacheImpl_dtor w in
  option_map (firstn 3) (Sys.lookup "a" (disk w')) = Some [x61; x62; x30] /\
  open_fds w' = [].
Proof. cbn zeta. repeat split; vm_compute; reflexivity. Qed.

(* ===================================================================== *)
(** ** Further properties: the table as a map *)
(* ===================================================================== *)

Lemma compare_refl (k : string) : String.compare k k = Eq.
Proof.
  pose proof (String.compare_antisym k k) as H.
  destruct (String.compare k k); [reflexivity|discriminate|discriminate].
Qed.

Lemma compare_not_eq (k k' : string) :
  String.compare k k' <> Eq -> String.eqb k k' = false.
Proof.
  intros H. apply String.eqb_neq. intros ->. apply H, compare_refl.
Qed.

Lemma find_insert_new k v (m : StdMap.t) :
  StdMap.find k m = None -> StdMap.find k (StdMap.insert k v m) = Some v.
Proof.
  induction m as [|[k' v'] m IH]; cbn.
  - intros _. now rewrite String.eqb_refl.
  - destruct (String.eqb k k') eqn:E; [discriminate|]. intros H.
    destruct (String.compare k k') eqn:C; cbn.
    + apply String.compare_eq_iff in C. apply String.eqb_neq in E. contradiction.
    + now rewrite String.eqb_refl.
    + rewrite E. apply IH, H.
Qed.

Lemma find_insert_other k0 k v (m : StdMap.t) :
  k0 <> k -> StdMap.find k0 (StdMap.insert k v m) = StdMap.find k0 m.
Proof.
  intros Hne. induction m as [|[k' v'] m IH]; cbn.
  - apply String.eqb_neq in Hne. now rewrite Hne.
  - destruct (String.compare k k') eqn:C; cbn.
    + reflexivity.
    + apply String.eqb_neq in Hne. now rewrite Hne.
    + destruct (String.eqb k0 k'); [reflexivity|apply IH].
Qed.

(** Whatever the table, after [insert] the key is found: with the new
    value or with one that was there. *)
Lemma find_insert_some k v (m : StdMap.t) :
  exists x, StdMap.find k (StdMap.insert k v m) = Some x /\
            (x = v \/ StdMap.find k m = Some x).
Proof.
  induction m as [|[k' v'] m IH]; cbn.
  - exists v. rewrite String.eqb_refl. auto.
  - destruct (String.compare k k') eqn:C; cbn.
    + apply String.compare_eq_iff in C. subst k'. rewrite String.eqb_refl.
      exists v'. auto.
    + rewrite String.eqb_refl. exists v. auto.
    + rewrite compare_not_eq by congruence. exact IH.
Qed.

Lemma update_keys k f (m : StdMap.t) : keys (StdMap.update k f m) = keys m.
Proof.
  unfold keys. induction m as [|[k' v] m IH]; cbn; [reflexivity|].
  destruct (String.eqb k k'); cbn; congruence.
Qed.

Lemma update_absent k f (m : StdMap.t) :
  StdMap.find k m = None -> StdMap.update k f m = m.
Proof.
  induction m as [|[k' v] m IH]; cbn; [reflexivity|].
  destruct (String.eqb k k'); [discriminate|]. intros H. now rewrite IH.
Qed.

Lemma update_pins k f (m : StdMap.t) :
  (forall ce, pin_count_ (f ce) = pin_count_ ce) ->
  pins (StdMap.update k f m) = pins m.
Proof.
  intros Hf. unfold pins. induction m as [|[k' v] m IH]; cbn; [reflexivity|].
  destruct (String.eqb k k'); cbn; [now rewrite Hf|now rewrite IH].
Qed.

Lemma update_payload k f (m : StdMap.t) :
  (forall ce, file_buf_ (f ce) = file_buf_ ce /\ dirty_ (f ce) = dirty_ ce /\
              fd_ (f ce) = fd_ ce) ->
  payload (StdMap.update k f m) = payload m.
Proof.
  intros Hf. unfold payload. induction m as [|[k' v] m IH]; cbn; [reflexivity|].
  destruct (String.eqb k k'); cbn.
  - destruct (Hf v) as (A & B & C). now rewrite A, B, C.
  - now rewrite IH.
Qed.

Lemma set_file_cache_same (w : World) : set_file_cache (file_cache_ w) w = w.
Proof. destruct w; reflexivity. Qed.

(* ===================================================================== *)
(** ** Further properties: the accessors *)
(* ===================================================================== *)

(** X1. MutableFileData hands out the same bytes as FileData, marks the
    entry of that name dirty and changes nothing else: the other entries,
    the names, the pin counts, the storage and the output stay as they
    were. On a name that is not resident it returns [nullptr] and the
    world is untouched. *)
Theorem MutableFileData_marks_one :
  forall (file_name : string) (w : World),
    let w' := exec (MutableFileData file_name) w in
    eval (MutableFileData file_name) w = eval (FileData file_name) w /\
    exec (FileData file_name) w = w /\
    (forall k, StdMap.find k (file_cache_ w') =
               if String.eqb k file_name
               then option_map (set_dirty true) (StdMap.find k (file_cache_ w))
               else StdMap.find k (file_cache_ w)) /\
    keys (file_cache_ w') = keys (file_cache_ w) /\
    pins (file_cache_ w') = pins (file_cache_ w) /\
    w' = set_file_cache (file_cache_ w') w /\
    match StdMap.find file_name (file_cache_ w) with
    | Some _ => True
    | None => eval (MutableFileData file_name) w = None /\ w' = w
    end.
Proof.
  intros name w. cbn zeta. unfold MutableFileData, FileData.
  autorewrite with monad.
  destruct (StdMap.find name (file_cache_ w)) as [ce|] eqn:F;
    autorewrite with monad.
  - change (file_cache_ (exec (update_entry name (set_dirty true)) w))
      with (StdMap.update name (set_dirty true) (file_cache_ w)).
    repeat split.
    + intros k. destruct (String.eqb_spec k name) as [->|Hne].
      * apply find_update_same.
      * now apply find_update_other.
    + apply update_keys.
    + apply update_pins. reflexivity.
  - repeat split.
    + intros k. destruct (String.eqb_spec k name) as [->|Hne];
        [now rewrite F|reflexivity].
    + symmetry. apply set_file_cache_same.
Qed.

(* ===================================================================== *)
(** ** Further properties: UnpinFiles and the pin counts *)
(* ===================================================================== *)

Lemma unpin_loop_payload (file_vec : list string) :
  forall (flag : bool) (w : World),
    keys (file_cache_ (exec (unpin_loop file_vec flag) w)) = keys (file_cache_ w) /\
    payload (file_cache_ (exec (unpin_loop file_vec flag) w)) = payload (file_cache_ w).
Proof.
  induction file_vec as [|name rest IH]; intros flag w.
  - split; reflexivity.
  - cbn [unpin_loop]. rewrite exec_bind, exec_gets, eval_gets.
    destruct (StdMap.find name (file_cache_ w)) as [ce|].
    + rewrite exec_bind.
      destruct (IH (if pin_count_ (pin_decr ce) =? 0 then true else flag)
                   (exec (update_entry name pin_decr) w)) as (A & B).
      rewrite A, B.
      change (file_cache_ (exec (update_entry name pin_decr) w))
        with (StdMap.update name pin_decr (file_cache_ w)).
      split; [apply update_keys|apply update_payload].
      intros c. repeat split.
    + apply IH.
Qed.

(** X2. UnpinFiles changes pin counts and nothing else: the same names
    stay resident with the same buffers, dirty flags and descriptors, and
    neither the storage nor standard error is touched. In particular it
    never flushes and never clears a dirty flag. *)
Theorem UnpinFiles_only_pin_counts :
  forall (file_vec : list string) (w : World),
    let w' := exec (UnpinFiles file_vec) w in
    keys (file_cache_ w') = keys (file_cache_ w) /\
    payload (file_cache_ w') = payload (file_cache_ w) /\
    disk w' = disk w /\
    open_fds w' = open_fds w /\
    stderr_ w' = stderr_ w /\
    filter is_write (trace w') = filter is_write (trace w) /\
    max_cache_entries_ w' = max_cache_entries_ w.
Proof.
  intros fv w. cbn zeta. unfold UnpinFiles. rewrite exec_bind.
  destruct (unpin_loop_payload fv false w) as (K & P).
  pose proof (unpin_loop_frame fv false w) as Fr.
  set (w1 := exec (unpin_loop fv false) w) in *.
  destruct (eval (unpin_loop fv false) w).
  - change (file_cache_ (exec cv_notify_all w1)) with (file_cache_ w1).
    rewrite K, P. rewrite Fr. cbn. rewrite filter_app. cbn.
    rewrite app_nil_r. repeat split.
  - rewrite exec_ret, K, P, Fr. repeat split.
Qed.

(** X3. Unpinning a resident name whose pin count is already zero wraps
    the [uint32_t] count round to 4294967295, which is not zero: the entry
    has become unevictable, and no broadcast is made. *)
Theorem UnpinFiles_below_zero_wraps :
  forall (file_name : string) (ce : CacheEntry) (w : World),
    StdMap.find file_name (file_cache_ w) = Some ce ->
    pin_count_ ce = 0 ->
    let w' := exec (UnpinFiles [file_name]) w in
    StdMap.find file_name (file_cache_ w') = Some (set_pin_count UINT32_MAX ce) /\
    trace w' = trace w /\
    cv_waiting w' = cv_waiting w /\ cv_woken w' = cv_woken w.
Proof.
  intros name ce w F Hp. cbn zeta.
  unfold UnpinFiles. cbn [unpin_loop].
  rewrite !exec_bind, !eval_bind, exec_gets, eval_gets, F.
  rewrite !exec_bind, !eval_bind, !exec_ret, !eval_ret.
  assert (Hd : pin_decr ce = set_pin_count UINT32_MAX ce).
  { unfold pin_decr. rewrite Hp. reflexivity. }
  rewrite Hd. cbn [pin_count_ set_pin_count UINT32_MAX Z.eqb].
  rewrite exec_ret.
  change (file_cache_ (exec (update_entry name pin_decr) w))
    with (StdMap.update name pin_decr (file_cache_ w)).
  rewrite find_update_same, F. cbn [option_map]. rewrite Hd.
  repeat split.
Qed.

Lemma UnpinFiles_below_zero_wraps_witness :
  let w := world_dirty in
  let w' := exec (UnpinFiles ["b"]) w in
  StdMap.find "b" (file_cache_ w') = Some (set_pin_count UINT32_MAX (entry 0 true 4)) /\
  trace w' = trace w /\
  cv_waiting w' = cv_waiting w /\ cv_woken w' = cv_woken w.
Proof.
  intros w. apply (@UnpinFiles_below_zero_wraps "b" (entry 0 true 4) w);
    reflexivity.
Defined.

(* ===================================================================== *)
(** ** Further properties: PinFiles on resident names *)
(* ===================================================================== *)

Lemma set_insert_In (x k : string) (s : StdSet.t) :
  In x (StdSet.insert k s) <-> x = k \/ In x s.
Proof.
  induction s as [|k' s IH]; cbn.
  - intuition.
  - destruct (String.compare k k') eqn:C; cbn.
    + apply String.compare_eq_iff in C. subst. intuition.
    + intuition.
    + rewrite IH. intuition.
Qed.

Lemma find_update_none x k f (m : StdMap.t) :
  StdMap.find x (StdMap.update k f m) = None <-> StdMap.find x m = None.
Proof.
  destruct (string_dec x k) as [->|Hne].
  - rewrite find_update_same. destruct (StdMap.find k m); cbn; intuition congruence.
  - rewrite find_update_other by assumption. reflexivity.
Qed.

(** The first loop of PinFiles touches nothing but the table. *)
Lemma pin_resident_frame (file_vec : list string) :
  forall (acc : StdSet.t) (w : World),
    exec (pin_resident file_vec acc) w =
    set_file_cache (file_cache_ (exec (pin_resident file_vec acc) w)) w.
Proof.
  induction file_vec as [|name rest IH]; intros acc w.
  - symmetry. apply set_file_cache_same.
  - cbn [pin_resident]. rewrite exec_bind, exec_gets, eval_gets.
    destruct (StdMap.find name (file_cache_ w)).
    + rewrite exec_bind. rewrite IH at 1. reflexivity.
    + apply IH.
Qed.

(** Every resident name gains one pin per occurrence; names, buffers,
    dirty flags and descriptors stay. *)
Lemma pin_resident_table (file_vec : list string) :
  forall (acc : StdSet.t) (w : World),
    let t' := file_cache_ (exec (pin_resident file_vec acc) w) in
    (forall k, StdMap.find k t' =
               option_map (Nat.iter (count_occ string_dec file_vec k) pin_incr)
                          (StdMap.find k (file_cache_ w))) /\
    keys t' = keys (file_cache_ w) /\
    payload t' = payload (file_cache_ w).
Proof.
  induction file_vec as [|name rest IH]; intros acc w; cbn zeta.
  - cbn. repeat split. intros k. destruct (StdMap.find k (file_cache_ w)); reflexivity.
  - cbn [pin_resident count_occ]. rewrite exec_bind, exec_gets, eval_gets.
    destruct (StdMap.find name (file_cache_ w)) as [ce|] eqn:F.
    + rewrite exec_bind.
      destruct (IH acc (exec (update_entry name pin_incr) w)) as (A & B & C).
      change (file_cache_ (exec (update_entry name pin_incr) w))
        with (StdMap.update name pin_incr (file_cache_ w)) in *.
      rewrite B, C. split; [|split].
      * intros k. rewrite A.
        destruct (string_dec name k) as [->|Hne].
        -- rewrite find_update_same.
           destruct (StdMap.find k (file_cache_ w)); [|reflexivity].
           cbn [option_map]. now rewrite Nat.iter_succ_r.
        -- rewrite find_update_other by congruence. reflexivity.
      * apply update_keys.
      * apply update_payload. intros c. repeat split.
    + destruct (IH (StdSet.insert name acc) w) as (A & B & C).
      split; [|split; assumption].
      intros k. rewrite A. destruct (string_dec name k) as [->|Hne]; [|reflexivity].
      rewrite F. reflexivity.
Qed.

(** The names gathered are those given that are not resident. *)
Lemma pin_resident_set (file_vec : list string) :
  forall (acc : StdSet.t) (w : World) (x : string),
    In x (eval (pin_resident file_vec acc) w) <->
    In x acc \/ (In x file_vec /\ StdMap.find x (file_cache_ w) = None).
Proof.
  induction file_vec as [|name rest IH]; intros acc w x.
  - cbn. intuition.
  - cbn [pin_resident]. rewrite eval_bind, exec_gets, eval_gets.
    destruct (StdMap.find name (file_cache_ w)) as [ce|] eqn:F.
    + rewrite eval_bind, IH.
      change (file_cache_ (exec (update_entry name pin_incr) w))
        with (StdMap.update name pin_incr (file_cache_ w)).
      rewrite find_update_none. cbn [In]. split.
      * intuition.
      * intros [H|[[<-|H] N]]; [auto| congruence | auto].
    + rewrite IH, set_insert_In. cbn [In]. split.
      * intros [[->|H]|[H N]]; auto.
      * intros [H|[[<-|H] N]]; auto.
Qed.

Lemma pin_resident_all_resident (file_vec : list string) (w : World) :
  (forall name, In name file_vec -> StdMap.find name (file_cache_ w) <> None) ->
  eval (pin_resident file_vec []) w = [].
Proof.
  intros H. destruct (eval (pin_resident file_vec []) w) as [|x l] eqn:E;
    [reflexivity|].
  exfalso. assert (Hx : In x (eval (pin_resident file_vec []) w))
    by (rewrite E; left; reflexivity).
  apply pin_resident_set in Hx. destruct Hx as [[]|[Hx N]].
  exact (H x Hx N).
Qed.

Lemma size_check_passes (file_vec : list string) (w : World) :
  cap_ok w ->
  Z.of_nat (List.length file_vec) <= max_cache_entries_ w ->
  size_gt_int (Z.of_nat (List.length file_vec)) (max_cache_entries_ w) = false.
Proof.
  unfold cap_ok, size_gt_int, to_size_t, INT_MAX. intros Hc Hl.
  rewrite Z.mod_small by lia. apply Z.ltb_ge. exact Hl.
Qed.

(** PinFiles when every name is resident: only the first loop has work. *)
Lemma PinFiles_all_resident (file_vec : list string) (w : World) :
  cap_ok w ->
  Z.of_nat (List.length file_vec) <= max_cache_entries_ w ->
  (forall name, In name file_vec -> StdMap.find name (file_cache_ w) <> None) ->
  PinFiles file_vec w = (PinReturn, exec (pin_resident file_vec []) w).
Proof.
  intros Hc Hl Hr. unfold PinFiles.
  unfold bind at 1. cbn [gets]. rewrite size_check_passes by assumption.
  unfold bind at 1. rewrite (run_pair (pin_resident file_vec []) w).
  rewrite pin_resident_all_resident by assumption.
  reflexivity.
Qed.

Lemma pin_incr_iter (c : nat) (ce : CacheEntry) :
  0 <= pin_count_ ce -> pin_count_ ce + Z.of_nat c < 2 ^ 32 ->
  Nat.iter c pin_incr ce = set_pin_count (pin_count_ ce + Z.of_nat c) ce.
Proof.
  induction c as [|c IH]; intros H0 H.
  - destruct ce. cbn. unfold set_pin_count. cbn. f_equal. lia.
  - rewrite Nat.iter_succ, IH by lia.
    unfold pin_incr, set_pin_count, to_uint32. cbn [pin_count_ file_buf_ dirty_ fd_].
    f_equal. rewrite Nat2Z.inj_succ. rewrite Z.mod_small by lia. lia.
Qed.

(** X4. PinFiles on names that are all resident returns at once, even
    when the cache is full: each name gains one pin per occurrence in the
    argument, and nothing else happens: no entry is created or evicted,
    no system call is made, nobody waits. *)
Theorem PinFiles_resident_names :
  forall (file_vec : list string) (w : World),
    0 <= max_cache_entries_ w <= INT_MAX ->
    Z.of_nat (List.length file_vec) <= max_cache_entries_ w ->
    (forall name, In name file_vec -> StdMap.find name (file_cache_ w) <> None) ->
    let w' := exec (PinFiles file_vec) w in
    eval (PinFiles file_vec) w = PinReturn /\
    (forall k, StdMap.find k (file_cache_ w') =
               option_map (Nat.iter (count_occ string_dec file_vec k) pin_incr)
                          (StdMap.find k (file_cache_ w))) /\
    keys (file_cache_ w') = keys (file_cache_ w) /\
    payload (file_cache_ w') = payload (file_cache_ w) /\
    w' = set_file_cache (file_cache_ w') w.
Proof.
  intros fv w Hc Hl Hr. cbn zeta. unfold exec, eval.
  rewrite (PinFiles_all_resident fv Hc Hl Hr). cbn [fst snd].
  destruct (pin_resident_table fv [] w) as (A & B & C).
  repeat split; try assumption. apply pin_resident_frame.
Qed.

Lemma PinFiles_resident_names_witness :
  let w := world_two_parked in
  let w' := exec (PinFiles ["a"; "b"; "a"]) w in
  eval (PinFiles ["a"; "b"; "a"]) w = PinReturn /\
  (forall k, StdMap.find k (file_cache_ w') =
             option_map (Nat.iter (count_occ string_dec ["a"; "b"; "a"] k) pin_incr)
                        (StdMap.find k (file_cache_ w))) /\
  keys (file_cache_ w') = keys (file_cache_ w) /\
  payload (file_cache_ w') = payload (file_cache_ w) /\
  w' = set_file_cache (file_cache_ w') w.
Proof.
  intros w. apply (@PinFiles_resident_names ["a"; "b"; "a"] w).
  - cbn. unfold INT_MAX. lia.
  - cbn. lia.
  - intros name [<-|[<-|[<-|[]]]]; discriminate.
Defined.

(** X5. Pinning resident names and then unpinning the same names gives
    back every entry as it was, provided no count leaves the range of
    [uint32_t] on the way: each lookup returns what it returned before. *)
Theorem PinFiles_then_UnpinFiles_restores :
  forall (file_vec : list string) (w : World),
    0 <= max_cache_entries_ w <= INT_MAX ->
    Z.of_nat (List.length file_vec) <= max_cache_entries_ w ->
    (forall name, In name file_vec -> StdMap.find name (file_cache_ w) <> None) ->
    (forall name ce, StdMap.find name (file_cache_ w) = Some ce ->
       0 <= pin_count_ ce /\
       pin_count_ ce + Z.of_nat (count_occ string_dec file_vec name) < 2 ^ 32) ->
    let w1 := exec (PinFiles file_vec) w in
    let w2 := exec (UnpinFiles file_vec) w1 in
    (forall k, StdMap.find k (file_cache_ w2) = StdMap.find k (file_cache_ w)) /\
    keys (file_cache_ w2) = keys (file_cache_ w) /\
    payload (file_cache_ w2) = payload (file_cache_ w).
Proof.
  intros fv w Hc Hl Hr Hp. cbn zeta.
  assert (E1 : exec (PinFiles fv) w = exec (pin_resident fv []) w).
  { unfold exec at 1. now rewrite (PinFiles_all_resident fv Hc Hl Hr). }
  rewrite E1. clear E1.
  destruct (pin_resident_table fv [] w) as (A & B & C).
  set (w1 := exec (pin_resident fv []) w) in *.
  assert (T2 : file_cache_ (exec (UnpinFiles fv) w1) =
               file_cache_ (exec (unpin_loop fv false) w1)).
  { unfold UnpinFiles. rewrite exec_bind.
    destruct (eval (unpin_loop fv false) w1); reflexivity. }
  rewrite T2.
  destruct (unpin_loop_payload fv false w1) as (K & P).
  split; [|split; congruence].
  intros k. rewrite unpin_loop_table, A.
  destruct (StdMap.find k (file_cache_ w)) as [ce|] eqn:F; [|reflexivity].
  cbn [option_map]. f_equal.
  destruct (Hp k ce F) as (H0 & H1).
  rewrite pin_incr_iter by assumption.
  rewrite pin_decr_iter by (cbn [pin_count_ set_pin_count]; lia).
  destruct ce. unfold set_pin_count. cbn. f_equal. lia.
Qed.

Lemma PinFiles_then_UnpinFiles_restores_witness :
  let w := world_two_parked in
  let w1 := exec (PinFiles ["a"; "b"; "a"]) w in
  let w2 := exec (UnpinFiles ["a"; "b"; "a"]) w1 in
  (forall k, StdMap.find k (file_cache_ w2) = StdMap.find k (file_cache_ w)) /\
  keys (file_cache_ w2) = keys (file_cache_ w) /\
  payload (file_cache_ w2) = payload (file_cache_ w).
Proof.
  intros w. apply (@PinFiles_then_UnpinFiles_restores ["a"; "b"; "a"] w).
  - cbn. unfold INT_MAX. lia.
  - cbn. lia.
  - intros name [<-|[<-|[<-|[]]]]; discriminate.
  - intros name ce F. cbn in F.
    destruct (String.eqb name "a") eqn:Ea.
    + injection F as <-. cbn [pin_count_ entry].
      pose proof (count_occ_bound string_dec name ["a"; "b"; "a"]) as Hb.
      cbn [List.length] in Hb. lia.
    + destruct (String.eqb name "b") eqn:Eb; [|discriminate].
      injection F as <-. cbn [pin_count_ entry].
      pose proof (count_occ_bound string_dec name ["a"; "b"; "a"]) as Hb.
      cbn [List.length] in Hb. lia.
Defined.

(* ===================================================================== *)
(** ** Further properties: loading files *)
(* ===================================================================== *)

Lemma lookup_store_other {A : Type} k n (v : A) l :
  k <> n -> Sys.lookup k (Sys.store n v l) = Sys.lookup k l.
Proof.
  intros Hne. induction l as [|[k' v'] l IH]; cbn.
  - apply String.eqb_neq in Hne. now rewrite Hne.
  - destruct (String.eqb n k') eqn:E; cbn.
    + apply String.eqb_eq in E. subst k'.
      apply String.eqb_neq in Hne. now rewrite Hne.
    + destruct (String.eqb k k'); [reflexivity|exact IH].
Qed.

(** What [add_cache_entry] does to the storage: [open] creates a missing
    file, empty; nothing is written. *)
Lemma add_cache_entry_disk (file_name : string) (w : World) :
  disk (exec (add_cache_entry file_name) w) =
  if open_fails (faults w) file_name then disk w
  else match Sys.lookup file_name (disk w) with
       | Some _ => disk w
       | None => Sys.store file_name [] (disk w)
       end.
Proof.
  destruct (open_fails (faults w) file_name) eqn:Ho.
  - unfold exec. now rewrite (add_cache_entry_open_fails file_name w Ho).
  - unfold add_cache_entry, exec, bind, Sys.open. rewrite Ho.
    fold (next_fd w).
    pose proof (lowest_free_ge (List.length (open_fds w)) 3 (open_fds w)) as Hfd.
    fold (next_fd w) in Hfd.
    destruct (next_fd w <? 0) eqn:E; [apply Z.ltb_lt in E; lia|].
    cbn [Sys.lseek modify]. unfold Sys.read.
    cbn [open_fds add_event set_open_fds Sys.fd_name].
    rewrite Z.eqb_refl. cbn [faults add_event set_open_fds set_disk].
    destruct (read_fails (faults w) file_name).
    + cbn [fst]. cbn [Z.ltb Z.compare].
      cbn [Sys.strerror gets Sys.eprint modify Sys.close snd].
      reflexivity.
    + cbn [fst snd].
      destruct (Z.of_nat _ <? 0) eqn:E2; [apply Z.ltb_lt in E2; lia|].
      unfold CacheEntry_dtor, CacheEntry_ctor.
      cbn [pin_count_ Z.eqb ret modify snd]. reflexivity.
Qed.

(** The bytes of every file are what they were. *)
Lemma add_cache_entry_file_bytes (file_name k : string) (w : World) :
  file_bytes k (exec (add_cache_entry file_name) w) = file_bytes k w.
Proof.
  unfold file_bytes. rewrite add_cache_entry_disk.
  destruct (open_fails (faults w) file_name); [reflexivity|].
  destruct (Sys.lookup file_name (disk w)) eqn:L; [reflexivity|].
  destruct (string_dec k file_name) as [->|Hne].
  - now rewrite lookup_store_same, L.
  - now rewrite lookup_store_other.
Qed.

Lemma add_cache_entry_faults (file_name : string) (w : World) :
  faults (exec (add_cache_entry file_name) w) = faults w.
Proof.
  destruct (add_cache_entry_table file_name w) as (_ & _ & _ & F & _). exact F.
Qed.

(** A failed load leaves the table and prints its line. *)
Lemma add_cache_entry_fails (file_name : string) (w : World) :
  load_fails file_name w = true ->
  file_cache_ (exec (add_cache_entry file_name) w) = file_cache_ w /\
  stderr_ (exec (add_cache_entry file_name) w) =
    stderr_ w ++ [load_error file_name w].
Proof.
  unfold load_fails, load_error. intros H.
  destruct (open_fails (faults w) file_name) eqn:Ho.
  - unfold exec. rewrite (add_cache_entry_open_fails file_name w Ho).
    split; reflexivity.
  - cbn in H.
    destruct (add_cache_entry_read_fails file_name w Ho H) as (A & B & _).
    split; assumption.
Qed.

(** Standard error only grows. *)
Lemma add_cache_entry_stderr (file_name : string) (w : World) :
  exists l, stderr_ (exec (add_cache_entry file_name) w) = stderr_ w ++ l.
Proof.
  destruct (load_fails file_name w) eqn:H.
  - destruct (add_cache_entry_fails file_name w H) as (_ & B).
    eexists. exact B.
  - unfold load_fails in H. apply orb_false_iff in H. destruct H as (Ho & Hr).
    destruct (add_cache_entry_ok file_name w Ho Hr) as (_ & B & _).
    exists []. now rewrite app_nil_r.
Qed.

(** A load keeps what is loaded, under any name. *)
Lemma add_cache_entry_keeps_loaded (file_name k : string) (buf : list byte)
      (w : World) :
  loaded_buffer (file_bytes k w) = buf ->
  loaded_entry (file_cache_ w) k buf ->
  loaded_entry (file_cache_ (exec (add_cache_entry file_name) w)) k buf.
Proof.
  intros Hb (ce & F & P & D & B). unfold loaded_entry.
  destruct (load_fails file_name w) eqn:H.
  - destruct (add_cache_entry_fails file_name w H) as (A & _). rewrite A.
    exists ce. auto.
  - unfold load_fails in H. apply orb_false_iff in H. destruct H as (Ho & Hr).
    destruct (add_cache_entry_ok file_name w Ho Hr) as (A & _). rewrite A.
    destruct (string_dec k file_name) as [->|Hne].
    + destruct (find_insert_some file_name
                  (CacheEntry_ctor (loaded_buffer (file_bytes file_name w)) 1
                                   (next_fd w)) (file_cache_ w))
        as (x & Fx & [->|Fx']).
      * eexists. split; [exact Fx|]. repeat split. exact Hb.
      * rewrite F in Fx'. injection Fx' as <-. exists ce. auto.
    + rewrite find_insert_other by assumption. exists ce. auto.
Qed.

Section CreateEach.

Variable k : string.

(** Loads of other names, and failed loads, leave the lookup of [k]. *)
Lemma create_each_find_unchanged (names : list string) :
  forall (w : World),
    (In k names -> load_fails k w = true) ->
    StdMap.find k (file_cache_ (exec (create_each names) w)) =
    StdMap.find k (file_cache_ w).
Proof.
  induction names as [|n rest IH]; intros w H; [reflexivity|].
  cbn [create_each]. rewrite exec_bind.
  assert (Hf : load_fails k (exec (add_cache_entry n) w) = load_fails k w).
  { unfold load_fails. now rewrite add_cache_entry_faults. }
  rewrite IH by (intros Hin; rewrite Hf; apply H; right; exact Hin).
  destruct (string_dec n k) as [->|Hne].
  - destruct (add_cache_entry_fails k w (H (or_introl eq_refl))) as (A & _).
    now rewrite A.
  - destruct (add_cache_entry_table n w) as (_ & _ & _ & _ & [E|(b & fd & E)]);
      rewrite E; [reflexivity|].
    apply find_insert_other. congruence.
Qed.

Lemma create_each_keeps_loaded (names : list string) :
  forall (w : World) (buf : list byte),
    loaded_buffer (file_bytes k w) = buf ->
    loaded_entry (file_cache_ w) k buf ->
    loaded_entry (file_cache_ (exec (create_each names) w)) k buf.
Proof.
  induction names as [|n rest IH]; intros w buf Hb Hl; [exact Hl|].
  cbn [create_each]. rewrite exec_bind. apply IH.
  - now rewrite add_cache_entry_file_bytes.
  - now apply add_cache_entry_keeps_loaded.
Qed.

(** A name of the list that was not resident and whose load works is
    resident afterwards, pinned once and clean, with the bytes of its file. *)
Lemma create_each_loads (names : list string) :
  forall (w : World),
    In k names ->
    load_fails k w = false ->
    StdMap.find k (file_cache_ w) = None ->
    loaded_entry (file_cache_ (exec (create_each names) w)) k
                 (loaded_buffer (file_bytes k w)).
Proof.
  induction names as [|n rest IH]; intros w Hin Hw Hn; [destruct Hin|].
  cbn [create_each]. rewrite exec_bind.
  assert (Hf : load_fails k (exec (add_cache_entry n) w) = false).
  { unfold load_fails in *. now rewrite add_cache_entry_faults. }
  destruct (string_dec n k) as [->|Hne].
  - apply create_each_keeps_loaded;
      [now rewrite add_cache_entry_file_bytes|].
    unfold load_fails in Hw. apply orb_false_iff in Hw. destruct Hw as (Ho & Hr).
    destruct (add_cache_entry_ok k w Ho Hr) as (A & _). rewrite A.
    unfold loaded_entry. rewrite find_insert_new by assumption.
    eexists. split; [reflexivity|]. repeat split.
  - destruct Hin as [E|Hin]; [contradiction|].
    rewrite <- (add_cache_entry_file_bytes n k w).
    apply IH; [exact Hin|exact Hf|].
    destruct (add_cache_entry_table n w) as (_ & _ & _ & _ & [E|(b & fd & E)]);
      rewrite E; [exact Hn|].
    rewrite find_insert_other by congruence. exact Hn.
Qed.

(** The line of a failed load is on standard error afterwards. *)
Lemma create_each_reports (names : list string) :
  forall (w : World),
    In k names ->
    load_fails k w = true ->
    In (load_error k w) (stderr_ (exec (create_each names) w)).
Proof.
  assert (Hmono : forall l w x, In x (stderr_ w) ->
                    In x (stderr_ (exec (create_each l) w))).
  { induction l as [|n rest IH]; intros w x Hx; [exact Hx|].
    cbn [create_each]. rewrite exec_bind. apply IH.
    destruct (add_cache_entry_stderr n w) as (l & E). rewrite E.
    apply in_or_app. left. exact Hx. }
  induction names as [|n rest IH]; intros w Hin Hw; [destruct Hin|].
  cbn [create_each]. rewrite exec_bind.
  destruct (string_dec n k) as [->|Hne].
  - apply Hmono. destruct (add_cache_entry_fails k w Hw) as (_ & B).
    rewrite B. apply in_or_app. right. left. reflexivity.
  - destruct Hin as [E|Hin]; [contradiction|].
    assert (Hf : load_fails k (exec (add_cache_entry n) w) = true).
    { unfold load_fails in *. now rewrite add_cache_entry_faults. }
    assert (He : load_error k (exec (add_cache_entry n) w) = load_error k w).
    { unfold load_error. now rewrite add_cache_entry_faults. }
    rewrite <- He. apply IH; assumption.
Qed.

End CreateEach.

Lemma skipn_repeat {A : Type} (c : A) (k n : nat) :
  skipn k (repeat c n) = repeat c (n - k).
Proof.
  revert n. induction k as [|k IH]; intros n.
  - now rewrite Nat.sub_0_r.
  - destruct n as [|n]; [reflexivity|]. cbn. apply IH.
Qed.

Lemma loaded_buffer_padded (data : list byte) : loaded_buffer data = padded data.
Proof.
  unfold loaded_buffer, padded, memset, new_char_array.
  set (n := Z.to_nat FILE_SIZE). cbn zeta.
  rewrite (skipn_repeat x00 n n), Nat.sub_diag. cbn [repeat].
  rewrite app_nil_r, skipn_repeat. reflexivity.
Qed.

Lemma padded_exact (data : list byte) :
  Z.of_nat (List.length data) = FILE_SIZE -> padded data = data.
Proof.
  unfold padded. intros H. cbn zeta.
  assert (E : Z.to_nat FILE_SIZE = List.length data) by lia.
  rewrite E, firstn_all, Nat.sub_diag. cbn [repeat]. apply app_nil_r.
Qed.

(** With a free slot for every name given, the fill phase attempts them
    all and PinFiles returns. *)
Lemma PinFiles_enough_slots (file_vec : list string) (w : World) :
  cap_ok w ->
  StdMap.size (file_cache_ w) + Z.of_nat (List.length file_vec)
    <= max_cache_entries_ w ->
  PinFiles file_vec w =
  (PinReturn,
   exec (create_each (eval (pin_resident file_vec []) w))
        (exec (pin_resident file_vec []) w)).
Proof.
  intros Hc Hs.
  assert (H0 : 0 <= StdMap.size (file_cache_ w)) by (unfold StdMap.size; lia).
  unfold PinFiles. unfold bind at 1. cbn [gets].
  rewrite size_check_passes by (assumption || lia).
  unfold bind at 1. rewrite (run_pair (pin_resident file_vec []) w).
  destruct (pin_resident_size file_vec [] w) as (A1 & A2 & A3).
  set (w1 := exec (pin_resident file_vec []) w) in *.
  set (fnp := eval (pin_resident file_vec []) w) in *.
  cbn [List.length] in A3.
  assert (F : fill_up_cache fnp w1 = ([], exec (create_each fnp) w1)).
  { unfold fill_up_cache, bind, gets. unfold cap_ok in Hc.
    rewrite int_minus_size_small by lia.
    rewrite fill_loop_budget.
    assert (E : fill_attempts fnp (max_cache_entries_ w1 - StdMap.size (file_cache_ w1))
                = List.length fnp).
    { unfold fill_attempts, StdSet.size. lia. }
    rewrite E, skipn_all, firstn_all. reflexivity. }
  unfold bind. rewrite F. reflexivity.
Qed.

(** X6. PinFiles with a free slot for each name given returns without
    waiting. Every name that was resident gains one pin per occurrence;
    every name that was not, and whose file can be opened and read, is
    resident afterwards, clean and pinned exactly once (also when the
    argument lists it more than once), and its buffer holds the first
    [FILE_SIZE] bytes of the file, a shorter file being filled up with
    ['0'] characters; for a file of [FILE_SIZE] bytes these are its bytes. *)
Theorem PinFiles_free_slots_loads :
  forall (file_vec : list string) (w : World),
    0 <= max_cache_entries_ w <= INT_MAX ->
    StdMap.size (file_cache_ w) + Z.of_nat (List.length file_vec)
      <= max_cache_entries_ w ->
    let w' := exec (PinFiles file_vec) w in
    eval (PinFiles file_vec) w = PinReturn /\
    (forall name ce,
        StdMap.find name (file_cache_ w) = Some ce ->
        StdMap.find name (file_cache_ w') =
        Some (Nat.iter (count_occ string_dec file_vec name) pin_incr ce)) /\
    (forall name,
        In name file_vec ->
        StdMap.find name (file_cache_ w) = None ->
        load_fails name w = false ->
        loaded_entry (file_cache_ w') name (padded (file_bytes name w)) /\
        eval (FileData name) w' = Some (padded (file_bytes name w))) /\
    (forall data, Z.of_nat (List.length data) = FILE_SIZE -> padded data = data).
Proof.
  intros fv w Hc Hs. cbn zeta. unfold exec at 1 2 3, eval at 1.
  rewrite (PinFiles_enough_slots fv Hc Hs). cbn [fst snd].
  destruct (pin_resident_table fv [] w) as (A & _ & _).
  pose proof (pin_resident_frame fv [] w) as Fr.
  set (w1 := exec (pin_resident fv []) w) in *.
  set (fnp := eval (pin_resident fv []) w) in *.
  split; [reflexivity|]. split; [|split; [|exact padded_exact]].
  - intros name ce F.
    rewrite create_each_find_unchanged.
    + rewrite A, F. reflexivity.
    + intros Hin. apply pin_resident_set in Hin.
      destruct Hin as [[]|[_ N]]. congruence.
  - intros name Hin N Hw.
    assert (Hfnp : In name fnp) by (apply pin_resident_set; auto).
    assert (N1 : StdMap.find name (file_cache_ w1) = None)
      by (rewrite A, N; reflexivity).
    assert (Hw1 : load_fails name w1 = false)
      by (unfold load_fails in *; rewrite Fr; exact Hw).
    assert (B1 : file_bytes name w1 = file_bytes name w)
      by (unfold file_bytes; rewrite Fr; reflexivity).
    pose proof (create_each_loads name fnp w1 Hfnp Hw1 N1) as L.
    rewrite loaded_buffer_padded, B1 in L.
    split; [exact L|].
    destruct L as (ce & F & _ & _ & B).
    unfold FileData. rewrite eval_bind, exec_gets, eval_gets, F, eval_ret.
    now rewrite B.
Qed.

Lemma PinFiles_free_slots_loads_witness :
  let w := world_free_slots in
  let w' := exec (PinFiles ["f"; "c"; "f"]) w in
  StdMap.find "c" (file_cache_ w') =
    Some (Nat.iter (count_occ string_dec ["f"; "c"; "f"] "c") pin_incr
                   (entry 1 false 3)) /\
  (loaded_entry (file_cache_ w') "f" (padded (file_bytes "f" w)) /\
   eval (FileData "f") w' = Some (padded (file_bytes "f" w))).
Proof.
  intros w w'.
  destruct (@PinFiles_free_slots_loads ["f"; "c"; "f"] w) as (_ & A & B & _).
  - cbn. unfold INT_MAX. lia.
  - cbn. lia.
  - split.
    + apply A. reflexivity.
    + apply B; [left; reflexivity|reflexivity|reflexivity].
Defined.

(** In that run ["f"], listed twice, is pinned once. *)
Example PinFiles_twice_listed_run :
  let w' := exec (PinFiles ["f"; "c"; "f"]) world_free_slots in
  pins (file_cache_ w') = [("c", 2); ("f", 1)] /\
  option_map (firstn 4) (eval (FileData "f") w') = Some [x61; x62; x30; x30].
Proof. cbn zeta. split; vm_compute; reflexivity. Qed.

(** X7. PinFiles gives no sign of a file it could not load. With a free
    slot for each name given it returns as usual; a name that was not
    resident and whose [open] or [read] fails is not resident afterwards,
    FileData returns [nullptr] for it, and the only trace of the failure
    is the line on standard error. *)
Theorem PinFiles_drops_failed_name :
  forall (file_vec : list string) (name : string) (w : World),
    0 <= max_cache_entries_ w <= INT_MAX ->
    StdMap.size (file_cache_ w) + Z.of_nat (List.length file_vec)
      <= max_cache_entries_ w ->
    In name file_vec ->
    StdMap.find name (file_cache_ w) = None ->
    load_fails name w = true ->
    let w' := exec (PinFiles file_vec) w in
    eval (PinFiles file_vec) w = PinReturn /\
    StdMap.find name (file_cache_ w') = None /\
    eval (FileData name) w' = None /\
    In (load_error name w) (stderr_ w').
Proof.
  intros fv name w Hc Hs Hin N Hw. cbn zeta. unfold exec at 1 2 3, eval at 1.
  rewrite (PinFiles_enough_slots fv Hc Hs). cbn [fst snd].
  destruct (pin_resident_table fv [] w) as (A & _ & _).
  pose proof (pin_resident_frame fv [] w) as Fr.
  set (w1 := exec (pin_resident fv []) w) in *.
  set (fnp := eval (pin_resident fv []) w) in *.
  assert (Hfnp : In name fnp) by (apply pin_resident_set; auto).
  assert (N1 : StdMap.find name (file_cache_ w1) = None)
    by (rewrite A, N; reflexivity).
  assert (Hw1 : load_fails name w1 = true)
    by (unfold load_fails in *; rewrite Fr; exact Hw).
  assert (He : load_error name w1 = load_error name w)
    by (unfold load_error; rewrite Fr; reflexivity).
  assert (F : StdMap.find name (file_cache_ (exec (create_each fnp) w1)) = None).
  { rewrite create_each_find_unchanged; [exact N1|intros _; exact Hw1]. }
  split; [reflexivity|]. split; [exact F|]. split.
  - unfold FileData. rewrite eval_bind, exec_gets, eval_gets, F. reflexivity.
  - rewrite <- He. apply create_each_reports; assumption.
Qed.

Lemma PinFiles_drops_failed_name_witness :
  let w := world_one_free_slot in
  let w' := exec (PinFiles ["a"]) w in
  eval (PinFiles ["a"]) w = PinReturn /\
  StdMap.find "a" (file_cache_ w') = None /\
  eval (FileData "a") w' = None /\
  In (load_error "a" w) (stderr_ w').
Proof.
  intros w. apply (@PinFiles_drops_failed_name ["a"] "a" w).
  - cbn. unfold INT_MAX. lia.
  - cbn. lia.
  - left. reflexivity.
  - reflexivity.
  - reflexivity.
Defined.

(* ===================================================================== *)
(** ** Further properties: waiting and waking *)
(* ===================================================================== *)

(** After a wake-up the pending names that are resident are pinned, and
    nothing but the table is touched. *)
Lemma claim_resident_frame (files_not_pinned : StdSet.t) :
  forall (w : World),
    exec (claim_resident files_not_pinned) w =
    set_file_cache (file_cache_ (exec (claim_resident files_not_pinned) w)) w.
Proof.
  induction files_not_pinned as [|name rest IH]; intros w.
  - symmetry. apply set_file_cache_same.
  - cbn [claim_resident]. rewrite exec_bind, exec_gets, eval_gets.
    destruct (StdMap.find name (file_cache_ w)).
    + rewrite exec_bind. rewrite IH at 1. reflexivity.
    + rewrite exec_bind, exec_ret. apply IH.
Qed.

Lemma claim_resident_table (files_not_pinned : StdSet.t) :
  forall (w : World),
    let t' := file_cache_ (exec (claim_resident files_not_pinned) w) in
    (forall k, StdMap.find k t' =
               option_map (Nat.iter (count_occ string_dec files_not_pinned k) pin_incr)
                          (StdMap.find k (file_cache_ w))) /\
    keys t' = keys (file_cache_ w) /\
    payload t' = payload (file_cache_ w).
Proof.
  induction files_not_pinned as [|name rest IH]; intros w; cbn zeta.
  - cbn. repeat split. intros k. destruct (StdMap.find k (file_cache_ w)); reflexivity.
  - cbn [claim_resident count_occ]. rewrite exec_bind, exec_gets, eval_gets.
    destruct (StdMap.find name (file_cache_ w)) as [ce|] eqn:F.
    + rewrite exec_bind.
      destruct (IH (exec (update_entry name pin_incr) w)) as (A & B & C).
      change (file_cache_ (exec (update_entry name pin_incr) w))
        with (StdMap.update name pin_incr (file_cache_ w)) in *.
      rewrite B, C. split; [|split].
      * intros k. rewrite A.
        destruct (string_dec name k) as [->|Hne].
        -- rewrite find_update_same.
           destruct (StdMap.find k (file_cache_ w)); [|reflexivity].
           cbn [option_map]. now rewrite Nat.iter_succ_r.
        -- rewrite find_update_other by congruence. reflexivity.
      * apply update_keys.
      * apply update_payload. intros c. repeat split.
    + rewrite exec_bind, exec_ret.
      destruct (IH w) as (A & B & C).
      split; [|split; assumption].
      intros k. rewrite A. destruct (string_dec name k) as [->|Hne]; [|reflexivity].
      rewrite F. reflexivity.
Qed.

(** What stays pending: the names that are not resident. *)
Lemma claim_resident_set (files_not_pinned : StdSet.t) :
  forall (w : World) (x : string),
    In x (eval (claim_resident files_not_pinned) w) <->
    In x files_not_pinned /\ StdMap.find x (file_cache_ w) = None.
Proof.
  induction files_not_pinned as [|name rest IH]; intros w x.
  - cbn. intuition.
  - cbn [claim_resident]. rewrite eval_bind, exec_gets, eval_gets.
    destruct (StdMap.find name (file_cache_ w)) as [ce|] eqn:F.
    + rewrite eval_bind, IH.
      change (file_cache_ (exec (update_entry name pin_incr) w))
        with (StdMap.update name pin_incr (file_cache_ w)).
      rewrite find_update_none. cbn [In]. split.
      * intuition.
      * intros [[<-|H] N]; [congruence|auto].
    + rewrite eval_bind, eval_ret. cbn [In]. rewrite IH. split.
      * intros [<-|[H N]]; auto.
      * intros [[<-|H] N]; auto.
Qed.

Lemma evict_cache_entries_cv (n : Z) (w : World) :
  cv_waiting (exec (evict_cache_entries n) w) = cv_waiting w /\
  cv_woken (exec (evict_cache_entries n) w) = cv_woken w.
Proof.
  unfold evict_cache_entries. rewrite !exec_bind.
  cbn [exec eval gets modify fst snd set_file_cache cv_waiting cv_woken].
  destruct (evict_loop_same_cache n (file_cache_ w) 0 w) as (_ & _ & A & B & _).
  split; assumption.
Qed.

Lemma create_each_cv (names : list string) :
  forall (w : World),
    cv_waiting (exec (create_each names) w) = cv_waiting w /\
    cv_woken (exec (create_each names) w) = cv_woken w.
Proof.
  induction names as [|n rest IH]; intros w; [split; reflexivity|].
  cbn [create_each]. rewrite exec_bind.
  destruct (IH (exec (add_cache_entry n) w)) as (A & B).
  destruct (add_cache_entry_table n w) as (_ & C & D & _).
  split; congruence.
Qed.

(** The fill phase, whatever the capacity: a prefix of the pending set is
    attempted, the rest is returned. *)
Lemma fill_up_cache_run (files_not_pinned : StdSet.t) (w : World) :
  exists k,
    fill_up_cache files_not_pinned w =
    (skipn k files_not_pinned, exec (create_each (firstn k files_not_pinned)) w).
Proof.
  unfold fill_up_cache, bind, gets. eexists. apply fill_loop_budget.
Qed.

Lemma skipn_In {A : Type} (k : nat) (l : list A) (x : A) :
  In x (skipn k l) -> In x l.
Proof.
  intros H. rewrite <- (firstn_skipn k l). apply in_or_app. right. exact H.
Qed.

(** One turn of the loop of PinFiles, spelled out. *)
Lemma pin_loop_step (fuel : nat) (x : string) (xs : StdSet.t) (w : World) :
  pin_loop (S fuel) (x :: xs) w =
  if eval cache_entries_evictable w then
    let w1 := exec (claim_resident (x :: xs)) w in
    match eval (claim_resident (x :: xs)) w with
    | [] => (PinReturn, w1)
    | y :: ys =>
        let n := to_int (StdSet.size (y :: ys)) in
        let w2 := exec (evict_cache_entries n) w1 in
        if eval (evict_cache_entries n) w1 <=? StdSet.size (y :: ys) then
          pin_loop fuel (eval (fill_up_cache (y :: ys)) w2)
                   (exec (fill_up_cache (y :: ys)) w2)
        else (PinAssertFailed, w2)
    end
  else (PinWait (x :: xs), exec (cv_wait (x :: xs)) w).
Proof.
  cbn [pin_loop]. unfold bind at 1.
  unfold cache_entries_evictable, eval at 1. cbn [gets fst].
  destruct (existsb _ (file_cache_ w)); cbn [negb]; [|reflexivity].
  unfold bind at 1. rewrite (run_pair (claim_resident (x :: xs)) w).
  destruct (eval (claim_resident (x :: xs)) w) as [|y ys]; [reflexivity|].
  cbn zeta. unfold bind at 1. rewrite (run_pair (evict_cache_entries _) _).
  destruct (_ <=? _); [|reflexivity].
  unfold bind at 1. rewrite (run_pair (fill_up_cache _) _). reflexivity.
Qed.

(** A call that ends up waiting: nothing is evictable then, the call is
    parked last in the queue of [cv_], and what it still wants is part of
    what it wanted. *)
Lemma pin_loop_wait (fuel : nat) :
  forall (files_not_pinned : StdSet.t) (w : World) (f : StdSet.t) (w' : World),
    pin_loop fuel files_not_pinned w = (PinWait f, w') ->
    eval cache_entries_evictable w' = false /\
    f <> [] /\
    cv_waiting w' = cv_waiting w ++ [f] /\
    cv_woken w' = cv_woken w /\
    (forall x, In x f -> In x files_not_pinned).
Proof.
  induction fuel as [|fuel IH]; intros fnp w f w' H; [discriminate|].
  destruct fnp as [|x xs]; [discriminate|].
  rewrite pin_loop_step in H.
  destruct (eval cache_entries_evictable w) eqn:Hev.
  - pose proof (claim_resident_frame (x :: xs) w) as Fr.
    pose proof (claim_resident_set (x :: xs) w) as Cs.
    cbn zeta in H.
    set (w1 := exec (claim_resident (x :: xs)) w) in *.
    destruct (eval (claim_resident (x :: xs)) w) as [|y ys]; [discriminate|].
    destruct (evict_cache_entries_cv (to_int (StdSet.size (y :: ys))) w1) as (E1 & E2).
    set (w2 := exec (evict_cache_entries _) w1) in *.
    destruct (_ <=? _); [|discriminate].
    destruct (fill_up_cache_run (y :: ys) w2) as (k & Fk).
    unfold eval, exec in H. rewrite Fk in H. cbn [fst snd] in H.
    destruct (create_each_cv (firstn k (y :: ys)) w2) as (C1 & C2).
    destruct (IH _ _ _ _ H) as (K1 & K2 & K3 & K4 & K5).
    split; [exact K1|]. split; [exact K2|].
    rewrite K3, K4, C1, C2, E1, E2, Fr.
    split; [reflexivity|]. split; [reflexivity|].
    intros z Hz. apply K5, skipn_In in Hz. apply Cs in Hz. tauto.
  - injection H as <- <-.
    split; [exact Hev|]. split; [discriminate|].
    repeat split. auto.
Qed.

(** PinFiles, spelled out. *)
Lemma PinFiles_run (file_vec : list string) (w : World) :
  PinFiles file_vec w =
  if size_gt_int (Z.of_nat (List.length file_vec)) (max_cache_entries_ w) then
    (PinThrow "Number of files being pinned exceed cache size", w)
  else
    let w1 := exec (pin_resident file_vec []) w in
    let fnp := eval (pin_resident file_vec []) w in
    let w2 := exec (fill_up_cache fnp) w1 in
    let fnp' := eval (fill_up_cache fnp) w1 in
    if StdSet.empty fnp' then (PinReturn, w2)
    else pin_loop (pin_fuel fnp' w2) fnp' w2.
Proof.
  unfold PinFiles. unfold bind at 1. cbn [gets].
  destruct (size_gt_int _ _); [reflexivity|].
  unfold bind at 1. rewrite (run_pair (pin_resident file_vec []) w).
  unfold bind at 1. rewrite (run_pair (fill_up_cache _) _).
  cbn zeta. destruct (StdSet.empty _); reflexivity.
Qed.

(** X8. PinFiles blocks only when nothing can be evicted: if a call ends
    up waiting on [cv_], then at that moment no resident entry has pin
    count zero, the call is parked last in the queue with a pending set
    that is not empty, and every pending name is one of the names asked
    for. *)
Theorem PinFiles_waits_only_when_all_pinned :
  forall (file_vec : list string) (w : World) (pending : StdSet.t),
    eval (PinFiles file_vec) w = PinWait pending ->
    let w' := exec (PinFiles file_vec) w in
    (forall name ce, In (name, ce) (file_cache_ w') -> pin_count_ ce <> 0) /\
    pending <> [] /\
    cv_waiting w' = cv_waiting w ++ [pending] /\
    cv_woken w' = cv_woken w /\
    (forall name, In name pending -> In name file_vec).
Proof.
  intros fv w f H. cbn zeta.
  set (w' := exec (PinFiles fv) w).
  assert (Hp : PinFiles fv w = (PinWait f, w')).
  { rewrite (run_pair (PinFiles fv) w). now rewrite H. }
  clearbody w'. clear H. rewrite PinFiles_run in Hp.
  destruct (size_gt_int _ _); [discriminate|]. cbn zeta in Hp.
  pose proof (pin_resident_frame fv [] w) as Fr.
  pose proof (pin_resident_set fv [] w) as Ps.
  set (w1 := exec (pin_resident fv []) w) in *.
  set (fnp := eval (pin_resident fv []) w) in *.
  destruct (fill_up_cache_run fnp w1) as (k & Fk).
  unfold eval, exec in Hp. rewrite Fk in Hp. cbn [fst snd] in Hp.
  fold (exec (create_each (firstn k fnp)) w1) in Hp.
  destruct (create_each_cv (firstn k fnp) w1) as (C1 & C2).
  set (w2 := exec (create_each (firstn k fnp)) w1) in *.
  destruct (StdSet.empty (skipn k fnp)); [discriminate|].
  destruct (pin_loop_wait _ _ _ Hp) as (K1 & K2 & K3 & K4 & K5).
  split; [|split; [exact K2|]].
  - intros name ce Hin Hpin.
    unfold cache_entries_evictable in K1. rewrite eval_gets in K1.
    assert (Ht : existsb (fun kv => pin_count_ (snd kv) =? 0) (file_cache_ w') = true).
    { apply existsb_exists. exists (name, ce). split; [exact Hin|].
      cbn. now apply Z.eqb_eq. }
    congruence.
  - rewrite K3, K4, C1, C2, Fr.
    split; [reflexivity|]. split; [reflexivity|].
    intros z Hz. apply K5, skipn_In in Hz. apply Ps in Hz.
    destruct Hz as [[]|[Hz _]]. exact Hz.
Qed.

Lemma PinFiles_waits_only_when_all_pinned_witness :
  let w := world_one_free_slot in
  let w' := exec (PinFiles ["a"; "b"]) w in
  (forall name ce, In (name, ce) (file_cache_ w') -> pin_count_ ce <> 0) /\
  ["b"] <> [] /\
  cv_waiting w' = cv_waiting w ++ [["b"]] /\
  cv_woken w' = cv_woken w /\
  (forall name, In name ["b"] -> In name ["a"; "b"]).
Proof.
  intros w. apply (@PinFiles_waits_only_when_all_pinned ["a"; "b"] w ["b"]).
  reflexivity.
Defined.

(** X9. A released PinFiles call that finds no evictable entry goes back
    to waiting and changes nothing: it moves to the end of the queue of
    [cv_] with the same pending set. This is so even when its pending
    names have all become resident meanwhile: evictability is tested
    before they are looked up. *)
Theorem resume_without_evictable :
  forall (i : nat) (pending : StdSet.t) (w : World),
    nth_error (cv_woken w) i = Some pending ->
    pending <> [] ->
    eval cache_entries_evictable w = false ->
    resume i w =
    (PinWait pending,
     set_cv (cv_waiting w ++ [pending]) (remove_nth i (cv_woken w)) w).
Proof.
  intros i f w Hn Hne Hev. unfold resume. rewrite Hn.
  unfold pin_loop_run, pin_fuel. destruct f as [|x xs]; [congruence|].
  rewrite pin_loop_step.
  change (eval cache_entries_evictable
            (set_cv (cv_waiting w) (remove_nth i (cv_woken w)) w))
    with (eval cache_entries_evictable w).
  rewrite Hev. reflexivity.
Qed.

Lemma resume_without_evictable_witness :
  let w := world_released_pinned in
  resume 0 w =
  (PinWait ["a"; "b"],
   set_cv (cv_waiting w ++ [["a"; "b"]]) (remove_nth 0 (cv_woken w)) w).
Proof.
  intros w. apply (@resume_without_evictable 0 ["a"; "b"] w).
  - reflexivity.
  - discriminate.
  - reflexivity.
Defined.

(** X10. A released PinFiles call whose pending names have all become
    resident (loaded by other calls), at a moment when some entry is
    evictable, just takes its pins and returns: one pin per pending name,
    no entry evicted or created, no system call. *)
Theorem resume_claims_resident :
  forall (i : nat) (pending : StdSet.t) (w : World),
    nth_error (cv_woken w) i = Some pending ->
    eval cache_entries_evictable w = true ->
    (forall name, In name pending -> StdMap.find name (file_cache_ w) <> None) ->
    let w' := exec (resume i) w in
    eval (resume i) w = PinReturn /\
    (forall k, StdMap.find k (file_cache_ w') =
               option_map (Nat.iter (count_occ string_dec pending k) pin_incr)
                          (StdMap.find k (file_cache_ w))) /\
    keys (file_cache_ w') = keys (file_cache_ w) /\
    payload (file_cache_ w') = payload (file_cache_ w) /\
    w' = set_file_cache (file_cache_ w')
           (set_cv (cv_waiting w) (remove_nth i (cv_woken w)) w).
Proof.
  intros i f w Hn Hev Hr. cbn zeta. unfold exec, eval, resume. rewrite Hn.
  set (w0 := set_cv (cv_waiting w) (remove_nth i (cv_woken w)) w).
  unfold pin_loop_run, pin_fuel.
  destruct f as [|x xs].
  - cbn [pin_loop fst snd ret]. repeat split.
    intros k. cbn. destruct (StdMap.find k (file_cache_ w)); reflexivity.
  - rewrite pin_loop_step.
    change (eval cache_entries_evictable w0) with (eval cache_entries_evictable w).
    rewrite Hev. cbn zeta.
    assert (Hc : eval (claim_resident (x :: xs)) w0 = []).
    { destruct (eval (claim_resident (x :: xs)) w0) as [|y ys] eqn:E; [reflexivity|].
      exfalso.
      assert (Hy : In y (eval (claim_resident (x :: xs)) w0))
        by (rewrite E; left; reflexivity).
      apply claim_resident_set in Hy. destruct Hy as (Hy & N).
      exact (Hr y Hy N). }
    rewrite Hc. cbn [fst snd].
    destruct (claim_resident_table (x :: xs) w0) as (A & B & C).
    split; [reflexivity|]. split; [exact A|]. split; [exact B|].
    split; [exact C|]. apply claim_resident_frame.
Qed.

Lemma resume_claims_resident_witness :
  let w := world_released in
  let w' := exec (resume 0) w in
  eval (resume 0) w = PinReturn /\
  (forall k, StdMap.find k (file_cache_ w') =
             option_map (Nat.iter (count_occ string_dec ["a"; "b"] k) pin_incr)
                        (StdMap.find k (file_cache_ w))) /\
  keys (file_cache_ w') = keys (file_cache_ w) /\
  payload (file_cache_ w') = payload (file_cache_ w) /\
  w' = set_file_cache (file_cache_ w')
         (set_cv (cv_waiting w) (remove_nth 0 (cv_woken w)) w).
Proof.
  intros w. apply (@resume_claims_resident 0 ["a"; "b"] w).
  - reflexivity.
  - reflexivity.
  - intros name [<-|[<-|[]]]; discriminate.
Defined.

Lemma int_minus_size_negative (a : Z) :
  INT_MIN <= a < 0 -> int_minus_size a 0 = a.
Proof.
  unfold int_minus_size, to_int, to_size_t, INT_MIN. intros H.
  rewrite Z.sub_0_r, Z.mod_mod by lia.
  replace (a mod 2 ^ 64) with (a + 2 ^ 64)
    by (apply Z.mod_unique with (q := -1); lia).
  replace ((a + 2 ^ 64 + 2 ^ 31) mod 2 ^ 32) with (a + 2 ^ 31)
    by (apply Z.mod_unique with (q := 2 ^ 32); lia).
  lia.
Qed.

(** X11. A cache constructed with a negative capacity never throws and
    never loads anything: the size check compares after conversion to
    [size_t], where a negative [int] is huge, and the fill phase sees no
    free slot. On its empty table a call with no names returns, and any
    other call waits with all its names pending, without a system call. *)
Theorem PinFiles_negative_capacity :
  forall (file_vec : list string) (w : World),
    INT_MIN <= max_cache_entries_ w < 0 ->
    Z.of_nat (List.length file_vec) <= INT_MAX ->
    file_cache_ w = [] ->
    let w' := exec (PinFiles file_vec) w in
    file_cache_ w' = [] /\
    trace w' = trace w /\
    match file_vec with
    | [] => eval (PinFiles file_vec) w = PinReturn
    | _ => exists pending,
             eval (PinFiles file_vec) w = PinWait pending /\
             (forall name, In name pending <-> In name file_vec)
    end.
Proof.
  intros fv w Hc Hl Ht. cbn zeta. unfold exec, eval. rewrite PinFiles_run.
  assert (Hs : size_gt_int (Z.of_nat (List.length fv)) (max_cache_entries_ w) = false).
  { unfold size_gt_int, to_size_t, INT_MIN, INT_MAX in *. apply Z.ltb_ge.
    replace (max_cache_entries_ w mod 2 ^ 64) with (max_cache_entries_ w + 2 ^ 64)
      by (apply Z.mod_unique with (q := -1); lia).
    lia. }
  rewrite Hs. cbn zeta.
  pose proof (pin_resident_frame fv [] w) as Fr.
  destruct (pin_resident_table fv [] w) as (_ & K & _).
  pose proof (pin_resident_set fv [] w) as Ps.
  set (w1 := exec (pin_resident fv []) w) in *.
  set (fnp := eval (pin_resident fv []) w) in *.
  assert (T1 : file_cache_ w1 = []).
  { rewrite Ht in K. unfold keys in K. now apply map_eq_nil in K. }
  assert (W1 : w1 = w).
  { rewrite Fr, T1, <- Ht. apply set_file_cache_same. }
  assert (F : fill_up_cache fnp w1 = (fnp, w1)).
  { unfold fill_up_cache, bind, gets. rewrite T1. unfold StdMap.size at 1.
    cbn [List.length Z.of_nat]. rewrite W1.
    rewrite int_minus_size_negative by assumption.
    rewrite fill_loop_budget.
    assert (E : fill_attempts fnp (max_cache_entries_ w) = O)
      by (unfold fill_attempts, StdSet.size; lia).
    rewrite E. reflexivity. }
  unfold eval, exec. rewrite F. cbn [fst snd].
  assert (Hin : forall name, In name fnp <-> In name fv).
  { intros name. rewrite Ps, Ht. cbn. intuition. }
  destruct fnp as [|x xs].
  - cbn [StdSet.empty fst snd]. rewrite W1. split; [exact Ht|].
    split; [reflexivity|].
    destruct fv as [|n fv']; [reflexivity|].
    exfalso. apply (Hin n). left. reflexivity.
  - cbn [StdSet.empty]. unfold pin_fuel. rewrite pin_loop_step.
    assert (Hev : eval cache_entries_evictable w1 = false).
    { unfold cache_entries_evictable. rewrite eval_gets, T1. reflexivity. }
    rewrite Hev. cbn [fst snd]. rewrite W1.
    split; [exact Ht|]. split; [reflexivity|].
    destruct fv as [|n fv'].
    + exfalso. apply (Hin x). left. reflexivity.
    + exists (x :: xs). split; [reflexivity|exact Hin].
Qed.

Lemma PinFiles_negative_capacity_witness :
  let w := FileCacheImpl_ctor (-1) [] no_faults in
  let w' := exec (PinFiles ["a"]) w in
  file_cache_ w' = [] /\
  trace w' = trace w /\
  exists pending,
    eval (PinFiles ["a"]) w = PinWait pending /\
    (forall name, In name pending <-> In name ["a"]).
Proof.
  intros w. apply (@PinFiles_negative_capacity ["a"] w).
  - cbn. unfold INT_MIN. lia.
  - cbn. unfold INT_MAX. lia.
  - reflexivity.
Defined.

(* ===================================================================== *)
(** ** Further properties: how much eviction removes *)
(* ===================================================================== *)

Lemma filter_pinned_all (entries : StdMap.t) :
  count_unpinned entries = 0 -> filter pinned entries = entries.
Proof.
  unfold count_unpinned, pinned.
  induction entries as [|kv rest IH]; [reflexivity|].
  cbn [filter]. destruct (unpinned kv); cbn [negb List.length].
  - rewrite Nat2Z.inj_succ. lia.
  - intros H. now rewrite IH.
Qed.

Lemma count_unpinned_cons (kv : string * CacheEntry) (rest : StdMap.t) :
  count_unpinned (kv :: rest) =
  (if unpinned kv then 1 else 0) + count_unpinned rest.
Proof.
  unfold count_unpinned. cbn [filter].
  destruct (unpinned kv); cbn [List.length]; [rewrite Nat2Z.inj_succ|]; lia.
Qed.

Lemma count_unpinned_nonneg (entries : StdMap.t) : 0 <= count_unpinned entries.
Proof. unfold count_unpinned. lia. Qed.

Section EvictionCount.

Variable n : Z.

(** While the request is not met, the loop erases unpinned entries in
    key order until it is met or none is left. *)
Lemma evict_loop_exact (entries : StdMap.t) :
  forall (c : Z) (w : World),
    c < n ->
    let r := eval (evict_loop entries c n) w in
    snd r = c + Z.min (n - c) (count_unpinned entries) /\
    filter pinned (fst r) = filter pinned entries /\
    (count_unpinned entries <= n - c -> fst r = filter pinned entries).
Proof.
  induction entries as [|[name ce] rest IH]; intros c w Hc; cbn zeta.
  - cbn. repeat split. lia.
  - pose proof (count_unpinned_nonneg rest) as H0.
    rewrite count_unpinned_cons. cbn [evict_loop filter].
    assert (Hu : unpinned (name, ce) = (pin_count_ ce =? 0)) by reflexivity.
    assert (Hq : pinned (name, ce) = negb (pin_count_ ce =? 0)) by reflexivity.
    rewrite Hu, Hq.
    destruct (pin_count_ ce =? 0) eqn:Hp; cbn [negb].
    + rewrite !eval_bind.
      destruct (c + 1 =? n) eqn:E.
      * apply Z.eqb_eq in E. rewrite eval_ret. cbn [fst snd].
        split; [lia|]. split; [reflexivity|].
        intros H. symmetry. apply filter_pinned_all. lia.
      * apply Z.eqb_neq in E.
        destruct (IH (c + 1)
                     (exec (CacheEntry_dtor ce) (exec (evict_flush name ce) w))
                     ltac:(lia)) as (A & B & C).
        split; [rewrite A; lia|]. split; [exact B|].
        intros H. apply C. lia.
    + rewrite eval_bind, eval_ret. cbn [fst snd filter].
      rewrite Hq. cbn [negb].
      destruct (IH c w Hc) as (A & B & C).
      split; [rewrite A; lia|]. split; [now rewrite B|].
      intros H. rewrite C by lia. reflexivity.
Qed.

(** A request the counter has already passed is never met: every
    unpinned entry goes. *)
Lemma evict_loop_all (entries : StdMap.t) :
  forall (c : Z) (w : World),
    n <= c ->
    let r := eval (evict_loop entries c n) w in
    snd r = c + count_unpinned entries /\ fst r = filter pinned entries.
Proof.
  induction entries as [|[name ce] rest IH]; intros c w Hc; cbn zeta.
  - cbn. split; [lia|reflexivity].
  - rewrite count_unpinned_cons. cbn [evict_loop filter].
    assert (Hu : unpinned (name, ce) = (pin_count_ ce =? 0)) by reflexivity.
    assert (Hq : pinned (name, ce) = negb (pin_count_ ce =? 0)) by reflexivity.
    rewrite Hu, Hq.
    destruct (pin_count_ ce =? 0) eqn:Hp; cbn [negb].
    + rewrite !eval_bind.
      destruct (c + 1 =? n) eqn:E; [apply Z.eqb_eq in E; lia|].
      destruct (IH (c + 1)
                   (exec (CacheEntry_dtor ce) (exec (evict_flush name ce) w))
                   ltac:(lia)) as (A & B).
      split; [rewrite A; lia|exact B].
    + rewrite eval_bind, eval_ret. cbn [fst snd].
      destruct (IH c w Hc) as (A & B).
      split; [rewrite A; lia|now rewrite B].
Qed.

End EvictionCount.

(** X12. For a request [n >= 1], [evict_cache_entries] erases exactly
    [min n u] entries, where [u] is the number of unpinned entries: the
    table shrinks by that many, that is the value returned, and the pinned
    entries are all kept, in order. When at most [n] entries are unpinned,
    what is left is exactly the pinned entries. *)
Theorem evict_cache_entries_exact :
  forall (w : World) (n : Z),
    1 <= n ->
    let w' := exec (evict_cache_entries n) w in
    let u := count_unpinned (file_cache_ w) in
    StdMap.size (file_cache_ w) - StdMap.size (file_cache_ w') = Z.min n u /\
    eval (evict_cache_entries n) w = to_uint32 (Z.min n u) /\
    filter pinned (file_cache_ w') = filter pinned (file_cache_ w) /\
    (u <= n -> file_cache_ w' = filter pinned (file_cache_ w)).
Proof.
  intros w n Hn. cbn zeta.
  rewrite evict_cache_entries_table, evict_cache_entries_result.
  destruct (@evict_loop_exact n (file_cache_ w) 0 w ltac:(lia)) as (A & B & C).
  destruct (evict_loop_spec n (file_cache_ w) 0 w) as (_ & _ & K3 & _).
  rewrite Z.sub_0_r, Z.add_0_l in A.
  split; [lia|]. split; [now rewrite A|]. split; [exact B|].
  intros H. apply C. lia.
Qed.

Lemma evict_cache_entries_exact_witness :
  let w := world_dirty in
  let w' := exec (evict_cache_entries 3) w in
  let u := count_unpinned (file_cache_ w) in
  StdMap.size (file_cache_ w) - StdMap.size (file_cache_ w') = Z.min 3 u /\
  eval (evict_cache_entries 3) w = to_uint32 (Z.min 3 u) /\
  filter pinned (file_cache_ w') = filter pinned (file_cache_ w) /\
  (u <= 3 -> file_cache_ w' = filter pinned (file_cache_ w)).
Proof.
  intros w. apply (@evict_cache_entries_exact w 3). lia.
Defined.

(** X13. A request of zero or less is never met, because the loop stops
    only when its counter, which starts at zero and is raised before the
    test, equals the request: every unpinned entry is erased. *)
Theorem evict_cache_entries_request_not_positive :
  forall (w : World) (n : Z),
    n <= 0 ->
    let w' := exec (evict_cache_entries n) w in
    file_cache_ w' = filter pinned (file_cache_ w) /\
    eval (evict_cache_entries n) w = to_uint32 (count_unpinned (file_cache_ w)).
Proof.
  intros w n Hn. cbn zeta.
  rewrite evict_cache_entries_table, evict_cache_entries_result.
  destruct (@evict_loop_all n (file_cache_ w) 0 w Hn) as (A & B).
  rewrite A, B. split; reflexivity.
Qed.

Lemma evict_cache_entries_request_not_positive_witness :
  let w := world_dirty in
  let w' := exec (evict_cache_entries 0) w in
  file_cache_ w' = filter pinned (file_cache_ w) /\
  eval (evict_cache_entries 0) w = to_uint32 (count_unpinned (file_cache_ w)).
Proof.
  intros w. apply (@evict_cache_entries_request_not_positive w 0). lia.
Defined.

(** Evicting where no unpinned entry is dirty only closes descriptors. *)
Lemma evict_loop_clean (n : Z) (entries : StdMap.t) :
  forall (c : Z) (w : World),
    (forall kv, In kv entries -> pin_count_ (snd kv) = 0 -> dirty_ (snd kv) = false) ->
    let w' := exec (evict_loop entries c n) w in
    disk w' = disk w /\ stderr_ w' = stderr_ w /\
    filter is_write (trace w') = filter is_write (trace w).
Proof.
  induction entries as [|[name ce] rest IH]; intros c w H; cbn zeta.
  - repeat split.
  - cbn [evict_loop]. destruct (pin_count_ ce =? 0) eqn:Hp.
    + apply Z.eqb_eq in Hp.
      assert (Hd : dirty_ ce = false) by (apply (H (name, ce)); [left; reflexivity|exact Hp]).
      rewrite !exec_bind.
      assert (E : exec (CacheEntry_dtor ce) (exec (evict_flush name ce) w)
                  = exec (Sys.close (fd_ ce)) w).
      { unfold evict_flush, CacheEntry_dtor. rewrite Hd, Hp. reflexivity. }
      rewrite E.
      assert (Hc : disk (exec (Sys.close (fd_ ce)) w) = disk w /\
                   stderr_ (exec (Sys.close (fd_ ce)) w) = stderr_ w /\
                   filter is_write (trace (exec (Sys.close (fd_ ce)) w))
                   = filter is_write (trace w)).
      { cbn. rewrite filter_app. cbn. rewrite app_nil_r. repeat split. }
      destruct Hc as (C1 & C2 & C3).
      destruct (c + 1 =? n).
      * rewrite exec_ret. repeat split; assumption.
      * destruct (IH (c + 1) (exec (Sys.close (fd_ ce)) w)) as (A1 & A2 & A3).
        { intros kv Hin. apply H. right. exact Hin. }
        repeat split; congruence.
    + rewrite exec_bind, exec_ret. apply IH.
      intros kv Hin. apply H. right. exact Hin.
Qed.

(** X14. Eviction never writes a clean entry: when no unpinned entry is
    dirty, [evict_cache_entries] leaves the storage and standard error as
    they were and issues no [write] at all (it only closes descriptors). *)
Theorem evict_cache_entries_clean_no_write :
  forall (w : World) (n : Z),
    (forall name ce, In (name, ce) (file_cache_ w) ->
                     pin_count_ ce = 0 -> dirty_ ce = false) ->
    let w' := exec (evict_cache_entries n) w in
    disk w' = disk w /\
    stderr_ w' = stderr_ w /\
    filter is_write (trace w') = filter is_write (trace w).
Proof.
  intros w n H. cbn zeta. unfold evict_cache_entries.
  rewrite !exec_bind, exec_gets, eval_gets.
  cbn [exec modify snd set_file_cache disk stderr_ trace].
  apply (evict_loop_clean n (file_cache_ w) 0 w).
  intros [name ce] Hin. apply (H name ce Hin).
Qed.

Lemma evict_cache_entries_clean_no_write_witness :
  let w := world_of 3 [("a", entry 1 true 3); ("c", entry 0 false 5)] in
  let w' := exec (evict_cache_entries 1) w in
  disk w' = disk w /\
  stderr_ w' = stderr_ w /\
  filter is_write (trace w') = filter is_write (trace w).
Proof.
  intros w. apply (@evict_cache_entries_clean_no_write w 1).
  intros name ce [E|[E|[]]] Hp; injection E as <- <-;
    [discriminate|reflexivity].
Defined.

(* ===================================================================== *)
(** ** Further properties: write-back *)
(* ===================================================================== *)

(** The loop steps over pinned entries without any effect. *)
Lemma evict_loop_pinned_prefix (n : Z) (before rest : StdMap.t) :
  Forall (fun kv => pin_count_ (snd kv) <> 0) before ->
  forall (c : Z) (w : World),
    evict_loop (before ++ rest) c n w =
    ((before ++ fst (eval (evict_loop rest c n) w),
      snd (eval (evict_loop rest c n) w)),
     exec (evict_loop rest c n) w).
Proof.
  induction 1 as [|[name ce] before Hp _ IH]; intros c w.
  - cbn [app]. rewrite (run_pair (evict_loop rest c n) w).
    cbn [eval exec fst snd].
    destruct (eval (evict_loop rest c n) w); reflexivity.
  - cbn [app evict_loop]. cbn [snd] in Hp. apply Z.eqb_neq in Hp. rewrite Hp.
    unfold bind. rewrite IH. reflexivity.
Qed.

Lemma evict_loop_pinned (n : Z) (entries : StdMap.t) :
  Forall (fun kv => pin_count_ (snd kv) <> 0) entries ->
  forall (c : Z) (w : World), evict_loop entries c n w = ((entries, c), w).
Proof.
  intros H c w.
  pose proof (@evict_loop_pinned_prefix n entries [] H c w) as E.
  rewrite app_nil_r in E. rewrite E. cbn. now rewrite app_nil_r.
Qed.

(** Where one unpinned entry is met and the loop then stops or meets
    pinned entries only, that entry alone is flushed and destroyed. *)
Lemma evict_loop_single (n : Z) (before after : StdMap.t) (name : string)
      (ce : CacheEntry) (c : Z) (w : World) :
  Forall (fun kv => pin_count_ (snd kv) <> 0) before ->
  pin_count_ ce = 0 ->
  c + 1 = n \/ Forall (fun kv => pin_count_ (snd kv) <> 0) after ->
  evict_loop (before ++ (name, ce) :: after) c n w =
  ((before ++ after, c + 1),
   exec (evict_flush name ce ;; CacheEntry_dtor ce) w).
Proof.
  intros Hb Hp Ha. rewrite (@evict_loop_pinned_prefix n before _ Hb).
  unfold eval, exec. cbn [evict_loop]. apply Z.eqb_eq in Hp. rewrite Hp.
  unfold bind.
  destruct (evict_flush name ce w) as [u1 w1].
  destruct (CacheEntry_dtor ce w1) as [u2 w2].
  destruct (c + 1 =? n) eqn:E.
  - reflexivity.
  - destruct Ha as [Ha|Ha]; [apply Z.eqb_neq in E; contradiction|].
    rewrite (@evict_loop_pinned n after Ha). reflexivity.
Qed.

(** A [write] that works. *)
Lemma write_ok (fd : Z) (buf : list byte) (name : string) (w : World) :
  Sys.fd_name fd (open_fds w) = Some name ->
  write_fails (faults w) name = false ->
  Sys.write fd buf w =
  (FILE_SIZE,
   add_event (SysWrite fd buf FILE_SIZE)
     (set_disk (Sys.store name
                  (firstn (Z.to_nat FILE_SIZE) buf ++
                   skipn (List.length (firstn (Z.to_nat FILE_SIZE) buf))
                         (file_bytes name w))
                  (disk w)) w)).
Proof.
  intros Hf Hw. unfold Sys.write, file_bytes. rewrite Hf, Hw. reflexivity.
Qed.

Lemma file_bytes_store_same name v (w : World) :
  file_bytes name (set_disk (Sys.store name v (disk w)) w) = v.
Proof. unfold file_bytes. cbn [disk set_disk]. now rewrite lookup_store_same. Qed.

Lemma file_bytes_store_other k name v (w : World) :
  k <> name -> file_bytes k (set_disk (Sys.store name v (disk w)) w) = file_bytes k w.
Proof.
  intros H. unfold file_bytes. cbn [disk set_disk].
  now rewrite lookup_store_other.
Qed.

(** Flushing and destroying a dirty entry whose writes work: the file
    holds the buffer afterwards (what lay beyond [FILE_SIZE] stays), and
    no other file and nothing of the cache object is touched. *)
Lemma flush_and_destroy (label name : string) (ce : CacheEntry) (w : World) :
  pin_count_ ce = 0 ->
  dirty_ ce = true ->
  Z.of_nat (List.length (file_buf_ ce)) = FILE_SIZE ->
  Sys.fd_name (fd_ ce) (open_fds w) = Some name ->
  write_fails (faults w) name = false ->
  let w' := exec (evict_flush label ce ;; CacheEntry_dtor ce) w in
  file_bytes name w' =
    file_buf_ ce ++ skipn (Z.to_nat FILE_SIZE) (file_bytes name w) /\
  (forall k, k <> name -> file_bytes k w' = file_bytes k w) /\
  faults w' = faults w /\
  stderr_ w' = stderr_ w /\
  max_cache_entries_ w' = max_cache_entries_ w /\
  file_cache_ w' = file_cache_ w /\
  trace w' = trace w ++
             [SysLseek (fd_ ce); SysWrite (fd_ ce) (file_buf_ ce) FILE_SIZE;
              SysLseek (fd_ ce); SysWrite (fd_ ce) (file_buf_ ce) FILE_SIZE;
              SysClose (fd_ ce)].
Proof.
  intros Hp Hd Hl Hf Hw. cbn zeta.
  assert (Hn : Z.to_nat FILE_SIZE = List.length (file_buf_ ce)) by lia.
  unfold evict_flush, CacheEntry_dtor. rewrite Hp, Hd. cbn [Z.eqb].
  set (fd := fd_ ce) in *. set (buf := file_buf_ ce) in *.
  set (w1 := add_event (SysLseek fd) w).
  pose proof (@write_ok fd buf name w1 Hf Hw) as W1.
  set (v1 := firstn (Z.to_nat FILE_SIZE) buf ++
             skipn (List.length (firstn (Z.to_nat FILE_SIZE) buf))
                   (file_bytes name w1)) in *.
  set (w2 := add_event (SysWrite fd buf FILE_SIZE)
               (set_disk (Sys.store name v1 (disk w1)) w1)) in *.
  set (w3 := add_event (SysLseek fd) w2).
  pose proof (@write_ok fd buf name w3 Hf Hw) as W3.
  assert (B3 : file_bytes name w3 = v1) by apply file_bytes_store_same.
  rewrite B3 in W3.
  assert (V1 : v1 = buf ++ skipn (Z.to_nat FILE_SIZE) (file_bytes name w)).
  { unfold v1. rewrite Hn, firstn_all. reflexivity. }
  assert (V2 : firstn (Z.to_nat FILE_SIZE) buf ++
               skipn (List.length (firstn (Z.to_nat FILE_SIZE) buf)) v1 = v1).
  { rewrite V1 at 1. rewrite Hn, firstn_all.
    rewrite skipn_app, skipn_all, Nat.sub_diag. cbn [skipn app].
    rewrite V1, Hn. reflexivity. }
  rewrite V2 in W3.
  set (w4 := add_event (SysWrite fd buf FILE_SIZE)
               (set_disk (Sys.store name v1 (disk w3)) w3)) in *.
  assert (E : exec ((Sys.lseek fd ;;
                     nbytes <- Sys.write fd buf ;;
                     (if nbytes <? 0
                      then err <- Sys.strerror ;;
                           Sys.eprint (message ["Error writing file "; label; " : "; err])
                      else ret tt)) ;;
                    (Sys.lseek fd ;;
                     nbytes <- Sys.write fd buf ;;
                     (if nbytes <? 0
                      then err <- Sys.strerror ;;
                           Sys.eprint (message ["Error writing file "; " : "; err])
                      else ret tt)) ;;
                    Sys.close fd) w
              = exec (Sys.close fd) w4).
  { unfold exec, bind. cbn [Sys.lseek modify]. fold w1. rewrite W1.
    change (FILE_SIZE <? 0) with false. cbn iota. cbn [ret]. fold w3.
    rewrite W3. reflexivity. }
  rewrite E. clear E.
  split; [|split].
  - rewrite <- V1. unfold file_bytes.
    cbn [exec Sys.close snd disk add_event set_open_fds set_disk w4 w3 w2 w1].
    rewrite lookup_store_same. reflexivity.
  - intros k Hk. unfold file_bytes.
    cbn [exec Sys.close snd disk add_event set_open_fds set_disk w4 w3 w2 w1].
    rewrite !lookup_store_other by assumption. reflexivity.
  - cbn. rewrite <- !app_assoc. repeat split.
Qed.

Lemma padded_prefix (buf rest : list byte) :
  Z.of_nat (List.length buf) = FILE_SIZE -> padded (buf ++ rest) = buf.
Proof.
  intros H. unfold padded. cbn zeta.
  assert (E : Z.to_nat FILE_SIZE = List.length buf) by lia.
  rewrite E, firstn_app, firstn_all, Nat.sub_diag. cbn [firstn].
  rewrite app_nil_r, Nat.sub_diag. cbn [repeat]. apply app_nil_r.
Qed.

(** X15. What was written into a buffer comes back after eviction. A
    dirty, unpinned entry with a full buffer, whose descriptor is open on
    its file and whose writes work, is the one entry an eviction takes
    (the entries before it are pinned, and the request is one or the
    entries after it are pinned too). Afterwards the entry is gone, the
    file starts with the bytes of the buffer, and pinning the name again
    loads them: FileData returns the very bytes the buffer held. *)
Theorem evict_then_pin_round_trip :
  forall (w : World) (n : Z) (before after : StdMap.t)
         (name : string) (ce : CacheEntry),
    0 <= max_cache_entries_ w <= INT_MAX ->
    StdMap.size (file_cache_ w) <= max_cache_entries_ w ->
    file_cache_ w = before ++ (name, ce) :: after ->
    Forall (fun kv => pin_count_ (snd kv) <> 0) before ->
    n = 1 \/ Forall (fun kv => pin_count_ (snd kv) <> 0) after ->
    ~ In name (keys (before ++ after)) ->
    pin_count_ ce = 0 ->
    dirty_ ce = true ->
    Z.of_nat (List.length (file_buf_ ce)) = FILE_SIZE ->
    Sys.fd_name (fd_ ce) (open_fds w) = Some name ->
    write_fails (faults w) name = false ->
    load_fails name w = false ->
    let w1 := exec (evict_cache_entries n) w in
    let w2 := exec (PinFiles [name]) w1 in
    file_cache_ w1 = before ++ after /\
    file_bytes name w1 =
      file_buf_ ce ++ skipn (Z.to_nat FILE_SIZE) (file_bytes name w) /\
    eval (PinFiles [name]) w1 = PinReturn /\
    loaded_entry (file_cache_ w2) name (file_buf_ ce) /\
    eval (FileData name) w2 = Some (file_buf_ ce).
Proof.
  intros w n before after name ce Hc Hi Ht Hb Ha Hk Hp Hd Hl Hf Hw Hlf.
  cbn zeta.
  set (we := exec (evict_flush name ce ;; CacheEntry_dtor ce) w).
  assert (E1 : exec (evict_cache_entries n) w = set_file_cache (before ++ after) we).
  { unfold evict_cache_entries, exec, bind, gets. rewrite Ht.
    rewrite (@evict_loop_single n before after name ce 0 w Hb Hp);
      [reflexivity|].
    destruct Ha as [->|Ha]; [left; reflexivity|right; exact Ha]. }
  rewrite E1.
  destruct (@flush_and_destroy name name ce w Hp Hd Hl Hf Hw)
    as (B & _ & F & _ & M & _).
  fold we in B, F, M.
  set (w1 := set_file_cache (before ++ after) we).
  assert (N1 : StdMap.find name (file_cache_ w1) = None)
    by (apply find_not_in_keys; exact Hk).
  assert (Hc1 : cap_ok w1) by (unfold cap_ok; cbn; rewrite M; exact Hc).
  assert (Hs1 : StdMap.size (file_cache_ w1) + Z.of_nat (List.length [name])
                <= max_cache_entries_ w1).
  { cbn [file_cache_ max_cache_entries_ w1 set_file_cache List.length].
    rewrite M. rewrite Ht in Hi. unfold StdMap.size in *.
    rewrite length_app in *. cbn [List.length] in *. lia. }
  assert (P : PinFiles [name] w1 = (PinReturn, exec (add_cache_entry name) w1)).
  { rewrite (PinFiles_enough_slots [name] Hc1 Hs1).
    assert (R : pin_resident [name] [] w1 = ([name], w1)).
    { cbn [pin_resident]. unfold bind, gets. rewrite N1. reflexivity. }
    unfold eval, exec. rewrite R. cbn [fst snd create_each].
    unfold bind. destruct (add_cache_entry name w1). reflexivity. }
  assert (Hlf1 : load_fails name w1 = false)
    by (unfold load_fails in *; cbn [faults w1 set_file_cache]; rewrite F; exact Hlf).
  unfold load_fails in Hlf1. apply orb_false_iff in Hlf1.
  destruct Hlf1 as (Ho & Hr).
  destruct (add_cache_entry_ok name w1 Ho Hr) as (A & _).
  assert (B1 : file_bytes name w1 =
               file_buf_ ce ++ skipn (Z.to_nat FILE_SIZE) (file_bytes name w))
    by exact B.
  rewrite B1, loaded_buffer_padded, padded_prefix in A by exact Hl.
  assert (L : loaded_entry (file_cache_ (exec (add_cache_entry name) w1)) name
                           (file_buf_ ce)).
  { unfold loaded_entry. rewrite A, find_insert_new by exact N1.
    eexists. split; [reflexivity|]. repeat split. }
  unfold exec at 1, eval at 1, exec at 1. rewrite P. cbn [fst snd].
  split; [reflexivity|]. split; [exact B1|]. split; [reflexivity|].
  split; [exact L|].
  destruct L as (x & Fx & _ & _ & Bx).
  unfold FileData. rewrite eval_bind, exec_gets, eval_gets, Fx, eval_ret.
  now rewrite Bx.
Qed.

Lemma evict_then_pin_round_trip_witness :
  let w := world_written in
  let w1 := exec (evict_cache_entries 1) w in
  let w2 := exec (PinFiles ["b"]) w1 in
  file_cache_ w1 = [("a", entry 1 false 3)] ++ [] /\
  file_bytes "b" w1 =
    buffer_of_a ++ skipn (Z.to_nat FILE_SIZE) (file_bytes "b" w) /\
  eval (PinFiles ["b"]) w1 = PinReturn /\
  loaded_entry (file_cache_ w2) "b" buffer_of_a /\
  eval (FileData "b") w2 = Some buffer_of_a.
Proof.
  intros w.
  apply (@evict_then_pin_round_trip w 1 [("a", entry 1 false 3)] [] "b"
           (mkCacheEntry buffer_of_a 0 true 4)).
  - cbn. unfold INT_MAX. lia.
  - cbn. lia.
  - reflexivity.
  - constructor; [cbn; lia|constructor].
  - left. reflexivity.
  - cbn. intros [H|[]]. discriminate.
  - reflexivity.
  - reflexivity.
  - vm_compute. reflexivity.
  - reflexivity.
  - reflexivity.
  - reflexivity.
Defined.

(* ===================================================================== *)
(** ** Further properties: a full cache, and shutdown *)
(* ===================================================================== *)

Lemma int_minus_size_full (a s : Z) :
  0 <= a <= s -> s <= INT_MAX -> int_minus_size a s = a - s.
Proof.
  unfold int_minus_size, to_int, to_size_t, INT_MAX. intros H1 H2.
  rewrite (Z.mod_small a) by lia.
  destruct (Z.eq_dec a s) as [->|Hne].
  - rewrite Z.sub_diag. reflexivity.
  - replace ((a - s) mod 2 ^ 64) with (a - s + 2 ^ 64)
      by (apply Z.mod_unique with (q := -1); lia).
    replace ((a - s + 2 ^ 64 + 2 ^ 31) mod 2 ^ 32) with (a - s + 2 ^ 31)
      by (apply Z.mod_unique with (q := 2 ^ 32); lia).
    lia.
Qed.

(** X16. With no free slot the fill phase does nothing at all: when the
    table holds [max_cache_entries_] entries or more, [fill_up_cache]
    hands back the pending set as it got it, and the world is untouched:
    no file is opened or created, nothing is printed. *)
Theorem fill_up_cache_full :
  forall (files_not_pinned : StdSet.t) (w : World),
    0 <= max_cache_entries_ w <= StdMap.size (file_cache_ w) ->
    StdMap.size (file_cache_ w) <= INT_MAX ->
    fill_up_cache files_not_pinned w = (files_not_pinned, w).
Proof.
  intros fnp w H1 H2. unfold fill_up_cache, bind, gets.
  rewrite int_minus_size_full by assumption.
  rewrite fill_loop_budget.
  assert (E : fill_attempts fnp (max_cache_entries_ w - StdMap.size (file_cache_ w)) = O)
    by (unfold fill_attempts, StdSet.size; lia).
  rewrite E. reflexivity.
Qed.

Lemma fill_up_cache_full_witness :
  fill_up_cache ["x"; "y"] world_dirty = (["x"; "y"], world_dirty).
Proof.
  apply (@fill_up_cache_full ["x"; "y"] world_dirty).
  - cbn. lia.
  - cbn. unfold INT_MAX. lia.
Defined.

Lemma close_trace (fd : Z) (w : World) :
  trace (exec (Sys.close fd) w) = trace w ++ [SysClose fd].
Proof. reflexivity. Qed.

(** The destructor of an unpinned entry: its events. *)
Lemma CacheEntry_dtor_events (ce : CacheEntry) (w : World) :
  pin_count_ ce = 0 ->
  exists t,
    trace (exec (CacheEntry_dtor ce) w) = trace w ++ t /\
    In (SysClose (fd_ ce)) t /\
    (dirty_ ce = true -> exists r, In (SysWrite (fd_ ce) (file_buf_ ce) r) t).
Proof.
  intros Hp. unfold CacheEntry_dtor. rewrite Hp. cbn [Z.eqb].
  destruct (dirty_ ce) eqn:Hd.
  - rewrite !exec_bind.
    set (w1 := exec (Sys.lseek (fd_ ce)) w).
    destruct (write_effect (fd_ ce) (file_buf_ ce) w1) as (T & _).
    set (r := eval (Sys.write (fd_ ce) (file_buf_ ce)) w1) in *.
    set (w2 := exec (Sys.write (fd_ ce) (file_buf_ ce)) w1) in *.
    exists [SysLseek (fd_ ce); SysWrite (fd_ ce) (file_buf_ ce) r; SysClose (fd_ ce)].
    split; [|split].
    + assert (T3 : trace (exec (if r <? 0
                                then err <- Sys.strerror ;;
                                     Sys.eprint (message ["Error writing file "; " : "; err])
                                else ret tt) w2) = trace w2).
      { destruct (r <? 0); reflexivity. }
      rewrite close_trace, T3, T.
      change (trace w1) with (trace w ++ [SysLseek (fd_ ce)]).
      rewrite <- !app_assoc. reflexivity.
    + right. right. left. reflexivity.
    + intros _. exists r. right. left. reflexivity.
  - rewrite exec_bind, exec_ret. exists [SysClose (fd_ ce)].
    split; [reflexivity|]. split; [left; reflexivity|discriminate].
Qed.

Lemma destroy_entries_events (entries : StdMap.t) :
  forall (w : World),
    exists t,
      trace (exec (destroy_entries entries) w) = trace w ++ t /\
      forall name ce,
        In (name, ce) entries -> pin_count_ ce = 0 ->
        In (SysClose (fd_ ce)) t /\
        (dirty_ ce = true -> exists r, In (SysWrite (fd_ ce) (file_buf_ ce) r) t).
Proof.
  induction entries as [|[name0 ce0] rest IH]; intros w.
  - exists []. split; [now rewrite app_nil_r|]. intros name ce [].
  - cbn [destroy_entries]. rewrite exec_bind.
    destruct (IH w) as (t1 & T1 & H1).
    set (w1 := exec (destroy_entries rest) w) in *.
    destruct (CacheEntry_dtor_moves_on ce0 w1) as (_ & _ & _ & (t2 & T2)).
    exists (t1 ++ t2). split; [rewrite T2, T1, app_assoc; reflexivity|].
    intros name ce [E|Hin] Hp.
    + injection E as <- <-.
      destruct (@CacheEntry_dtor_events ce0 w1 Hp) as (t & T & C & W).
      rewrite T2 in T. apply app_inv_head in T. subst t.
      split; [apply in_or_app; right; exact C|].
      intros Hd. destruct (W Hd) as (r & Hr). exists r.
      apply in_or_app. right. exact Hr.
    + destruct (H1 name ce Hin Hp) as (C & W).
      split; [apply in_or_app; left; exact C|].
      intros Hd. destruct (W Hd) as (r & Hr). exists r.
      apply in_or_app. left. exact Hr.
Qed.

(** X17. Destroying the cache empties the table and, for every entry
    that is unpinned at that moment, closes its descriptor and, when the
    entry is dirty, writes its buffer first. *)
Theorem FileCacheImpl_dtor_unpinned :
  forall (w : World),
    let w' := exec FileCacheImpl_dtor w in
    file_cache_ w' = [] /\
    exists t,
      trace w' = trace w ++ t /\
      forall name ce,
        In (name, ce) (file_cache_ w) -> pin_count_ ce = 0 ->
        In (SysClose (fd_ ce)) t /\
        (dirty_ ce = true -> exists r, In (SysWrite (fd_ ce) (file_buf_ ce) r) t).
Proof.
  intros w. cbn zeta. unfold FileCacheImpl_dtor.
  rewrite !exec_bind, exec_gets, eval_gets, exec_modify.
  split; [reflexivity|].
  destruct (destroy_entries_events (file_cache_ w) w) as (t & T & H).
  exists t. split; [exact T|exact H].
Qed.

Lemma FileCacheImpl_dtor_unpinned_witness :
  let w := world_dirty in
  let w' := exec FileCacheImpl_dtor w in
  file_cache_ w' = [] /\
  exists t,
    trace w' = trace w ++ t /\
    In (SysClose 4) t /\
    exists r, In (SysWrite 4 (repeat char_0 4) r) t.
Proof.
  intros w w'.
  destruct (FileCacheImpl_dtor_unpinned w) as (A & t & T & H).
  split; [exact A|]. exists t. split; [exact T|].
  destruct (H "b" (entry 0 true 4)) as (C & W).
  - right. left. reflexivity.
  - reflexivity.
  - split; [exact C|]. apply W. reflexivity.
Defined.

(** The entries go from the last key to the first: of two unpinned
    entries the one with the greater name is closed first. *)
Example FileCacheImpl_dtor_order_run :
  let w := mkWorld 2 [("a", entry 0 false 3); ("b", entry 0 false 4)] [] []
                   [("a", []); ("b", [])] [(4, "b"); (3, "a")] no_faults [] [] in
  trace (exec FileCacheImpl_dtor w) = [SysClose 4; SysClose 3].
Proof. cbn zeta. vm_compute. reflexivity. Qed.

(* ===================================================================== *)
(** ** Further properties: the order of the table *)
(* ===================================================================== *)

Lemma compare_lt_trans (a b c : string) :
  String.compare a b = Lt -> String.compare b c = Lt -> String.compare a c = Lt.
Proof.
  intros H1 H2.
  apply OrderedTypeEx.String_as_OT.cmp_lt.
  apply OrderedTypeEx.String_as_OT.lt_trans with (y := b);
    apply OrderedTypeEx.String_as_OT.cmp_lt; assumption.
Qed.

Lemma compare_gt_lt (a b : string) :
  String.compare a b = Gt -> String.compare b a = Lt.
Proof.
  intros H. rewrite String.compare_antisym, H. reflexivity.
Qed.

Lemma insert_In x k v (m : StdMap.t) :
  In x (StdMap.insert k v m) -> x = (k, v) \/ In x m.
Proof.
  induction m as [|[k' v'] m IH]; cbn.
  - intuition.
  - destruct (String.compare k k'); cbn; intuition.
Qed.

Lemma insert_sorted k v (m : StdMap.t) :
  sorted_table m -> sorted_table (StdMap.insert k v m).
Proof.
  unfold sorted_table.
  induction m as [|[k' v'] m IH]; intros H; cbn.
  - constructor; constructor.
  - inversion H as [|a l Hs Hf]; subst.
    destruct (String.compare k k') eqn:C.
    + exact H.
    + constructor; [exact H|]. constructor; [exact C|].
      eapply Forall_impl; [|exact Hf].
      intros x Hx. unfold key_lt in *. cbn [fst] in *.
      eapply compare_lt_trans; eassumption.
    + constructor; [apply IH; exact Hs|].
      apply Forall_forall. intros x Hx.
      apply insert_In in Hx. destruct Hx as [->|Hx].
      * unfold key_lt. cbn [fst]. now apply compare_gt_lt.
      * rewrite Forall_forall in Hf. apply Hf. exact Hx.
Qed.

Lemma update_Forall_key (a : string * CacheEntry) k f (m : StdMap.t) :
  Forall (key_lt a) m -> Forall (key_lt a) (StdMap.update k f m).
Proof.
  induction m as [|[k' v] m IH]; intros H; cbn; [constructor|].
  inversion H as [|x l H1 H2]; subst.
  destruct (String.eqb k k'); constructor; auto.
Qed.

Lemma update_sorted k f (m : StdMap.t) :
  sorted_table m -> sorted_table (StdMap.update k f m).
Proof.
  unfold sorted_table.
  induction m as [|[k' v] m IH]; intros H; cbn; [constructor|].
  inversion H as [|a l Hs Hf]; subst.
  destruct (String.eqb k k').
  - constructor; [exact Hs|]. exact Hf.
  - constructor; [apply IH; exact Hs|]. apply update_Forall_key. exact Hf.
Qed.

Lemma evict_loop_sorted (n : Z) (entries : StdMap.t) :
  forall (c : Z) (w : World),
    sorted_table entries ->
    sorted_table (fst (eval (evict_loop entries c n) w)).
Proof.
  unfold sorted_table.
  induction entries as [|[name ce] rest IH]; intros c w H.
  - constructor.
  - inversion H as [|a l Hs Hf]; subst. cbn [evict_loop].
    destruct (pin_count_ ce =? 0).
    + rewrite !eval_bind. destruct (c + 1 =? n).
      * rewrite eval_ret. exact Hs.
      * apply IH. exact Hs.
    + rewrite eval_bind, eval_ret. cbn [fst].
      constructor; [apply IH; exact Hs|].
      apply Forall_forall. intros x Hx.
      destruct (evict_loop_spec n rest c w) as (_ & K2 & _).
      rewrite Forall_forall in Hf. apply Hf, K2, Hx.
Qed.

Lemma sorted_NoDup (m : StdMap.t) : sorted_table m -> NoDup (keys m).
Proof.
  unfold sorted_table, keys.
  induction 1 as [|[k v] m Hs IH Hf]; cbn; constructor; [|exact IH].
  intros Hin. apply in_map_iff in Hin. destruct Hin as ([k' v'] & E & Hin).
  cbn in E. subst k'. rewrite Forall_forall in Hf.
  specialize (Hf _ Hin). unfold key_lt in Hf. cbn in Hf.
  rewrite compare_refl in Hf. discriminate.
Qed.

Lemma pin_resident_sorted (file_vec : list string) :
  forall (acc : StdSet.t) (w : World),
    sorted_table (file_cache_ w) ->
    sorted_table (file_cache_ (exec (pin_resident file_vec acc) w)).
Proof.
  induction file_vec as [|name rest IH]; intros acc w H; [exact H|].
  cbn [pin_resident]. rewrite exec_bind, exec_gets, eval_gets.
  destruct (StdMap.find name (file_cache_ w)).
  - rewrite exec_bind. apply IH. apply update_sorted. exact H.
  - apply IH. exact H.
Qed.

Lemma claim_resident_sorted (files_not_pinned : StdSet.t) :
  forall (w : World),
    sorted_table (file_cache_ w) ->
    sorted_table (file_cache_ (exec (claim_resident files_not_pinned) w)).
Proof.
  induction files_not_pinned as [|name rest IH]; intros w H; [exact H|].
  cbn [claim_resident]. rewrite exec_bind, exec_gets, eval_gets.
  destruct (StdMap.find name (file_cache_ w)).
  - rewrite exec_bind. apply IH. apply update_sorted. exact H.
  - rewrite exec_bind, exec_ret. apply IH. exact H.
Qed.

Lemma unpin_loop_sorted (file_vec : list string) :
  forall (flag : bool) (w : World),
    sorted_table (file_cache_ w) ->
    sorted_table (file_cache_ (exec (unpin_loop file_vec flag) w)).
Proof.
  induction file_vec as [|name rest IH]; intros flag w H; [exact H|].
  cbn [unpin_loop]. rewrite exec_bind, exec_gets, eval_gets.
  destruct (StdMap.find name (file_cache_ w)).
  - rewrite exec_bind. apply IH. apply update_sorted. exact H.
  - apply IH. exact H.
Qed.

Lemma create_each_sorted (names : list string) :
  forall (w : World),
    sorted_table (file_cache_ w) ->
    sorted_table (file_cache_ (exec (create_each names) w)).
Proof.
  induction names as [|n rest IH]; intros w H; [exact H|].
  cbn [create_each]. rewrite exec_bind. apply IH.
  destruct (add_cache_entry_table n w) as (_ & _ & _ & _ & [E|(b & fd & E)]);
    rewrite E; [exact H|apply insert_sorted; exact H].
Qed.

Lemma fill_up_cache_sorted (files_not_pinned : StdSet.t) (w : World) :
  sorted_table (file_cache_ w) ->
  sorted_table (file_cache_ (exec (fill_up_cache files_not_pinned) w)).
Proof.
  intros H. destruct (fill_up_cache_run files_not_pinned w) as (k & E).
  unfold exec. rewrite E. cbn [snd]. apply create_each_sorted. exact H.
Qed.

Lemma evict_cache_entries_sorted (n : Z) (w : World) :
  sorted_table (file_cache_ w) ->
  sorted_table (file_cache_ (exec (evict_cache_entries n) w)).
Proof.
  intros H. rewrite evict_cache_entries_table. apply evict_loop_sorted. exact H.
Qed.

Lemma pin_loop_sorted (fuel : nat) :
  forall (files_not_pinned : StdSet.t) (w : World),
    sorted_table (file_cache_ w) ->
    sorted_table (file_cache_ (exec (pin_loop fuel files_not_pinned) w)).
Proof.
  induction fuel as [|fuel IH]; intros fnp w H; [exact H|].
  destruct fnp as [|x xs]; [exact H|].
  unfold exec. rewrite pin_loop_step.
  destruct (eval cache_entries_evictable w); [|exact H].
  cbn zeta.
  pose proof (claim_resident_sorted (x :: xs) w H) as H1.
  destruct (eval (claim_resident (x :: xs)) w) as [|y ys]; [exact H1|].
  pose proof (evict_cache_entries_sorted (to_int (StdSet.size (y :: ys))) _ H1) as H2.
  destruct (_ <=? _); [|exact H2].
  apply IH. apply fill_up_cache_sorted. exact H2.
Qed.

Lemma step_sorted (o : Op) (w : World) :
  sorted_table (file_cache_ w) ->
  sorted_table (file_cache_ (exec (step o) w)).
Proof.
  intros H. destruct o as [fv|fv|n|n|i|i|n data|f]; cbn [step].
  - rewrite exec_bind, exec_ret. unfold exec. rewrite PinFiles_run.
    destruct (size_gt_int _ _); [exact H|]. cbn zeta.
    pose proof (pin_resident_sorted fv [] w H) as H1.
    pose proof (fill_up_cache_sorted (eval (pin_resident fv []) w) _ H1) as H2.
    destruct (StdSet.empty _); [exact H2|].
    apply pin_loop_sorted. exact H2.
  - unfold UnpinFiles. rewrite exec_bind.
    pose proof (unpin_loop_sorted fv false w H) as H1.
    destruct (eval (unpin_loop fv false) w); exact H1.
  - unfold FileData. autorewrite with monad.
    destruct (StdMap.find n (file_cache_ w)); autorewrite with monad; exact H.
  - unfold MutableFileData. autorewrite with monad.
    destruct (StdMap.find n (file_cache_ w)); autorewrite with monad; [|exact H].
    apply update_sorted. exact H.
  - unfold spurious_wake, exec.
    destruct (nth_error (cv_waiting w) i); exact H.
  - rewrite exec_bind, exec_ret. unfold resume, exec.
    destruct (nth_error (cv_woken w) i) as [fnp|]; [|exact H].
    unfold pin_loop_run. apply pin_loop_sorted. exact H.
  - apply update_sorted. exact H.
  - exact H.
Qed.

(** X18. The table is always in key order, without repetition: from the
    constructed cache, after any sequence of operations, the names of the
    table go up strictly, so no name is resident twice; and every single
    operation preserves that order. *)
Theorem table_sorted :
  (forall (ops : list Op) (max_cache_entries : Z)
          (d : list (string * list byte)) (f : Faults),
      let t := file_cache_ (run ops (FileCacheImpl_ctor max_cache_entries d f)) in
      sorted_table t /\ NoDup (keys t)) /\
  (forall (o : Op) (w : World),
      sorted_table (file_cache_ w) ->
      sorted_table (file_cache_ (exec (step o) w))).
Proof.
  split; [|exact step_sorted].
  intros ops cap d f. cbn zeta.
  assert (G : forall w, sorted_table (file_cache_ w) ->
                        sorted_table (file_cache_ (run ops w))).
  { induction ops as [|o ops IH]; intros w H; [exact H|].
    cbn [run]. apply IH. apply step_sorted. exact H. }
  assert (S0 : sorted_table
                 (file_cache_ (run ops (FileCacheImpl_ctor cap d f))))
    by (apply G; constructor).
  split; [exact S0|apply sorted_NoDup; exact S0].
Qed.

Lemma table_sorted_witness :
  sorted_table (file_cache_ (exec (step (CallPinFiles ["b"; "a"]))
                                  (world_of 3 [("c", entry 1 false 3)]))).
Proof.
  apply (proj2 table_sorted). repeat constructor.
Defined.

(** The table after that call. *)
Example table_sorted_run :
  keys (file_cache_ (exec (step (CallPinFiles ["b"; "a"]))
                          (world_of 3 [("c", entry 1 false 3)])))
  = ["a"; "b"; "c"].
Proof. vm_compute. reflexivity. Qed.
